(** * quadpy: quadrature schemes for the tetrahedron and the n-cube

    A shallow embedding of [quadrature/tetrahedron.py] and
    [quadpy/ncube/_stroud_1957.py].

    The Python code is written once and runs on two kinds of numbers: numpy's
    binary64 floats and, in the n-cube module under [symbolic=True], sympy's
    exact numbers.  The embedding keeps that shape: every function of the
    source is written once, over a number type [F] with the operations of the
    class [Num] (and [Sqrt], [Trig] for the library functions), and is then
    read at three instances:
    - [Q]: exact rationals, executable;
    - [R]: exact reals, with square roots and trigonometric functions;
    - [float]: IEEE 754 binary64, executable, with the rounding, the
      infinities and the NaN of the machine numbers numpy computes with.  *)

From Stdlib Require Import Floats String.
From Stdlib Require Import ZArith QArith Qabs Reals Lra Lia Bool List.
From Stdlib Require Import FunctionalExtensionality.
From Stdlib Require Import Permutation.
Import ListNotations.
Close Scope Q_scope.
Open Scope string_scope.
Open Scope list_scope.

Set Warnings "-inexact-float".

(** ** Exceptions and results *)

(** The Python exceptions the modelled code can raise. *)
Inductive exn : Type :=
| ValueError (msg : string)
| IndexError (msg : string)
| OverflowError (msg : string)
| ShapeMismatch (msg : string).

(** A computation either raises or returns. *)
Inductive result (A : Type) : Type :=
| Raise (e : exn)
| Return (a : A).
Arguments Raise {A} e.
Arguments Return {A} a.

Definition bind {A B : Type} (r : result A) (k : A -> result B) : result B :=
  match r with
  | Raise e => Raise e
  | Return a => k a
  end.

Notation "x <- e ;; k" := (bind e (fun x => k))
  (at level 61, e at next level, right associativity).
Notation "' p <- e ;; k" := (bind e (fun x => let 'p := x in k))
  (at level 61, p pattern, e at next level, right associativity).

Fixpoint mapM {A B : Type} (f : A -> result B) (l : list A) : result (list B) :=
  match l with
  | [] => Return []
  | a :: l' => b <- f a ;; bs <- mapM f l' ;; Return (b :: bs)
  end.

(** ** Numbers *)

(** The arithmetic the source uses.  [lit q] is the number a Python literal
    (or an [int] converted to the number type) denotes; [fsum] is
    [math.fsum]. *)
Class Num (F : Type) : Type := {
  lit : Q -> F;
  num_add : F -> F -> F;
  num_sub : F -> F -> F;
  num_mul : F -> F -> F;
  num_div : F -> F -> F;
  num_neg : F -> F;
  num_abs : F -> F;
  fsum : list F -> result F
}.
Arguments lit {F _} _%_Q.

(** [numpy.sqrt] / [sympy.sqrt]. *)
Class Sqrt (F : Type) : Type := {
  num_sqrt : F -> F
}.

(** [pi], [sin], [cos] and [arccos] of numpy / sympy. *)
Class Trig (F : Type) : Type := {
  num_pi : F;
  num_sin : F -> F;
  num_cos : F -> F;
  num_arccos : F -> F
}.

Declare Scope num_scope.
Delimit Scope num_scope with num.
Infix "+" := num_add : num_scope.
Infix "-" := num_sub : num_scope.
Infix "*" := num_mul : num_scope.
Infix "/" := num_div : num_scope.
Notation "- x" := (num_neg x) : num_scope.

(** *** Exact rationals *)

#[export] Instance Q_Num : Num Q := {
  lit := fun q => q;
  num_add := Qplus;
  num_sub := Qminus;
  num_mul := Qmult;
  num_div := Qdiv;
  num_neg := Qopp;
  num_abs := Qabs;
  fsum := fun l => Return (fold_left Qplus l 0%Q)
}.

(** *** Exact reals *)

#[export] Instance R_Num : Num R := {
  lit := Q2R;
  num_add := Rplus;
  num_sub := Rminus;
  num_mul := Rmult;
  num_div := Rdiv;
  num_neg := Ropp;
  num_abs := Rabs;
  fsum := fun l => Return (fold_right Rplus 0%R l)
}.

#[export] Instance R_Sqrt : Sqrt R := {
  num_sqrt := sqrt
}.

#[export] Instance R_Trig : Trig R := {
  num_pi := PI;
  num_sin := sin;
  num_cos := cos;
  num_arccos := acos
}.

(** *** binary64 *)

Module F64.

(** The binary64 number nearest to the rational [q], ties to even: what
    Python's parser does with a decimal literal and what [float(k)] does
    with an [int].  The quotient is taken with 120 extra bits and a sticky
    bit, and then rounded once by [binary_normalize]. *)
Definition of_Q (q : Q) : float :=
  let n := Qnum q in
  let d := Zpos (Qden q) in
  match n with
  | Z0 => 0%float
  | _ =>
    let s := Z.max 0 (Z.log2 d - Z.log2 (Z.abs n) + 120) in
    let num := (Z.abs n * 2 ^ s)%Z in
    let m := (2 * (num / d) + (if (num mod d =? 0)%Z then 0 else 1))%Z in
    SF2Prim (binary_normalize 53 1024 (Z.sgn n * m) (- s - 1) false)
  end.

(** The exact value of a finite binary64 number, in units of [2^-1074]. *)
Definition units (x : float) : option Z :=
  match Prim2SF x with
  | S754_zero _ => Some 0%Z
  | S754_finite s m e =>
      let v := (Zpos m * 2 ^ (e + 1074))%Z in
      Some (if s then (- v)%Z else v)
  | _ => None
  end.

(** The exact rational value of a finite binary64 number. *)
Definition to_Q (x : float) : option Q :=
  match units x with
  | Some u => Some (Qred (inject_Z u / inject_Z (2 ^ 1074)))
  | None => None
  end.

Fixpoint sum_units (l : list float) : option Z :=
  match l with
  | [] => Some 0%Z
  | x :: l' =>
      match units x, sum_units l' with
      | Some u, Some v => Some (u + v)%Z
      | _, _ => None
      end
  end.

(** [math.fsum]: the exact sum of the items, rounded once.  On finite
    items CPython returns the correctly rounded sum, and raises
    [OverflowError] when the sum overflows (it also does when a partial sum
    overflows, which this model does not track).  Infinities and NaNs are
    added up apart: their float sum is returned, unless the infinities
    cancel, which raises [ValueError]. *)
Definition is_finite (x : float) : bool :=
  negb (PrimFloat.is_nan x || PrimFloat.is_infinity x).

Definition fsum (l : list float) : result float :=
  match sum_units l with
  | Some u =>
      let r := SF2Prim (binary_normalize 53 1024 u (-1074) false) in
      if PrimFloat.is_infinity r
      then Raise (OverflowError "intermediate overflow in fsum")
      else Return r
  | None =>
      let inf_sum :=
        fold_left PrimFloat.add (filter PrimFloat.is_infinity l) 0%float in
      let special_sum :=
        fold_left PrimFloat.add (filter (fun x => negb (is_finite x)) l) 0%float in
      if PrimFloat.is_nan inf_sum
      then Raise (ValueError "-inf + inf in fsum")
      else Return special_sum
  end.

End F64.

#[export] Instance F64_Num : Num float := {
  lit := F64.of_Q;
  num_add := PrimFloat.add;
  num_sub := PrimFloat.sub;
  num_mul := PrimFloat.mul;
  num_div := PrimFloat.div;
  num_neg := PrimFloat.opp;
  num_abs := PrimFloat.abs;
  fsum := F64.fsum
}.

#[export] Instance F64_Sqrt : Sqrt float := {
  num_sqrt := PrimFloat.sqrt
}.

(** ** Arrays *)

(** numpy arrays are lists; a two-dimensional array is the list of its
    rows. *)
Section Arrays.
Context {F : Type} `{Num F}.

(** An [int] where a number is expected *)
Definition of_int (z : Z) : F := lit (inject_Z z).
Definition of_nat (k : nat) : F := of_int (Z.of_nat k).

(** [numpy.ones(k)] *)
Definition ones (k : nat) : list F := repeat (lit 1) k.

(** [c * v] for a scalar [c] and an array [v] *)
Definition scale (c : F) (v : list F) : list F :=
  map (fun x => (c * x)%num) v.

(** [numpy.concatenate] *)
Definition concatenate {A : Type} (l : list (list A)) : list A := concat l.

(** [a[:, j:]] *)
Definition columns_from (j : nat) (a : list (list F)) : list (list F) :=
  map (skipn j) a.

(** [a[:, js]], and [a.T[j]] as [column j a] *)
Definition pick (js : list nat) (row : list F) : result (list F) :=
  mapM (fun j => match nth_error row j with
                 | Some x => Return x
                 | None => Raise (IndexError "index out of bounds")
                 end) js.

Definition columns (js : list nat) (a : list (list F)) : result (list (list F)) :=
  mapM (pick js) a.

Definition column (j : nat) (a : list (list F)) : result (list F) :=
  mapM (fun row => match nth_error row j with
                   | Some x => Return x
                   | None => Raise (IndexError "index out of bounds")
                   end) a.

(** [x ** k] for a small literal [k] *)
Fixpoint num_pow (x : F) (k : nat) : F :=
  match k with
  | O => lit 1
  | S O => x
  | S k' => (x * num_pow x k')%num
  end.

(** Elementwise product of two one-dimensional arrays, with numpy's
    broadcasting of an array of length one. *)
Definition broadcast_mul (u v : list F) : result (list F) :=
  if (length u =? length v)%nat then
    Return (map (fun p => (fst p * snd p)%num) (combine u v))
  else match u, v with
       | [a], _ => Return (map (fun y => (a * y)%num) v)
       | _, [b] => Return (map (fun x => (x * b)%num) u)
       | _, _ => Raise (ValueError "operands could not be broadcast together")
       end.

End Arrays.

(** ** quadrature/tetrahedron.py *)

Section Tetrahedron.
Context {F : Type} `{Num F}.

(** *** The orbits *)

Definition _s4 : list (list F) :=
  [[lit 0.25; lit 0.25; lit 0.25; lit 0.25]].

Definition _s31 (a : F) : list (list F) :=
  let b := (lit 1.0 - lit 3 * a)%num in
  [[a; a; a; b];
   [a; a; b; a];
   [a; b; a; a];
   [b; a; a; a]].

Definition _s22 (a : F) : list (list F) :=
  let b := (lit 0.5 - a)%num in
  [[a; a; b; b];
   [a; b; a; b];
   [b; a; a; b];
   [a; b; b; a];
   [b; a; b; a];
   [b; b; a; a]].

Definition _s211 (a b : F) : list (list F) :=
  let c := (lit 1.0 - lit 2 * a - b)%num in
  [[a; a; b; c];
   [a; b; a; c];
   [b; a; a; c];
   [a; b; c; a];
   [b; a; c; a];
   [b; c; a; a];
   [a; a; c; b];
   [a; c; a; b];
   [c; a; a; b];
   [a; c; b; a];
   [c; a; b; a];
   [c; b; a; a]].

Definition _s1111 (a b c : F) : list (list F) :=
  let d := (lit 1.0 - a - b - c)%num in
  [[a; b; c; d];
   [a; b; d; c];
   [a; c; b; d];
   [a; c; d; b];
   [a; d; b; c];
   [a; d; c; b];
   [b; a; c; d];
   [b; a; d; c];
   [b; c; a; d];
   [b; c; d; a];
   [b; d; a; c];
   [b; d; c; a];
   [c; a; b; d];
   [c; a; d; b];
   [c; b; a; d];
   [c; b; d; a];
   [c; d; a; b];
   [c; d; b; a];
   [d; a; b; c];
   [d; a; c; b];
   [d; b; a; c];
   [d; b; c; a];
   [d; c; a; b];
   [d; c; b; a]].

(** *** Schemes *)

(** What a scheme object holds: [self.weights], [self.points] and
    [self.degree]. *)
Record Scheme : Type := mkScheme {
  weights : list F;
  points : list (list F);
  degree : Z
}.

(** *** The integrator *)

(** A tetrahedron is a [(4, 3)] array: four vertices in space. *)
Record Tetrahedron : Type := mkTetrahedron {
  vertex0 : F * F * F;
  vertex1 : F * F * F;
  vertex2 : F * F * F;
  vertex3 : F * F * F
}.

Definition coords (v : F * F * F) : list F :=
  let '(x, y, z) := v in [x; y; z].

(** [numpy.outer(v, w)] *)
Definition outer (v w : list F) : list (list F) :=
  map (fun vi => map (fun wj => (vi * wj)%num) w) v.

(** Elementwise [a + b] and [a - b] of arrays of one shape *)
Definition vadd (u v : list F) : list F :=
  map (fun p => (fst p + snd p)%num) (combine u v).

Definition vsub (u v : list F) : list F :=
  map (fun p => (fst p - snd p)%num) (combine u v).

Definition madd (a b : list (list F)) : list (list F) :=
  map (fun p => vadd (fst p) (snd p)) (combine a b).

(** [-numpy.outer(p, 1.0) + numpy.outer(q, 1.0)], a [(3, 1)] array, read as
    its three entries *)
Definition edge (p q : F * F * F) : F * F * F :=
  let '(p0, p1, p2) := p in
  let '(q0, q1, q2) := q in
  ((- (p0 * lit 1.0) + q0 * lit 1.0)%num,
   (- (p1 * lit 1.0) + q1 * lit 1.0)%num,
   (- (p2 * lit 1.0) + q2 * lit 1.0)%num).

(** The determinant [det] of [integrate], before it is scaled *)
Definition jacobian (tetrahedron : Tetrahedron) : F :=
  let '(J00, J01, J02) := edge (vertex0 tetrahedron) (vertex1 tetrahedron) in
  let '(J10, J11, J12) := edge (vertex0 tetrahedron) (vertex2 tetrahedron) in
  let '(J20, J21, J22) := edge (vertex0 tetrahedron) (vertex3 tetrahedron) in
  (J00 * J11 * J22 + J10 * J21 * J02 + J20 * J01 * J12
   - J02 * J11 * J20 - J12 * J21 * J00 - J22 * J01 * J10)%num.

(** The points [x] at which [integrate] evaluates the integrand: a
    [(3, npts)] array *)
Definition mapped_points (tetrahedron : Tetrahedron) (scheme : Scheme)
  : result (list (list F)) :=
  xi0 <- column 0 (points scheme) ;;
  xi1 <- column 1 (points scheme) ;;
  xi2 <- column 2 (points scheme) ;;
  let one := map (fun _ => lit 1.0) xi0 in
  Return
    (madd (madd (madd
       (outer (coords (vertex0 tetrahedron)) (vsub (vsub (vsub one xi0) xi1) xi2))
       (outer (coords (vertex1 tetrahedron)) xi0))
       (outer (coords (vertex2 tetrahedron)) xi1))
       (outer (coords (vertex3 tetrahedron)) xi2)).

Definition integrate (f : list (list F) -> list F)
           (tetrahedron : Tetrahedron) (scheme : Scheme) : result F :=
  x <- mapped_points tetrahedron scheme ;;
  let det := jacobian tetrahedron in
  let det := (det * (lit 1.0 / lit 6.0))%num in
  wf <- broadcast_mul (weights scheme) (f x) ;;
  fsum (map (fun t => (t * num_abs det)%num) wf).

(** *** Newton-Cotes *)

(** sympy's polynomials in [t[0]], ..., [t[3]], by their content: finitely
    many monomials, each with the exponents of the four variables and a
    coefficient; a product distributes and collects equal monomials.
    (sympy also drops the monomials whose coefficient is zero and orders
    the others; the weights below are sums over the monomials, which
    neither changes in exact arithmetic.) *)
Definition monomial : Type := (nat * nat * nat * nat)%type.
Definition poly : Type := list (monomial * F).

Definition monomial_mul (a b : monomial) : monomial :=
  let '(a0, a1, a2, a3) := a in
  let '(b0, b1, b2, b3) := b in
  (a0 + b0, a1 + b1, a2 + b2, a3 + b3)%nat.

Definition monomial_eqb (a b : monomial) : bool :=
  let '(a0, a1, a2, a3) := a in
  let '(b0, b1, b2, b3) := b in
  ((a0 =? b0) && (a1 =? b1) && (a2 =? b2) && (a3 =? b3))%nat.

Fixpoint add_term (m : monomial) (c : F) (p : poly) : poly :=
  match p with
  | [] => [(m, c)]
  | (m', c') :: p' =>
      if monomial_eqb m m' then (m', (c' + c)%num) :: p'
      else (m', c') :: add_term m c p'
  end.

Definition poly_mul (p q : poly) : poly :=
  fold_left
    (fun acc t =>
       fold_left
         (fun acc' t' =>
            add_term (monomial_mul (fst t) (fst t')) (snd t * snd t')%num acc')
         q acc)
    p [].

Definition poly_one : poly := [((0, 0, 0, 0)%nat, lit 1)].

(** [sympy.prod] *)
Definition poly_prod (l : list poly) : poly := fold_left poly_mul l poly_one.

(** The variable [t[v]] as a monomial *)
Definition var (v : nat) : monomial :=
  match v with
  | 0 => (1, 0, 0, 0)
  | 1 => (0, 1, 0, 0)
  | 2 => (0, 0, 1, 0)
  | _ => (0, 0, 0, 1)
  end%nat.

Section NewtonCotes.
Variable point_fun : nat -> nat -> F.

(** [sympy.poly((t - point_fun(k, n)) / (point_fun(m, n) - point_fun(k, n)))]
    for [t = t[v]] *)
Definition linear_factor (v m k n : nat) : poly :=
  let den := (point_fun m n - point_fun k n)%num in
  [(var v, (lit 1 / den)%num);
   ((0, 0, 0, 0)%nat, (- point_fun k n / den)%num)].

(** [get_poly(t[v], m, n)] *)
Definition get_poly (v m n : nat) : poly :=
  poly_prod (map (fun k => linear_factor v m k n) (seq 0 m)).

(** The integral of a monomial over the tetrahedron, times its
    coefficient: one summand of a weight *)
Definition monomial_integral (t : monomial * F) : F :=
  let '((m0, m1, m2, m3), c) := t in
  (c * of_nat (fact m0 * fact m1 * fact m2 * fact m3) * lit 6.0
   / of_nat (fact (m0 + m1 + m2 + m3 + 3)))%num.

(** [numpy.sum] of a list *)
Definition total (l : list F) : F := fold_left num_add l (lit 0).

(** The lattice [i + j + k + l = n], in the order of the loops *)
Definition lattice (n : nat) : list (nat * nat * nat * nat) :=
  flat_map (fun i =>
    flat_map (fun j =>
      map (fun k => (i, j, k, n - i - j - k)%nat)
          (seq 0 (n + 1 - i - j)))
      (seq 0 (n + 1 - i)))
    (seq 0 (n + 1)).

Definition _newton_cotes (n : nat)
  : result (list (list F) * list F * Z) :=
  let degree := Z.of_nat n in
  let idx := map (fun '(i, j, k, l) => [i; j; k; l]) (lattice n) in
  let bary := map (map (fun k => point_fun k n)) idx in
  points <- columns [1; 2; 3]%nat bary ;;
  if (n =? 0)%nat then
    let weights := ones 1 in
    Return (points, weights, degree)
  else
    let weights :=
      map (fun '(i, j, k, l) =>
             let g := poly_mul (poly_mul (poly_mul (get_poly 0 i n)
                                                   (get_poly 1 j n))
                                         (get_poly 2 k n))
                               (get_poly 3 l n) in
             total (map monomial_integral g))
          (lattice n) in
    Return (points, weights, degree).
End NewtonCotes.

(** [lambda k, n: k / float(n)] *)
Definition closed_point_fun (k n : nat) : F := (of_nat k / of_nat n)%num.

(** [lambda k, n: (k+1) / float(n+4)] *)
Definition open_point_fun (k n : nat) : F :=
  (of_nat (k + 1) / of_nat (n + 4))%num.

Definition NewtonCotesClosed (n : nat) : result Scheme :=
  '(points, weights, degree) <- _newton_cotes closed_point_fun n ;;
  Return (mkScheme weights points degree).

Definition NewtonCotesOpen (n : nat) : result Scheme :=
  '(points, weights, degree) <- _newton_cotes open_point_fun n ;;
  Return (mkScheme weights points degree).

(** *** The tabulated families *)

Definition Yu (index : Z) : result Scheme :=
  if (index =? 1)%Z then
    let weights :=
      (scale (lit 0.25) (ones 4))%num in
    let bary :=
      (_s31 (lit 0.138196601125015))%num in
    let degree := 2%Z in
    points <- columns [1; 2; 3] bary ;;
    Return (mkScheme weights points degree)
  else if (index =? 2)%Z then
    let weights :=
      (concatenate [
        scale (- lit 0.8) (ones 1);
        scale (lit 0.45) (ones 4)])%num in
    let bary :=
      (concatenate [
        _s4;
        _s31 (lit 1.0 / lit 6.0)])%num in
    let degree := 3%Z in
    points <- columns [1; 2; 3] bary ;;
    Return (mkScheme weights points degree)
  else if (index =? 3)%Z then
    let weights :=
      (concatenate [
        scale (lit 0.5037379410012282e-1) (ones 4);
        scale (lit 0.6654206863329239e-1) (ones 12)])%num in
    let bary :=
      (concatenate [
        _s31 (lit 0.7611903264425430e-1);
        _s211 (lit 0.4042339134672644) (lit 0.1197005277978019)])%num in
    let degree := 4%Z in
    points <- columns [1; 2; 3] bary ;;
    Return (mkScheme weights points degree)
  else if (index =? 4)%Z then
    let weights :=
      (concatenate [
        scale (lit 0.1884185567365411) (ones 1);
        scale (lit 0.6703858372604275e-1) (ones 4);
        scale (lit 0.4528559236327399e-1) (ones 12)])%num in
    let bary :=
      (concatenate [
        _s4;
        _s31 (lit 0.8945436401412733e-1);
        _s211 (lit 0.4214394310662522) (lit 0.1325810999384657)])%num in
    let degree := 5%Z in
    points <- columns [1; 2; 3] bary ;;
    Return (mkScheme weights points degree)
  else if (index =? 5)%Z then
    let weights :=
      (concatenate [
        scale (lit 0.9040129046014750e-1) (ones 1);
        scale (lit 0.1911983427899124e-1) (ones 4);
        scale (lit 0.4361493840666568e-1) (ones 12);
        scale (lit 0.2581167596199161e-1) (ones 12)])%num in
    let bary :=
      (concatenate [
        _s4;
        _s31 (lit 0.5742691731735682e-1);
        _s211 (lit 0.2312985436519147) (lit 0.5135188412556341e-1);
        _s211 (lit 0.4756909881472290e-1) (lit 0.2967538129690260)])%num in
    let degree := 6%Z in
    points <- columns [1; 2; 3] bary ;;
    Return (mkScheme weights points degree)
  else Raise (ValueError "Illegal closed Yu index").

Definition Keast (index : Z) : result Scheme :=
  if (index =? 0)%Z then
    let weights :=
      ([lit 1.0])%num in
    let bary :=
      (_s4)%num in
    let degree := 1%Z in
    let points := columns_from 1 bary in
    Return (mkScheme weights points degree)
  else if (index =? 1)%Z then
    let weights :=
      (scale (lit 0.25) (ones 4))%num in
    let bary :=
      (_s31 (lit 0.1381966011250105))%num in
    let degree := 2%Z in
    let points := columns_from 1 bary in
    Return (mkScheme weights points degree)
  else if (index =? 2)%Z then
    let weights :=
      (concatenate [
        scale (- lit 0.8) (ones 1);
        scale (lit 0.45) (ones 4)])%num in
    let bary :=
      (concatenate [
        _s4;
        _s31 (lit 1.0 / lit 6.0)])%num in
    let degree := 3%Z in
    let points := columns_from 1 bary in
    Return (mkScheme weights points degree)
  else if (index =? 3)%Z then
    let weights :=
      (concatenate [
        scale (lit 0.2177650698804054) (ones 4);
        scale (lit 0.0214899534130631) (ones 6)])%num in
    let bary :=
      (concatenate [
        _s31 (lit 0.1438564719343852);
        _s22 (lit 0.5)])%num in
    let degree := 3%Z in
    let points := columns_from 1 bary in
    Return (mkScheme weights points degree)
  else if (index =? 4)%Z then
    let weights :=
      (concatenate [
        scale ((- lit 148.0) / lit 1875.0) (ones 1);
        scale (lit 343.0 / lit 7500.0) (ones 4);
        scale (lit 56.0 / lit 375.0) (ones 6)])%num in
    let bary :=
      (concatenate [
        _s4;
        _s31 (lit 1.0 / lit 14.0);
        _s22 (lit 0.3994035761667992)])%num in
    let degree := 4%Z in
    let points := columns_from 1 bary in
    Return (mkScheme weights points degree)
  else if (index =? 5)%Z then
    let weights :=
      (concatenate [
        scale (lit 2.0 / lit 105.0) (ones 6);
        scale (lit 0.0885898247429807) (ones 4);
        scale (lit 0.1328387466855907) (ones 4)])%num in
    let bary :=
      (concatenate [
        _s22 (lit 0.5);
        _s31 (lit 0.1005267652252045);
        _s31 (lit 0.3143728734931922)])%num in
    let degree := 4%Z in
    let points := columns_from 1 bary in
    Return (mkScheme weights points degree)
  else if (index =? 6)%Z then
    let weights :=
      (concatenate [
        scale (lit 6544.0 / lit 36015.0) (ones 1);
        scale (lit 81.0 / lit 2240.0) (ones 4);
        scale (lit 161051.0 / lit 2304960.0) (ones 4);
        scale (lit 338.0 / lit 5145.0) (ones 6)])%num in
    let bary :=
      (concatenate [
        _s4;
        _s31 (lit 1.0 / lit 3.0);
        _s31 (lit 1.0 / lit 11.0);
        _s22 (lit 0.0665501535736643)])%num in
    let degree := 5%Z in
    let points := columns_from 1 bary in
    Return (mkScheme weights points degree)
  else if (index =? 7)%Z then
    let weights :=
      (concatenate [
        scale (lit 0.0399227502581679) (ones 4);
        scale (lit 0.0100772110553207) (ones 4);
        scale (lit 0.0553571815436544) (ones 4);
        scale (lit 27.0 / lit 560.0) (ones 12)])%num in
    let bary :=
      (concatenate [
        _s31 (lit 0.2146028712591517);
        _s31 (lit 0.0406739585346113);
        _s31 (lit 0.3223378901422757);
        _s211 (lit 0.0636610018750175) (lit 0.2696723314583159)])%num in
    let degree := 6%Z in
    let points := columns_from 1 bary in
    Return (mkScheme weights points degree)
  else if (index =? 8)%Z then
    let weights :=
      (concatenate [
        scale (lit 0.1095853407966528) (ones 1);
        scale (lit 0.0635996491464850) (ones 4);
        scale (- lit 0.3751064406859797) (ones 4);
        scale (lit 0.0293485515784412) (ones 4);
        scale (lit 0.0058201058201058) (ones 6);
        scale (lit 0.1653439153439105) (ones 12)])%num in
    let bary :=
      (concatenate [
        _s4;
        _s31 (lit 0.0782131923303186);
        _s31 (lit 0.1218432166639044);
        _s31 (lit 0.3325391644464206);
        _s22 (lit 0.5);
        _s211 (lit 0.1) (lit 0.2)])%num in
    let degree := 7%Z in
    let points := columns_from 1 bary in
    Return (mkScheme weights points degree)
  else if (index =? 9)%Z then
    let weights :=
      (concatenate [
        scale (- lit 0.2359620398477557) (ones 1);
        scale (lit 0.0244878963560562) (ones 4);
        scale (lit 0.0039485206398261) (ones 4);
        scale (lit 0.0263055529507371) (ones 6);
        scale (lit 0.0829803830550589) (ones 6);
        scale (lit 0.0254426245481023) (ones 12);
        scale (lit 0.0134324384376852) (ones 12)])%num in
    let bary :=
      (concatenate [
        _s4;
        _s31 (lit 0.1274709365666390);
        _s31 (lit 0.0320788303926323);
        _s22 (lit 0.0497770956432810);
        _s22 (lit 0.1837304473985499);
        _s211 (lit 0.2319010893971509) (lit 0.5132800333608811);
        _s211 (lit 0.0379700484718286) (lit 0.1937464752488044)])%num in
    let degree := 7%Z in
    let points := columns_from 1 bary in
    Return (mkScheme weights points degree)
  else if (index =? 10)%Z then
    let weights :=
      (scale (lit 6) (concatenate [
        scale (- lit 0.393270066412926145e-1) (ones 1);
        scale (lit 0.408131605934270525e-2) (ones 4);
        scale (lit 0.658086773304341943e-3) (ones 4);
        scale (lit 0.438425882512284693e-2) (ones 6);
        scale (lit 0.138300638425098166e-1) (ones 6);
        scale (lit 0.424043742468372453e-2) (ones 12);
        scale (lit 0.223873973961420164e-2) (ones 12)]))%num in
    let bary :=
      (concatenate [
        _s4;
        _s31 (lit 0.127470936566639015);
        _s31 (lit 0.320788303926322960e-1);
        _s22 (lit 0.497770956432810185e-1);
        _s22 (lit 0.183730447398549945);
        _s211 (lit 0.231901089397150906) (lit 0.229177878448171174e-1);
        _s211 (lit 0.379700484718286102e-1) (lit 0.730313427807538396)])%num in
    let degree := 8%Z in
    let points := columns_from 1 bary in
    Return (mkScheme weights points degree)
  else Raise (ValueError "Illegal Keast index").

Definition Zienkiewicz (index : Z) : result Scheme :=
  if (index =? 4)%Z then
    let weights :=
      (scale (lit 0.25) (ones 4))%num in
    let bary :=
      (_s31 (lit 0.1381966011250105))%num in
    let degree := 2%Z in
    points <- columns [1; 2; 3] bary ;;
    Return (mkScheme weights points degree)
  else if (index =? 5)%Z then
    let weights :=
      (concatenate [
        scale (- lit 0.8) (ones 1);
        scale (lit 0.45) (ones 4)])%num in
    let bary :=
      (concatenate [
        _s4;
        _s31 (lit 1.0 / lit 6.0)])%num in
    let degree := 3%Z in
    points <- columns [1; 2; 3] bary ;;
    Return (mkScheme weights points degree)
  else Raise (ValueError "Illegal closed Newton-Cotes index").

Definition ZhangCuiLiu (index : Z) : result Scheme :=
  if (index =? 1)%Z then
    let weights :=
      (concatenate [
        scale (lit 0.0063971477799023213214514203351730) (ones 4);
        scale (lit 0.0401904480209661724881611584798178) (ones 4);
        scale (lit 0.0243079755047703211748691087719226) (ones 4);
        scale (lit 0.0548588924136974404669241239903914) (ones 4);
        scale (lit 0.0357196122340991824649509689966176) (ones 6);
        scale (lit 0.0071831906978525394094511052198038) (ones 12);
        scale (lit 0.0163721819453191175409381397561191) (ones 12)])%num in
    let bary :=
      (concatenate [
        _s31 (lit 0.0396754230703899012650713295393895);
        _s31 (lit 0.3144878006980963137841605626971483);
        _s31 (lit 0.1019866930627033000000000000000000);
        _s31 (lit 0.1842036969491915122759464173489092);
        _s22 (lit 0.0634362877545398924051412387018983);
        _s211 (lit 0.0216901620677280048026624826249302) (lit 0.7199319220394659358894349533527348);
        _s211 (lit 0.2044800806367957142413355748727453) (lit 0.5805771901288092241753981713906204)])%num in
    let degree := 8%Z in
    points <- columns [1; 2; 3] bary ;;
    Return (mkScheme weights points degree)
  else if (index =? 2)%Z then
    let weights :=
      (concatenate [
        scale (lit 0.0040651136652707670436208836835636) (ones 4);
        scale (lit 0.0022145385334455781437599569500071) (ones 4);
        scale (lit 0.0058134382678884505495373338821455) (ones 4);
        scale (lit 0.0196255433858357215975623333961715) (ones 4);
        scale (lit 0.0003875737905908214364538721248394) (ones 4);
        scale (lit 0.0116429719721770369855213401005552) (ones 12);
        scale (lit 0.0052890429882817131317736883052856) (ones 12);
        scale (lit 0.0018310854163600559376697823488069) (ones 12);
        scale (lit 0.0082496473772146452067449669173660) (ones 12);
        scale (lit 0.0030099245347082451376888748208987) (ones 24);
        scale (lit 0.0008047165617367534636261808760312) (ones 24);
        scale (lit 0.0029850412588493071187655692883922) (ones 24);
        scale (lit 0.0056896002418760766963361477811973) (ones 24);
        scale (lit 0.0041590865878545715670013980182613) (ones 24);
        scale (lit 0.0007282389204572724356136429745654) (ones 24);
        scale (lit 0.0054326500769958248216242340651926) (ones 24)])%num in
    let bary :=
      (concatenate [
        _s31 (lit 0.3272533625238485639093096692685289);
        _s31 (lit 0.0447613044666850808837942096478842);
        _s31 (lit 0.0861403311024363536537208740298857);
        _s31 (lit 0.2087626425004322968265357083976176);
        _s31 (lit 0.0141049738029209600635879152102928);
        _s211 (lit 0.1021653241807768123476692526982584) (lit 0.5739463675943338202814002893460107);
        _s211 (lit 0.4075700516600107157213295651301783) (lit 0.0922278701390201300000000000000000);
        _s211 (lit 0.0156640007402803585557586709578084) (lit 0.7012810959589440327139967673208426);
        _s211 (lit 0.2254963562525029053780724154201103) (lit 0.4769063974420887115860583354107011);
        _s1111 (lit 0.3905984281281458000000000000000000) (lit 0.2013590544123922168123077327235092) (lit 0.0161122880710300298578026931548371);
        _s1111 (lit 0.1061350679989021455556139029848079) (lit 0.0327358186817269284944004077912660) (lit 0.0035979076537271666907971523385925);
        _s1111 (lit 0.5636383731697743896896816630648502) (lit 0.2302920722300657454502526874135652) (lit 0.1907199341743551862712487790637898);
        _s1111 (lit 0.3676255095325860844092206775991167) (lit 0.2078851380230044950717102125250735) (lit 0.3312104885193449000000000000000000);
        _s1111 (lit 0.7192323689817295295023401840796991) (lit 0.1763279118019329762157993033636973) (lit 0.0207602362571310090754973440611644);
        _s1111 (lit 0.5278249952152987298409240075817276) (lit 0.4372890892203418165526238760841918) (lit 0.0092201651856641949463177554949220);
        _s1111 (lit 0.5483674544948190728994910505607746) (lit 0.3447815506171641228703671870920331) (lit 0.0867217283322215394629438740085828)])%num in
    let degree := 14%Z in
    points <- columns [1; 2; 3] bary ;;
    Return (mkScheme weights points degree)
  else Raise (ValueError "Illegal Zhang index").

Definition ShunnHam (index : Z) : result Scheme :=
  if (index =? 1)%Z then
    let weights :=
      ([lit 1.0])%num in
    let bary :=
      (_s4)%num in
    let degree := 1%Z in
    let points := columns_from 1 bary in
    Return (mkScheme weights points degree)
  else if (index =? 2)%Z then
    let weights :=
      (scale (lit 0.25) (ones 4))%num in
    let bary :=
      (_s31 (lit 0.1381966011250110))%num in
    let degree := 2%Z in
    let points := columns_from 1 bary in
    Return (mkScheme weights points degree)
  else if (index =? 3)%Z then
    let weights :=
      (concatenate [
        scale (lit 0.0476331348432089) (ones 4);
        scale (lit 0.1349112434378610) (ones 6)])%num in
    let bary :=
      (concatenate [
        _s31 (lit 0.0738349017262234);
        _s22 (lit 0.0937556561159491)])%num in
    let degree := 3%Z in
    let points := columns_from 1 bary in
    Return (mkScheme weights points degree)
  else if (index =? 4)%Z then
    let weights :=
      (concatenate [
        scale (lit 0.0070670747944695) (ones 4);
        scale (lit 0.0469986689718877) (ones 12);
        scale (lit 0.1019369182898680) (ones 4)])%num in
    let bary :=
      (concatenate [
        _s31 (lit 0.0323525947272439);
        _s211 (lit 0.0603604415251421) (lit 0.2626825838877790);
        _s31 (lit 0.3097693042728620)])%num in
    let degree := 5%Z in
    let points := columns_from 1 bary in
    Return (mkScheme weights points degree)
  else if (index =? 5)%Z then
    let weights :=
      (concatenate [
        scale (lit 0.0021900463965388) (ones 4);
        scale (lit 0.0143395670177665) (ones 12);
        scale (lit 0.0250305395686746) (ones 6);
        scale (lit 0.0479839333057554) (ones 12);
        scale (lit 0.0931745731195340) (ones 1)])%num in
    let bary :=
      (concatenate [
        _s31 (lit 0.0267367755543735);
        _s211 (lit 0.0391022406356488) (lit 0.7477598884818090);
        _s22 (lit 0.0452454000155172);
        _s211 (lit 0.2232010379623150) (lit 0.0504792790607720);
        [[lit 0.25; lit 0.25; lit 0.25; lit 0.25]]])%num in
    let degree := 6%Z in
    let points := columns_from 1 bary in
    Return (mkScheme weights points degree)
  else if (index =? 6)%Z then
    let weights :=
      (concatenate [
        scale (lit 0.0010373112336140) (ones 4);
        scale (lit 0.0096016645399480) (ones 12);
        scale (lit 0.0164493976798232) (ones 12);
        scale (lit 0.0153747766513310) (ones 12);
        scale (lit 0.0293520118375230) (ones 12);
        scale (lit 0.0366291366405108) (ones 4)])%num in
    let bary :=
      (concatenate [
        _s31 (lit 0.0149520651530592);
        _s211 (lit 0.0340960211962615) (lit 0.1518319491659370);
        _s211 (lit 0.0462051504150017) (lit 0.5526556431060170);
        _s211 (lit 0.2281904610687610) (lit 0.0055147549744775);
        _s211 (lit 0.3523052600879940) (lit 0.0992057202494530);
        _s31 (lit 0.1344783347929940)])%num in
    let degree := 7%Z in
    let points := columns_from 1 bary in
    Return (mkScheme weights points degree)
  else Raise (ValueError "Illegal Shunn-Ham index").

End Tetrahedron.

(** The families whose tables call [numpy.sqrt], [numpy.cos] and
    [numpy.arccos]. *)
Section TetrahedronElementary.
Context {F : Type} `{Num F} `{Sqrt F} `{Trig F}.

(** [HammerMarloweStroud._r] *)
Definition _r (r : F) : list (list F) :=
  let a := (r + (lit 1.0 - r) / lit 4.0)%num in
  let b := ((lit 1.0 - a) / lit 3.0)%num in
  [[a; b; b; b];
   [b; a; b; b];
   [b; b; a; b];
   [b; b; b; a]].

Definition HammerMarloweStroud (index : Z) : result Scheme :=
  if (index =? 1)%Z then
    let weights :=
      (concatenate [
        scale (lit 0.25) (ones 4)])%num in
    let bary :=
      (concatenate [
        _r (lit 1.0 / num_sqrt (lit 5.0))])%num in
    let degree := 2%Z in
    let points := columns_from 1 bary in
    Return (mkScheme weights points degree)
  else if (index =? 2)%Z then
    let weights :=
      (concatenate [
        scale (lit 0.25) (ones 4)])%num in
    let bary :=
      (concatenate [
        _r ((- lit 1.0) / num_sqrt (lit 5.0))])%num in
    let degree := 2%Z in
    let points := columns_from 1 bary in
    Return (mkScheme weights points degree)
  else if (index =? 3)%Z then
    let weights :=
      (concatenate [
        scale (- lit 0.8) (ones 1);
        scale (lit 9.0 / lit 20.0) (ones 4)])%num in
    let bary :=
      (concatenate [
        _s4;
        _r (lit 1.0 / lit 3.0)])%num in
    let degree := 3%Z in
    let points := columns_from 1 bary in
    Return (mkScheme weights points degree)
  else Raise (ValueError "Illegal Hammer-Marlowe-Stroud index").

(** [LiuVinokur._r_alpha] *)
Definition _r_alpha (alpha : F) : list (list F) :=
  let a := ((lit 1.0 + lit 3 * alpha) / lit 4.0)%num in
  let b := ((lit 1.0 - alpha) / lit 4.0)%num in
  [[a; b; b; b];
   [b; a; b; b];
   [b; b; a; b];
   [b; b; b; a]].

(** [LiuVinokur._r_beta] *)
Definition _r_beta (beta : F) : list (list F) :=
  let a := ((lit 1.0 + lit 2 * beta) / lit 4.0)%num in
  let b := ((lit 1.0 - lit 2 * beta) / lit 4.0)%num in
  [[a; a; b; b];
   [a; b; a; b];
   [b; a; a; b];
   [a; b; b; a];
   [b; a; b; a];
   [b; b; a; a]].

(** [LiuVinokur._r_gamma_delta] *)
Definition _r_gamma_delta (gamma delta : F) : list (list F) :=
  let b := ((lit 1.0 + lit 3 * gamma - delta) / lit 4.0)%num in
  let c := ((lit 1.0 + lit 3 * delta - gamma) / lit 4.0)%num in
  let a := ((lit 1.0 - gamma - delta) / lit 4.0)%num in
  [[a; a; b; c];
   [a; b; a; c];
   [b; a; a; c];
   [a; b; c; a];
   [b; a; c; a];
   [b; c; a; a];
   [a; a; c; b];
   [a; c; a; b];
   [c; a; a; b];
   [a; c; b; a];
   [c; a; b; a];
   [c; b; a; a]].

Definition LiuVinokur (index : Z) : result Scheme :=
  if (index =? 1)%Z then
    let weights :=
      (concatenate [
        scale (lit 1.0) (ones 1)])%num in
    let bary :=
      (concatenate [
        _s4])%num in
    let degree := 1%Z in
    let points := columns_from 1 bary in
    Return (mkScheme weights points degree)
  else if (index =? 2)%Z then
    let weights :=
      (concatenate [
        scale (lit 0.25) (ones 4)])%num in
    let bary :=
      (concatenate [
        _r_alpha (lit 1.0)])%num in
    let degree := 1%Z in
    let points := columns_from 1 bary in
    Return (mkScheme weights points degree)
  else if (index =? 3)%Z then
    let weights :=
      (concatenate [
        scale (lit 0.25) (ones 4)])%num in
    let bary :=
      (concatenate [
        _r_alpha (lit 1.0 / num_sqrt (lit 5.0))])%num in
    let degree := 2%Z in
    let points := columns_from 1 bary in
    Return (mkScheme weights points degree)
  else if (index =? 4)%Z then
    let weights :=
      (concatenate [
        scale (lit 0.8) (ones 1);
        scale (lit 0.05) (ones 4)])%num in
    let bary :=
      (concatenate [
        _s4;
        _r_alpha (lit 1.0)])%num in
    let degree := 2%Z in
    let points := columns_from 1 bary in
    Return (mkScheme weights points degree)
  else if (index =? 5)%Z then
    let weights :=
      (concatenate [
        scale (- lit 0.8) (ones 1);
        scale (lit 0.45) (ones 4)])%num in
    let bary :=
      (concatenate [
        _s4;
        _r_alpha (lit 1.0 / lit 3.0)])%num in
    let degree := 3%Z in
    let points := columns_from 1 bary in
    Return (mkScheme weights points degree)
  else if (index =? 6)%Z then
    let weights :=
      (concatenate [
        scale (lit 1.0 / lit 40.0) (ones 4);
        scale (lit 9.0 / lit 40.0) (ones 4)])%num in
    let bary :=
      (concatenate [
        _r_alpha (lit 1.0);
        _r_alpha ((- lit 1.0) / lit 3.0)])%num in
    let degree := 3%Z in
    let points := columns_from 1 bary in
    Return (mkScheme weights points degree)
  else if (index =? 7)%Z then
    let weights :=
      (concatenate [
        scale ((- lit 148.0) / lit 1875.0) (ones 1);
        scale (lit 343.0 / lit 7500.0) (ones 4);
        scale (lit 56.0 / lit 375.0) (ones 6)])%num in
    let bary :=
      (concatenate [
        _s4;
        _r_alpha (lit 5.0 / lit 7.0);
        _r_beta (num_sqrt (lit 70.0) / lit 28.0)])%num in
    let degree := 4%Z in
    let points := columns_from 1 bary in
    Return (mkScheme weights points degree)
  else if (index =? 8)%Z then
    let alpha1 :=
      (((num_sqrt (lit 65944.0 - (lit 19446 * num_sqrt (lit 11))) + (lit 51 * num_sqrt (lit 11))) - lit 154.0) / lit 89.0)%num in
    let alpha2 :=
      ((((- num_sqrt (lit 65944.0 - (lit 19446 * num_sqrt (lit 11)))) + (lit 51 * num_sqrt (lit 11))) - lit 154.0) / lit 89.0)%num in
    let weights :=
      (concatenate [
        scale (((lit 17 * alpha2) - lit 7.0) / ((lit 420.0 * num_pow alpha1 2) * (alpha2 - alpha1))) (ones 4);
        scale (((lit 17 * alpha1) - lit 7.0) / ((lit 420.0 * num_pow alpha2 2) * (alpha1 - alpha2))) (ones 4);
        scale (lit 2.0 / lit 105.0) (ones 6)])%num in
    let bary :=
      (concatenate [
        _r_alpha alpha1;
        _r_alpha alpha2;
        _r_beta (lit 0.5)])%num in
    let degree := 4%Z in
    let points := columns_from 1 bary in
    Return (mkScheme weights points degree)
  else if (index =? 9)%Z then
    let weights :=
      (concatenate [
        scale ((- lit 32.0) / lit 15.0) (ones 1);
        scale (lit 3.0 / lit 280.0) (ones 4);
        scale (lit 125.0 / lit 168.0) (ones 4);
        scale (lit 2.0 / lit 105.0) (ones 6)])%num in
    let bary :=
      (concatenate [
        _s4;
        _r_alpha (lit 1);
        _r_alpha (lit 0.2);
        _r_beta (lit 0.5)])%num in
    let degree := 4%Z in
    let points := columns_from 1 bary in
    Return (mkScheme weights points degree)
  else if (index =? 10)%Z then
    let weights :=
      (concatenate [
        scale (lit 32.0 / lit 105.0) (ones 1);
        scale ((- lit 31.0) / lit 840.0) (ones 4);
        scale (lit 27.0 / lit 280.0) (ones 4);
        scale (lit 4.0 / lit 105.0) (ones 12)])%num in
    let bary :=
      (concatenate [
        _s4;
        _r_alpha (lit 1);
        _r_alpha ((- lit 1.0) / lit 3.0);
        _r_gamma_delta ((lit 2 + num_sqrt (lit 2.0)) / lit 4.0) ((lit 2 - num_sqrt (lit 2.0)) / lit 4.0)])%num in
    let degree := 4%Z in
    let points := columns_from 1 bary in
    Return (mkScheme weights points degree)
  else if (index =? 11)%Z then
    let weights :=
      (concatenate [
        scale ((lit 11.0 - (lit 4 * num_sqrt (lit 2.0))) / lit 840.0) (ones 4);
        scale ((lit 243.0 - (lit 108 * num_sqrt (lit 2.0))) / lit 1960.0) (ones 4);
        scale ((lit 62.0 + (lit 44 * num_sqrt (lit 2.0))) / lit 735.0) (ones 4);
        scale (lit 2.0 / lit 105.0) (ones 6)])%num in
    let bary :=
      (concatenate [
        _r_alpha (lit 1);
        _r_alpha ((- lit 1.0) / lit 3.0);
        _r_alpha (num_sqrt (lit 2.0) - lit 1.0);
        _r_beta (lit 0.5)])%num in
    let degree := 4%Z in
    let points := columns_from 1 bary in
    Return (mkScheme weights points degree)
  else if (index =? 12)%Z then
    let lmbda :=
      ((lit 4.0 / lit 27.0) * (((lit 4.0 * num_sqrt (lit 79.0)) * num_cos ((num_arccos ((lit 67 * num_sqrt (lit 79.0)) / lit 24964.0) + (lit 2 * num_pi)) / lit 3.0)) + lit 71.0))%num in
    let alpha1 :=
      (((num_sqrt (((lit 9 * num_pow lmbda 2) - (lit 248 * lmbda)) + lit 1680) + lit 28.0) - (lit 3 * lmbda)) / (lit 112.0 - (lit 10 * lmbda)))%num in
    let alpha2 :=
      ((((- num_sqrt (((lit 9 * num_pow lmbda 2) - (lit 248 * lmbda)) + lit 1680)) + lit 28.0) - (lit 3 * lmbda)) / (lit 112.0 - (lit 10 * lmbda)))%num in
    let w1 :=
      ((((lit 21.0 - lmbda) * alpha2) - lit 7.0) / ((lit 420.0 * num_pow alpha1 2) * (alpha2 - alpha1)))%num in
    let w2 :=
      ((((lit 21.0 - lmbda) * alpha1) - lit 7.0) / ((lit 420.0 * num_pow alpha2 2) * (alpha1 - alpha2)))%num in
    let weights :=
      (concatenate [
        scale w1 (ones 4);
        scale w2 (ones 4);
        scale (num_pow lmbda 2 / lit 840.0) (ones 6)])%num in
    let bary :=
      (concatenate [
        _r_alpha alpha1;
        _r_alpha alpha2;
        _r_beta (lit 1.0 / num_sqrt lmbda)])%num in
    let degree := 5%Z in
    let points := columns_from 1 bary in
    Return (mkScheme weights points degree)
  else if (index =? 13)%Z then
    let weights :=
      (concatenate [
        scale ((- lit 16.0) / lit 21.0) (ones 1);
        scale ((lit 2249.0 - (lit 391.0 * num_sqrt (lit 13.0))) / lit 10920.0) (ones 4);
        scale ((lit 2249.0 + (lit 391.0 * num_sqrt (lit 13.0))) / lit 10920.0) (ones 4);
        scale (lit 2.0 / lit 105.0) (ones 6)])%num in
    let bary :=
      (concatenate [
        _s4;
        _r_alpha ((lit 2.0 + num_sqrt (lit 13.0)) / lit 9.0);
        _r_alpha ((lit 2.0 - num_sqrt (lit 13.0)) / lit 9.0);
        _r_beta (lit 0.5)])%num in
    let degree := 5%Z in
    let points := columns_from 1 bary in
    Return (mkScheme weights points degree)
  else if (index =? 14)%Z then
    let weights :=
      (concatenate [
        scale (lit 16.0 / lit 105.0) (ones 1);
        scale (lit 1.0 / lit 280.0) (ones 4);
        scale (lit 81.0 / lit 1400.0) (ones 4);
        scale (lit 64.0 / lit 525.0) (ones 4);
        scale (lit 2.0 / lit 105.0) (ones 6)])%num in
    let bary :=
      (concatenate [
        _s4;
        _r_alpha (lit 1.0);
        _r_alpha ((- lit 1.0) / lit 3.0);
        _r_alpha (lit 0.5);
        _r_beta (lit 0.5)])%num in
    let degree := 5%Z in
    let points := columns_from 1 bary in
    Return (mkScheme weights points degree)
  else Raise (ValueError "Illegal Liu-Vinokur index").

End TetrahedronElementary.

(** ** quadpy/ncube/_stroud_1957.py *)

Module NCube.
Section NCube.
Context {F : Type} `{Num F} `{Sqrt F} `{Trig F}.

(** [helpers.article]: the citation a scheme carries along. *)
Record Article : Type := article {
authors : list string;
title : string;
journal : string;
volume : string;
number : string;
month : string;
year : string;
pages : string;
url : string
}.

Definition _citation : Article :=
article ["A.H. Stroud"]
  "Remarks on the Disposition of Points in Numerical Integration Formulas"
  "Mathematical Tables and Other Aids to Computation"
  "11" "60" "oct" "1957" "257-261"
  "https://doi.org/10.2307/2001945".

(** [_helpers.NCubeScheme(name, dim, weights, points, degree, citation)] *)
Record NCubeScheme : Type := mkNCubeScheme {
name : string;
dim : nat;
weights : list F;
points : list (list F);
degree : Z;
citation : Article
}.

(** The weight of a group: one scalar for all its points, or one weight
  per point. *)
Inductive weight_spec : Type :=
| Broadcast (w : F)
| PerPoint (ws : list F).

(** Modelled from the spec: [helpers.untangle] is not among the sources.
  Section 4.3: the input is an ordered sequence of (weight-spec,
point-array) pairs; the output is the two flat arrays (points,
weights), concatenated in input order, a scalar weight repeated once
per point of its group; it fails with [ShapeMismatch] when a per-point
weight array and its point array differ in length. *)
Definition untangle (data : list (weight_spec * list (list F)))
: result (list (list F) * list F) :=
ws <- mapM (fun g =>
            match fst g with
            | Broadcast w => Return (repeat w (length (snd g)))
            | PerPoint l =>
                if (length l =? length (snd g))%nat then Return l
                else Raise (ShapeMismatch "weights and points differ in length")
            end) data ;;
Return (concat (map snd data), concat ws).

(** [numpy.vstack]: the blocks' rows, one below the other. *)
Definition vstack (blocks : list (list (list F))) : result (list (list F)) :=
match blocks with
| [] => Raise (ValueError "need at least one array to concatenate")
| _ => Return (concat blocks)
end.

(** [a.T] of a two-dimensional array *)
Fixpoint transpose (a : list (list F)) : list (list F) :=
match a with
| [] => []
| [r] => map (fun x => [x]) r
| r :: a' => map (fun p => fst p :: snd p) (combine r (transpose a'))
end.

(** [v[1::2] *= c] *)
Fixpoint imul_odd (c : F) (v : list F) : list F :=
match v with
| x :: y :: v' => x :: (y * c)%num :: imul_odd c v'
| _ => v
end.

(** [weights *= reference_volume] *)
Definition rescale (weights : list F) (reference_volume : Z) : list F :=
map (fun w => (w * of_int reference_volume)%num) weights.

(** [_helpers._s] is not among the sources: the orbit of the points of an
n-cube that it returns is a parameter of the scheme. *)
Variable _s : nat -> F -> F -> list (list F).

Definition stroud_1957_2 (n : nat) : result NCubeScheme :=
let r := (num_sqrt (lit 3) / lit 6)%num in
let data :=
[(Broadcast (lit 1.0), [repeat (lit 2 * r)%num n]);
 (Broadcast r, _s n (- lit 1)%num r);
 (Broadcast (- r)%num, _s n (lit 1) r)] in
'(points, weights) <- untangle data ;;
let reference_volume := (2 ^ Z.of_nat n)%Z in
let weights := rescale weights reference_volume in
Return (mkNCubeScheme "Stroud 1957-2" n weights points 2 _citation).

Definition stroud_1957_3 (n : nat) : result NCubeScheme :=
let frac := fun x y : Z => (of_int x / of_int y)%num in
let n2 := if (n mod 2 =? 0)%nat then (n / 2)%nat else ((n - 1) / 2)%nat in
let i_range := seq 1 (2 * n) in
let pts :=
map (fun k =>
       [map (fun i => (num_sqrt (frac 2%Z 3%Z)
                       * num_cos (of_nat ((2 * k - 1) * i) * num_pi / of_nat n))%num)
            i_range;
        map (fun i => (num_sqrt (frac 2%Z 3%Z)
                       * num_sin (of_nat ((2 * k - 1) * i) * num_pi / of_nat n))%num)
            i_range])
    (seq 1 n2) in
let pts :=
if (n mod 2 =? 1)%nat then
  let sqrt3pm := repeat (lit 1 / num_sqrt (lit 3))%num (2 * n) in
  let sqrt3pm := imul_odd (- lit 1)%num sqrt3pm in
  pts ++ [[sqrt3pm]]
else pts in
pts <- vstack pts ;;
let pts := transpose pts in
let data := [(Broadcast (frac 1%Z (Z.of_nat (2 * n))), pts)] in
'(points, weights) <- untangle data ;;
let reference_volume := (2 ^ Z.of_nat n)%Z in
let weights := rescale weights reference_volume in
Return (mkNCubeScheme "Stroud 1957-3" n weights points 3 _citation).

End NCube.
End NCube.

(** ** Vocabulary of the statements *)

(** The sum of a list of reals. *)
Definition sumR (l : list R) : R := fold_right Rplus 0%R l.

(** The edge vector from [p] to [q]. *)
Definition difference (p q : R * R * R) : R * R * R :=
  let '(p0, p1, p2) := p in
  let '(q0, q1, q2) := q in
  (q0 - p0, q1 - p1, q2 - p2)%R.

(** The determinant of the matrix of three vectors, expanded along the
    first one. *)
Definition det3 (u v w : R * R * R) : R :=
  let '(u0, u1, u2) := u in
  let '(v0, v1, v2) := v in
  let '(w0, w1, w2) := w in
  (u0 * (v1 * w2 - v2 * w1)
   - u1 * (v0 * w2 - v2 * w0)
   + u2 * (v0 * w1 - v1 * w0))%R.

(** The determinant of the edge vectors of a tetrahedron at its first
    vertex; it is zero exactly when the four vertices are coplanar. *)
Definition edge_determinant (t : Tetrahedron (F:=R)) : R :=
  det3 (difference (vertex0 t) (vertex1 t))
       (difference (vertex0 t) (vertex2 t))
       (difference (vertex0 t) (vertex3 t)).

(** The volume of a tetrahedron. *)
Definition volume (t : Tetrahedron (F:=R)) : R :=
  (Rabs (edge_determinant t) / 6)%R.

(** The reference tetrahedron. *)
Definition reference_tetrahedron : Tetrahedron (F:=R) :=
  mkTetrahedron (0, 0, 0)%R (1, 0, 0)%R (0, 1, 0)%R (0, 0, 1)%R.

(** The integrand [1], as [show] passes it to [integrate]: [numpy.ones(1)]. *)
Definition integrand_one {F : Type} `{Num F} : list (list F) -> list F :=
  fun _ => ones 1.

(** The integrand [f(x, y, z) = x]: the first row of the array of points. *)
Definition integrand_x {F : Type} : list (list F) -> list F :=
  fun x => nth 0 x [].

(** The weights of a scheme add up to [v], up to the tolerance [tol]. *)
Definition weights_sum_to (v tol : R) (s : Scheme (F:=R)) : Prop :=
  (Rabs (sumR (weights s) - v) <= tol)%R.

(** The tolerance of the tabulated weights: [2.5e-15]. *)
Definition table_tolerance : R := (1 / 400000000000000)%R.

(** The point of index [i] (from 1) of the degree-3 scheme of the n-cube:
    a pair of coordinates, cosine and sine, for each of the [n / 2] planes,
    and for odd [n] one more coordinate, [1 / sqrt 3] with the sign
    alternating from point to point. *)
Definition stroud_1957_3_point (n i : nat) : list R :=
  flat_map
    (fun k =>
       [(sqrt (2 / 3) * cos (INR ((2 * k - 1) * i) * PI / INR n))%R;
        (sqrt (2 / 3) * sin (INR ((2 * k - 1) * i) * PI / INR n))%R])
    (seq 1 (n / 2))
  ++ (if Nat.odd n
      then [if Nat.even i then (- (1 / sqrt 3))%R else (1 / sqrt 3)%R]
      else []).

(** The rows that [stroud_1957_3] stacks, at the reals. *)
Definition stroud_1957_3_rows (n : nat) : list (list R) :=
  concat
    (map (fun k =>
            [map (fun i => (num_sqrt (of_int 2 / of_int 3)
                            * num_cos (of_nat ((2 * k - 1) * i) * num_pi / of_nat n))%num)
                 (seq 1 (2 * n));
             map (fun i => (num_sqrt (of_int 2 / of_int 3)
                            * num_sin (of_nat ((2 * k - 1) * i) * num_pi / of_nat n))%num)
                 (seq 1 (2 * n))])
         (seq 1 (n / 2)))
  ++ (if Nat.odd n
      then [NCube.imul_odd (- lit 1)%num
              (repeat (lit 1 / num_sqrt (lit 3))%num (2 * n))]
      else []).

(** An orbit that the parameter [_s] of [stroud_1957_2] can stand for: the
    [n] points with one coordinate [a] and the others [b]. *)
Definition one_coordinate_orbit {F : Type} (n : nat) (a b : F) : list (list F) :=
  map (fun i => map (fun j => if (i =? j)%nat then a else b) (seq 0 n))
      (seq 0 n).

(** *** Operators on the moments of the tetrahedron *)

(** Pointwise operations on the real functions on a type. *)
Definition fadd {T : Type} (a b : T -> R) : T -> R := fun m => (a m + b m)%R.
Definition fsub {T : Type} (a b : T -> R) : T -> R := fun m => (a m - b m)%R.
Definition fscale {T : Type} (s : R) (a : T -> R) : T -> R := fun m => (s * a m)%R.

(** The sum of the functions [f 0], ..., [f N]. *)
Definition fsum_upto {T : Type} (f : nat -> T -> R) (N : nat) : T -> R :=
  fun m => sumR (map (fun j => f j m) (seq 0 (S N))).

(** A linear operator on functions. *)
Definition linear {T : Type} (U : (T -> R) -> (T -> R)) : Prop :=
  (forall a b, U (fadd a b) = fadd (U a) (U b))
  /\ (forall s a, U (fscale s a) = fscale s (U a)).

(** [U - k] *)
Definition lower {T : Type} (U : (T -> R) -> (T -> R)) (k : nat) : (T -> R) -> (T -> R) :=
  fun J => fsub (U J) (fscale (INR k) J).

(** [U (U - 1) ... (U - (N - 1))], the falling factorial of an operator *)
Definition falling {T : Type} (U : (T -> R) -> (T -> R)) (N : nat) : (T -> R) -> (T -> R) :=
  fun J => fold_right (fun k acc => lower U k acc) J (seq 0 N).

(** The falling factorial over [N!]: the binomial coefficient *)
Definition binom {T : Type} (U : (T -> R) -> (T -> R)) (N : nat) : (T -> R) -> (T -> R) :=
  fun J => fscale (/ INR (fact N)) (falling U N J).

Definition oplus {T : Type} (U V : (T -> R) -> (T -> R)) : (T -> R) -> (T -> R) :=
  fun J => fadd (U J) (V J).


(** A polynomial acts on the real functions on the monomials: the monomial
    [t^a] shifts the argument by [a]. *)
Definition act (P : poly (F:=R)) (J : monomial -> R) : monomial -> R :=
  fun m => sumR (map (fun t => (snd t * J (monomial_mul (fst t) m))%R) P).

(** The action of the variable [t[v]]. *)
Definition shift (v : nat) (J : monomial -> R) : monomial -> R :=
  fun m => J (monomial_mul (var v) m).

(** The integral of a monomial over the reference tetrahedron, over the
    volume of the tetrahedron. *)
Definition simplex_moment (m : monomial) : R :=
  let '(m0, m1, m2, m3) := m in
  (INR (fact m0 * fact m1 * fact m2 * fact m3) * 6
   / INR (fact (m0 + m1 + m2 + m3 + 3)))%R.

(** The operator [c t[v] - d]. *)
Definition node (c d : R) (v : nat) (J : monomial -> R) : monomial -> R :=
  fsub (fscale c (shift v J)) (fscale d J).


(** The product of a list of reals. *)
Definition prodR (l : list R) : R := fold_right Rmult 1%R l.


(** The sum of the four node operators. *)
Definition all_nodes (c d : R) : (monomial -> R) -> monomial -> R :=
  oplus (node c d 0) (oplus (node c d 1) (oplus (node c d 2) (node c d 3))).

(** ** Vocabulary of the further properties *)

(** A scheme that [integrate] can use: one weight per point, and points in
    space. *)
Definition well_shaped {F : Type} (s : Scheme (F:=F)) : Prop :=
  length (weights s) = length (points s)
  /\ Forall (fun p => length p = 3%nat) (points s).

(** A point of space, given by three coordinates, in the closed reference
    tetrahedron, and strictly inside it *)
Definition in_tetrahedron (p : list R) : Prop :=
  match p with
  | [x; y; z] => (0 <= x /\ 0 <= y /\ 0 <= z /\ x + y + z <= 1)%R
  | _ => False
  end.

Definition inside_tetrahedron (p : list R) : Prop :=
  match p with
  | [x; y; z] => (0 < x /\ 0 < y /\ 0 < z /\ x + y + z < 1)%R
  | _ => False
  end.

(** The value of a monomial and of a polynomial at a point
    [(t[0], t[1], t[2], t[3])] *)
Definition power (x : R * R * R * R) (m : monomial) : R :=
  let '(x0, x1, x2, x3) := x in
  let '(m0, m1, m2, m3) := m in
  (x0 ^ m0 * x1 ^ m1 * x2 ^ m2 * x3 ^ m3)%R.

Definition eval (P : poly (F:=R)) (x : R * R * R * R) : R :=
  sumR (map (fun t => (snd t * power x (fst t))%R) P).

Definition coordinate (v : nat) (x : R * R * R * R) : R :=
  let '(x0, x1, x2, x3) := x in
  match v with
  | 0 => x0
  | 1 => x1
  | 2 => x2
  | _ => x3
  end%nat.

(** The polynomial [g] that [_newton_cotes] integrates for the weight of
    the lattice index [(i, j, k, l)] *)
Definition basis_poly {F : Type} `{Num F} (point_fun : nat -> nat -> F)
           (n : nat) (q : nat * nat * nat * nat) : poly :=
  let '(i, j, k, l) := q in
  poly_mul (poly_mul (poly_mul (get_poly point_fun 0 i n)
                               (get_poly point_fun 1 j n))
                     (get_poly point_fun 2 k n))
           (get_poly point_fun 3 l n).

(** The barycentric coordinates [point_fun(idx, n)] of a lattice index *)
Definition lattice_node {F : Type} (point_fun : nat -> nat -> F)
           (n : nat) (q : nat * nat * nat * nat) : F * F * F * F :=
  let '(i, j, k, l) := q in
  (point_fun i n, point_fun j n, point_fun k n, point_fun l n).

(** The point of a tetrahedron with the barycentric coordinates
    [(1 - p0 - p1 - p2, p0, p1, p2)], one space coordinate at a time:
    [a], [b], [c], [d] are that coordinate of the four vertices. *)
Definition image_coordinate (a b c d : R) (p : list R) : R :=
  (a * (1 - nth 0 p 0 - nth 1 p 0 - nth 2 p 0)
   + b * nth 0 p 0 + c * nth 1 p 0 + d * nth 2 p 0)%R.

(** The images of the points of a scheme, as a [(3, npts)] array *)
Definition image_points (t : Tetrahedron (F:=R)) (pts : list (list R))
  : list (list R) :=
  let '(a0, a1, a2) := vertex0 t in
  let '(b0, b1, b2) := vertex1 t in
  let '(c0, c1, c2) := vertex2 t in
  let '(d0, d1, d2) := vertex3 t in
  [map (image_coordinate a0 b0 c0 d0) pts;
   map (image_coordinate a1 b1 c1 d1) pts;
   map (image_coordinate a2 b2 c2 d2) pts].

(** The centre of gravity of a tetrahedron *)
Definition centroid (t : Tetrahedron (F:=R)) : R * R * R :=
  let '(a0, a1, a2) := vertex0 t in
  let '(b0, b1, b2) := vertex1 t in
  let '(c0, c1, c2) := vertex2 t in
  let '(d0, d1, d2) := vertex3 t in
  ((a0 + b0 + c0 + d0) / 4, (a1 + b1 + c1 + d1) / 4,
   (a2 + b2 + c2 + d2) / 4)%R.

(** An affine map of space, [p |-> A p + d], with the matrix [A] given by
    its rows *)
Definition affine (A : (R * R * R) * (R * R * R) * (R * R * R))
           (d : R * R * R) (p : R * R * R) : R * R * R :=
  let '((a00, a01, a02), (a10, a11, a12), (a20, a21, a22)) := A in
  let '(d0, d1, d2) := d in
  let '(x, y, z) := p in
  (a00 * x + a01 * y + a02 * z + d0,
   a10 * x + a11 * y + a12 * z + d1,
   a20 * x + a21 * y + a22 * z + d2)%R.

(** The image of a tetrahedron: the images of its vertices *)
Definition affine_tetrahedron (A : (R * R * R) * (R * R * R) * (R * R * R))
           (d : R * R * R) (t : Tetrahedron (F:=R)) : Tetrahedron (F:=R) :=
  mkTetrahedron (affine A d (vertex0 t)) (affine A d (vertex1 t))
                (affine A d (vertex2 t)) (affine A d (vertex3 t)).

(** The map applied to the columns of a [(3, npts)] array *)
Definition affine_array (A : (R * R * R) * (R * R * R) * (R * R * R))
           (d : R * R * R) (x : list (list R)) : list (list R) :=
  match x with
  | [r0; r1; r2] =>
      let q := map (fun '(x, (y, z)) => affine A d (x, y, z))
                   (combine r0 (combine r1 r2)) in
      [map (fun p => fst (fst p)) q; map (fun p => snd (fst p)) q;
       map snd q]
  | _ => x
  end.

(** The determinant of the matrix *)
Definition determinant (A : (R * R * R) * (R * R * R) * (R * R * R)) : R :=
  let '(u, v, w) := A in det3 u v w.

(** The coordinate of index [j] of the points of [stroud_1957_3 n], as a
    cosine: its frequency, its phase and its amplitude. *)
Definition stroud_frequency (n j : nat) : nat :=
  if (j <? 2 * (n / 2))%nat then (2 * (j / 2) + 1)%nat else n.

Definition stroud_phase (n j : nat) : R :=
  if (j <? 2 * (n / 2))%nat
  then (if Nat.even j then 0 else - (PI / 2))%R
  else PI.

Definition stroud_amplitude (n j : nat) : R :=
  if (j <? 2 * (n / 2))%nat then sqrt (2 / 3) else (1 / sqrt 3)%R.

(** The quadrature sum of a scheme of the n-cube for the monomial that is
    the product of the coordinates of the indices in [e] *)
Definition ncube_moment (s : NCube.NCubeScheme (F:=R)) (e : list nat) : R :=
  sumR (map (fun wp => (fst wp * prodR (map (fun j => nth j (snd wp) 0) e))%R)
            (combine (NCube.weights s) (NCube.points s))).

(** Weights and points whose centre of mass is the centre of gravity of the
    reference tetrahedron: one weight per point, and the weighted sum of
    each coordinate is a quarter of the sum of the weights. *)
Definition centred (W : list R) (P : list (list R)) : Prop :=
  length W = length P
  /\ forall c, (c < 3)%nat ->
               sumR (map (fun wp => (fst wp * nth c (snd wp) 0)%R)
                         (combine W P))
               = (sumR W / 4)%R.

(** Every weight of a scheme is positive; every point of a scheme lies
    strictly inside the reference tetrahedron.  Decided on the exact
    rationals. *)
Definition positive_weights (s : Scheme (F:=Q)) : bool :=
  forallb (fun w => negb (Qle_bool w 0)) (weights s).

Definition interior_points (s : Scheme (F:=Q)) : bool :=
  forallb (fun p => match p with
                    | [x; y; z] =>
                        negb (Qle_bool x 0) && negb (Qle_bool y 0)
                        && negb (Qle_bool z 0)
                        && negb (Qle_bool 1 (x + y + z))
                    | _ => false
                    end) (points s).

(** The entry of index [v] of a quadruple of naturals *)
Definition component (v : nat) (m : monomial) : nat :=
  let '(m0, m1, m2, m3) := m in
  match v with
  | 0 => m0
  | 1 => m1
  | 2 => m2
  | _ => m3
  end%nat.

(** The degree of a monomial *)
Definition total_degree (m : monomial) : nat :=
  let '(m0, m1, m2, m3) := m in (m0 + m1 + m2 + m3)%nat.

(** The action of the monomial [t^a] on the functions on the monomials *)
Definition translate (a : monomial) (J : monomial -> R) : monomial -> R :=
  fun m => J (monomial_mul a m).

(** The product of the binomial coefficients of four operators, each one
    lowered by the entry of [a] *)
Definition binom_product (U : nat -> (monomial -> R) -> monomial -> R)
           (a mu : monomial) : (monomial -> R) -> monomial -> R :=
  fun J =>
    binom (lower (U 0%nat) (component 0 a)) (component 0 mu)
      (binom (lower (U 1%nat) (component 1 a)) (component 1 mu)
         (binom (lower (U 2%nat) (component 2 a)) (component 2 mu)
            (binom (lower (U 3%nat) (component 3 a)) (component 3 mu) J))).

(** The quadrature sum of a scheme of the tetrahedron for a monomial in
    the four barycentric coordinates [(1 - x - y - z, x, y, z)] *)
Definition barycentric_moment (s : Scheme (F:=R)) (m : monomial) : R :=
  sumR (map (fun wp =>
               match snd wp with
               | [x; y; z] => (fst wp * power (1 - x - y - z, x, y, z) m)%R
               | _ => 0%R
               end)
            (combine (weights s) (points s))).

(** * Properties *)

(** ** Reading the code at the exact reals *)

(** A literal that is written with an exponent is evaluated first. *)
Ltac eval_literals :=
  repeat match goal with
         | |- context [Q2R ?q] =>
             let q' := eval vm_compute in q in
             progress change (Q2R q) with (Q2R q')
         end.

(** Unfold the arithmetic of the class at [R]; literals become quotients of
    integers. *)
Ltac at_reals :=
  cbn [lit num_add num_sub num_mul num_div num_neg num_abs num_sqrt
       num_pi num_sin num_cos num_arccos R_Num R_Sqrt R_Trig];
  eval_literals;
  cbv [Q2R Qnum Qden].

(** ** The orbits *)


(** ** Invalid indices *)

Section InvalidIndex.
Context {F : Type} `{Num F} `{Sqrt F} `{Trig F}.

Lemma Keast_invalid (index : Z) :
  (index < 0 \/ 10 < index)%Z ->
  Keast index = Raise (ValueError "Illegal Keast index").
Proof.
  intros Hout. unfold Keast.
  repeat match goal with
         | |- context [(index =? ?k)%Z] =>
             destruct (Z.eqb_spec index k); [ lia | ]
         end.
  reflexivity.
Qed.

Lemma LiuVinokur_invalid (index : Z) :
  (index < 1 \/ 14 < index)%Z ->
  LiuVinokur index = Raise (ValueError "Illegal Liu-Vinokur index").
Proof.
  intros Hout. unfold LiuVinokur.
  repeat match goal with
         | |- context [(index =? ?k)%Z] =>
             destruct (Z.eqb_spec index k); [ lia | ]
         end.
  reflexivity.
Qed.

Lemma Zienkiewicz_invalid (index : Z) :
  index <> 4%Z -> index <> 5%Z ->
  Zienkiewicz index = Raise (ValueError "Illegal closed Newton-Cotes index").
Proof.
  intros H4 H5. unfold Zienkiewicz.
  repeat match goal with
         | |- context [(index =? ?k)%Z] =>
             destruct (Z.eqb_spec index k); [ contradiction | ]
         end.
  reflexivity.
Qed.
End InvalidIndex.

(** C5. An index outside a family's table makes the constructor raise, and
    no scheme is returned: [Keast] outside 0..10, [LiuVinokur] outside 1..14,
    [Zienkiewicz] at every index but 4 and 5. *)
Theorem invalid_index_raises
        {F : Type} `{Num F} `{Sqrt F} `{Trig F} (index : Z) :
  ((index < 0 \/ 10 < index)%Z ->
   Keast (F:=F) index = Raise (ValueError "Illegal Keast index"))
  /\ ((index < 1 \/ 14 < index)%Z ->
      LiuVinokur (F:=F) index = Raise (ValueError "Illegal Liu-Vinokur index"))
  /\ ((index <> 4 /\ index <> 5)%Z ->
      Zienkiewicz (F:=F) index
      = Raise (ValueError "Illegal closed Newton-Cotes index")).
Proof.
  split; [ | split ].
  - apply Keast_invalid.
  - apply LiuVinokur_invalid.
  - intros [H4 H5]. now apply Zienkiewicz_invalid.
Qed.

Lemma invalid_index_raises_witness :
  Keast (F:=R) 3%Z <> Raise (ValueError "Illegal Keast index")
  /\ Keast (F:=R) 11%Z = Raise (ValueError "Illegal Keast index")
  /\ LiuVinokur (F:=R) 0%Z = Raise (ValueError "Illegal Liu-Vinokur index")
  /\ Zienkiewicz (F:=R) 3%Z
     = Raise (ValueError "Illegal closed Newton-Cotes index").
Proof.
  split; [ discriminate | ].
  split; [ apply (invalid_index_raises (F:=R) 11); lia | ].
  split; [ apply (invalid_index_raises (F:=R) 0); lia | ].
  apply (invalid_index_raises (F:=R) 3); lia.
Defined.

(** ** The integrator *)

(** The determinant that [integrate] computes by the rule of Sarrus is the
    determinant of the edge vectors. *)
Lemma jacobian_edge_determinant (t : Tetrahedron (F:=R)) :
  jacobian t = edge_determinant t.
Proof.
  destruct t as [[[a0 a1] a2] [[b0 b1] b2] [[c0 c1] c2] [[d0 d1] d2]].
  unfold jacobian, edge_determinant, edge, difference, det3.
  cbn [vertex0 vertex1 vertex2 vertex3].
  at_reals. field.
Qed.

(** The scaling factor of [integrate] is the volume. *)
Lemma scaled_jacobian_volume (t : Tetrahedron (F:=R)) :
  num_abs (jacobian t * (lit 1.0 / lit 6.0))%num = volume t.
Proof.
  rewrite jacobian_edge_determinant. unfold volume.
  at_reals.
  replace (10 * / 10 / (60 * / 10))%R with (/ 6)%R by field.
  rewrite Rabs_mult, (Rabs_pos_eq (/ 6)) by lra.
  reflexivity.
Qed.

(** C2. With the integrand 1 and the one-point scheme [Keast 0],
    [integrate] returns the volume of the tetrahedron: the absolute value of
    a sixth of the determinant of its edge vectors.  This holds for every
    tetrahedron, degenerate or not; for the reference tetrahedron the result
    is 1/6. *)
Theorem integrate_one_is_volume :
  exists s : Scheme (F:=R),
    Keast 0 = Return s
    /\ (forall t : Tetrahedron, integrate integrand_one t s = Return (volume t))
    /\ integrate integrand_one reference_tetrahedron s = Return (1 / 6)%R.
Proof.
  eexists. split; [ reflexivity | ].
  assert (Hvol : forall t : Tetrahedron (F:=R),
             integrate integrand_one t
               (mkScheme [lit 1.0] (columns_from 1 _s4) 1)
             = Return (volume t)).
  { intros t. unfold integrate, integrand_one.
    cbn [mapped_points points weights columns_from _s4 map skipn column mapM
         nth_error bind broadcast_mul ones repeat length Nat.eqb combine
         fst snd fsum R_Num].
    rewrite scaled_jacobian_volume.
    f_equal. cbn [fold_right]. at_reals. field. }
  split; [ exact Hvol | ].
  rewrite Hvol. f_equal.
  unfold volume, edge_determinant, reference_tetrahedron, det3, difference.
  cbn [vertex0 vertex1 vertex2 vertex3].
  replace (((1 - 0) * ((1 - 0) * (1 - 0) - (0 - 0) * (0 - 0))
            - (0 - 0) * ((0 - 0) * (1 - 0) - (0 - 0) * (0 - 0))
            + (0 - 0) * ((0 - 0) * (0 - 0) - (1 - 0) * (0 - 0))))%R
    with 1%R by ring.
  rewrite Rabs_R1. reflexivity.
Qed.

(** C3. The four-point rule [Keast 1] (the orbit [_s31] of the parameter
    0.1381966011250105, four weights 1/4) integrates the monomial [x] over
    the reference tetrahedron to 1/24. *)
Theorem integrate_x_is_one_over_24 :
  exists s : Scheme (F:=R),
    Keast 1 = Return s
    /\ weights s = [1 / 4; 1 / 4; 1 / 4; 1 / 4]%R
    /\ points s = columns_from 1 (_s31 (lit 0.1381966011250105))
    /\ integrate integrand_x reference_tetrahedron s = Return (1 / 24)%R.
Proof.
  eexists. split; [ reflexivity | ].
  split.
  { cbn [weights scale ones repeat map]. at_reals.
    repeat (apply f_equal2; [ lra | ]). reflexivity. }
  split; [ reflexivity | ].
  unfold integrate, integrand_x.
  cbn [mapped_points points weights columns_from _s31 map skipn column mapM
       nth_error bind scale ones repeat].
  cbn [reference_tetrahedron vertex0 vertex1 vertex2 vertex3 coords outer
       vsub vadd madd combine map fst snd nth].
  rewrite scaled_jacobian_volume.
  cbn [broadcast_mul length Nat.eqb combine map fst snd bind fsum R_Num
       fold_right].
  f_equal.
  unfold volume, edge_determinant, reference_tetrahedron, det3, difference.
  cbn [vertex0 vertex1 vertex2 vertex3].
  replace (((1 - 0) * ((1 - 0) * (1 - 0) - (0 - 0) * (0 - 0))
            - (0 - 0) * ((0 - 0) * (1 - 0) - (0 - 0) * (0 - 0))
            + (0 - 0) * ((0 - 0) * (0 - 0) - (1 - 0) * (0 - 0))))%R
    with 1%R by ring.
  rewrite Rabs_R1. at_reals. field.
Qed.

(** [column] returns on an array with enough columns. *)
Lemma column_returns {F : Type} (j : nat) (a : list (list F)) :
  Forall (fun p => (j < length p)%nat) a ->
  exists c, column j a = Return c /\ length c = length a.
Proof.
  induction 1 as [ | p a Hp _ [c [Hc Hlen]] ].
  - exists []. split; reflexivity.
  - apply nth_error_Some in Hp.
    destruct (nth_error p j) as [ x | ] eqn:Hx; [ | contradiction ].
    exists (x :: c). split.
    + cbn [column mapM]. rewrite Hx. cbn [bind].
      unfold column in Hc. rewrite Hc. reflexivity.
    + cbn [length]. now rewrite Hlen.
Qed.

(** A sum whose every term carries the factor zero. *)
Lemma sumR_times_zero (l : list R) :
  sumR (map (fun t => (t * 0)%R) l) = 0%R.
Proof.
  induction l as [ | t l IH ]; cbn [map sumR fold_right]; [ reflexivity | ].
  unfold sumR in IH. rewrite IH. ring.
Qed.

(** [broadcast_mul] returns on arrays of one length, or when one of them
    has length one. *)
Lemma broadcast_mul_returns {F : Type} `{Num F} (u v : list F) :
  length u = length v \/ length u = 1%nat \/ length v = 1%nat ->
  exists l, broadcast_mul u v = Return l.
Proof.
  intros Hshape. unfold broadcast_mul.
  destruct (Nat.eqb_spec (length u) (length v)) as [ _ | Hne ];
    [ eexists; reflexivity | ].
  destruct Hshape as [ Heq | [ Hu | Hv ] ]; [ contradiction | | ].
  - destruct u as [ | a [ | b u ] ]; try discriminate. eexists; reflexivity.
  - destruct v as [ | b [ | c v ] ]; try discriminate.
    destruct u as [ | a [ | a' u ] ]; eexists; reflexivity.
Qed.

(** The shape of the array of points that [integrate] hands to the
    integrand: three rows, one entry per point of the scheme. *)
Lemma vsub_length {F : Type} `{Num F} (u v : list F) (n : nat) :
  length u = n -> length v = n -> length (vsub u v) = n.
Proof.
  intros Hu Hv. unfold vsub.
  rewrite length_map, length_combine, Hu, Hv. apply Nat.min_id.
Qed.

Lemma vadd_length {F : Type} `{Num F} (u v : list F) (n : nat) :
  length u = n -> length v = n -> length (vadd u v) = n.
Proof.
  intros Hu Hv. unfold vadd.
  rewrite length_map, length_combine, Hu, Hv. apply Nat.min_id.
Qed.

Ltac shape :=
  repeat first [ assumption
               | apply vsub_length
               | apply vadd_length
               | rewrite length_map ].

Lemma mapped_points_shape {F : Type} `{Num F}
      (t : Tetrahedron) (scheme : Scheme) :
  Forall (fun p => (3 <= length p)%nat) (points scheme) ->
  exists x, mapped_points t scheme = Return x
            /\ length x = 3%nat
            /\ Forall (fun row => length row = length (points scheme)) x.
Proof.
  intros Hpts. unfold mapped_points.
  destruct (column_returns 0 (points scheme)) as [xi0 [-> H0]].
  { eapply Forall_impl; [ | exact Hpts ]. cbn beta. intros; lia. }
  destruct (column_returns 1 (points scheme)) as [xi1 [-> H1]].
  { eapply Forall_impl; [ | exact Hpts ]. cbn beta. intros; lia. }
  destruct (column_returns 2 (points scheme)) as [xi2 [-> H2]].
  { eapply Forall_impl; [ | exact Hpts ]. cbn beta. intros; lia. }
  cbn [bind]. eexists. split; [ reflexivity | ].
  destruct (vertex0 t) as [[a0 a1] a2], (vertex1 t) as [[b0 b1] b2],
           (vertex2 t) as [[c0 c1] c2], (vertex3 t) as [[d0 d1] d2].
  cbn [coords outer madd map combine fst snd length].
  split; [ reflexivity | ].
  repeat apply Forall_cons; try apply Forall_nil; shape.
Qed.

(** C9. On a tetrahedron whose vertices are coplanar [integrate] raises
    nothing and returns 0, for every scheme of points in space and every
    integrand that returns one value per point, or a single value. *)
Theorem degenerate_integral_is_zero
        (f : list (list R) -> list R) (t : Tetrahedron (F:=R))
        (scheme : Scheme (F:=R)) :
  edge_determinant t = 0%R ->
  Forall (fun p => (3 <= length p)%nat) (points scheme) ->
  (forall x,
      length x = 3%nat ->
      Forall (fun row => length row = length (points scheme)) x ->
      length (f x) = length (weights scheme) \/ length (f x) = 1%nat) ->
  integrate f t scheme = Return 0%R.
Proof.
  intros Hdet Hpts Hshape. unfold integrate.
  destruct (mapped_points_shape t scheme Hpts) as [x [-> [Hrows Hcols]]].
  cbn [bind].
  destruct (broadcast_mul_returns (weights scheme) (f x)) as [wf ->].
  { destruct (Hshape x Hrows Hcols) as [ Heq | Hf ]; auto. }
  cbn [bind]. rewrite scaled_jacobian_volume.
  unfold volume. rewrite Hdet, Rabs_R0.
  replace (0 / 6)%R with 0%R by field.
  cbn [fsum R_Num]. f_equal. apply sumR_times_zero.
Qed.

Lemma degenerate_integral_is_zero_witness :
  integrate integrand_x
    (mkTetrahedron (0, 0, 0)%R (1, 0, 0)%R (0, 1, 0)%R (1, 1, 0)%R)
    (mkScheme [1 / 2; 1 / 2]%R [[0; 0; 1]%R; [1 / 4; 1 / 4; 1 / 4]%R] 1)
  = Return 0%R.
Proof.
  apply degenerate_integral_is_zero.
  - unfold edge_determinant, det3, difference.
    cbn [vertex0 vertex1 vertex2 vertex3]. ring.
  - cbn [points]. repeat constructor.
  - intros x Hrows Hcols. left.
    destruct x as [ | row x ]; [ discriminate | ].
    apply Forall_inv in Hcols. exact Hcols.
Defined.

(** ** Sums of arrays of reals *)

Lemma sumR_app (u v : list R) : sumR (u ++ v) = (sumR u + sumR v)%R.
Proof.
  unfold sumR. induction u as [ | x u IH ]; cbn [app fold_right].
  - ring.
  - rewrite IH. ring.
Qed.

Lemma sumR_repeat (c : R) (k : nat) : sumR (repeat c k) = (INR k * c)%R.
Proof.
  unfold sumR. induction k as [ | k IH ].
  - cbn. ring.
  - cbn [repeat fold_right]. rewrite IH, S_INR. ring.
Qed.

Lemma sumR_map_mul (c : R) (l : list R) :
  sumR (map (fun w => (w * c)%R) l) = (sumR l * c)%R.
Proof.
  unfold sumR. induction l as [ | x l IH ]; cbn [map fold_right].
  - ring.
  - rewrite IH. ring.
Qed.

(** ** Literals and integers at the reals *)

Lemma of_int_R (z : Z) : of_int (F:=R) z = IZR z.
Proof.
  unfold of_int. cbn [lit R_Num]. unfold Q2R, inject_Z. cbn [Qnum Qden].
  field.
Qed.

Lemma of_nat_R (k : nat) : of_nat (F:=R) k = INR k.
Proof.
  unfold of_nat. rewrite of_int_R. symmetry. apply INR_IZR_INZ.
Qed.

Lemma two_pow_R (n : nat) : IZR (2 ^ Z.of_nat n) = (2 ^ n)%R.
Proof.
  symmetry. apply pow_IZR.
Qed.

(** ** Arrays: transposition and strided updates *)

Lemma map_nth_seq {A : Type} (d : A) (r : list A) :
  map (fun i => nth i r d) (seq 0 (length r)) = r.
Proof.
  induction r as [ | x r IH ]; [ reflexivity | ].
  cbn [length seq map nth]. f_equal.
  rewrite <- seq_shift, map_map. exact IH.
Qed.

Lemma combine_map_map {A B C : Type} (f : A -> B) (g : A -> C) (l : list A) :
  combine (map f l) (map g l) = map (fun i => (f i, g i)) l.
Proof.
  induction l as [ | x l IH ]; [ reflexivity | ].
  cbn [map combine]. now rewrite IH.
Qed.

(** The rows of [a.T] are the columns of [a]. *)
Lemma transpose_columns {F : Type} (d : F) (c : nat) (a : list (list F)) :
  a <> [] ->
  Forall (fun r => length r = c) a ->
  NCube.transpose a = map (fun i => map (fun r => nth i r d) a) (seq 0 c).
Proof.
  induction a as [ | r a IH ]; [ congruence | ].
  intros _ Hlen. inversion Hlen as [ | ? ? Hr Ha ]; subst.
  destruct a as [ | r' a ].
  - cbn [NCube.transpose map].
    rewrite <- (map_nth_seq d r) at 1. now rewrite map_map.
  - change (NCube.transpose (r :: r' :: a))
      with (map (fun p => fst p :: snd p)
                (combine r (NCube.transpose (r' :: a)))).
    rewrite IH by (congruence || assumption).
    rewrite <- (map_nth_seq d r) at 1.
    rewrite combine_map_map, map_map. reflexivity.
Qed.

Lemma imul_odd_length {F : Type} `{Num F} (c : F) (v : list F) :
  length (NCube.imul_odd c v) = length v.
Proof.
  assert (Hboth : forall m v, (length v <= m)%nat ->
                              length (NCube.imul_odd c v) = length v).
  { induction m as [ | m IH ]; intros [ | x [ | y w ] ] Hle;
      cbn [NCube.imul_odd length] in *; try reflexivity; try lia.
    rewrite IH by lia. reflexivity. }
  now apply (Hboth (length v)).
Qed.

Lemma imul_odd_nth {F : Type} `{Num F} (c d : F) (v : list F) (i : nat) :
  (i < length v)%nat ->
  nth i (NCube.imul_odd c v) d
  = if Nat.odd i then (nth i v d * c)%num else nth i v d.
Proof.
  assert (Hboth : forall m v i, (length v <= m)%nat -> (i < length v)%nat ->
                    nth i (NCube.imul_odd c v) d
                    = if Nat.odd i then (nth i v d * c)%num else nth i v d).
  { induction m as [ | m IH ]; intros [ | x [ | y w ] ] j Hle Hj;
      cbn [NCube.imul_odd length] in *; try lia.
    - destruct j as [ | j ]; [ reflexivity | lia ].
    - destruct j as [ | [ | j ] ]; [ reflexivity | reflexivity | ].
      cbn [nth]. rewrite IH by lia.
      change (Nat.odd (S (S j))) with (Nat.odd j). reflexivity. }
  now apply (Hboth (length v)).
Qed.

Lemma nth_repeat_lt {A : Type} (x d : A) (m i : nat) :
  (i < m)%nat -> nth i (repeat x m) d = x.
Proof.
  revert i. induction m as [ | m IH ]; intros [ | i ] Hi; cbn [repeat nth];
    try lia; [ reflexivity | apply IH; lia ].
Qed.

(** ** The n-cube schemes *)

Lemma half_floor (n : nat) :
  (if (n mod 2 =? 0)%nat then (n / 2)%nat else ((n - 1) / 2)%nat)
  = (n / 2)%nat.
Proof.
  destruct (Nat.eqb_spec (n mod 2) 0) as [ _ | Hodd ]; [ reflexivity | ].
  pose proof (Nat.div_mod_eq n 2) as Hn.
  pose proof (Nat.mod_upper_bound n 2 ltac:(lia)) as Hlt.
  symmetry. apply (Nat.div_unique _ _ _ 0); lia.
Qed.

Lemma mod2_odd (n : nat) : (n mod 2 =? 1)%nat = Nat.odd n.
Proof.
  rewrite <- Nat.bit0_mod. unfold Nat.b2n, Nat.testbit.
  destruct (Nat.odd n); reflexivity.
Qed.

Lemma stroud_1957_3_rows_length (n : nat) :
  Forall (fun r => length r = (2 * n)%nat) (stroud_1957_3_rows n).
Proof.
  unfold stroud_1957_3_rows. apply Forall_app. split.
  - apply Forall_concat. apply Forall_map. apply Forall_forall. intros k _.
    repeat apply Forall_cons; try apply Forall_nil;
      now rewrite length_map, length_seq.
  - destruct (Nat.odd n); [ | apply Forall_nil ].
    apply Forall_cons; [ | apply Forall_nil ].
    now rewrite imul_odd_length, repeat_length.
Qed.

Lemma stroud_1957_3_rows_count (n : nat) :
  length (stroud_1957_3_rows n) = n.
Proof.
  unfold stroud_1957_3_rows. rewrite length_app.
  assert (Hpairs : forall (g : nat -> list (list R)) l,
             (forall k, length (g k) = 2%nat) ->
             length (concat (map g l)) = (2 * length l)%nat).
  { intros g l Hg. induction l as [ | k l IH ]; [ reflexivity | ].
    cbn [map concat length]. rewrite length_app, Hg, IH. lia. }
  rewrite Hpairs by reflexivity. rewrite length_seq.
  pose proof (Nat.div_mod_eq n 2) as Hn.
  rewrite <- (mod2_odd n).
  pose proof (Nat.mod_upper_bound n 2 ltac:(lia)) as Hlt.
  destruct (Nat.eqb_spec (n mod 2) 1); cbn [length]; lia.
Qed.

(** The column of index [i] of the stacked rows is the point of index
    [i + 1]. *)
Lemma stroud_1957_3_column (n i : nat) :
  (i < 2 * n)%nat ->
  map (fun r => nth i r 0%R) (stroud_1957_3_rows n)
  = stroud_1957_3_point n (S i).
Proof.
  intros Hi. unfold stroud_1957_3_rows, stroud_1957_3_point.
  rewrite map_app. f_equal.
  - induction (seq 1 (n / 2)) as [ | k l IH ]; [ reflexivity | ].
    cbn [map concat flat_map app]. rewrite IH.
    f_equal; [ | f_equal ].
    + rewrite (nth_indep _ 0%R
                 ((fun j => (num_sqrt (of_int 2 / of_int 3)
                      * num_cos (of_nat ((2 * k - 1) * j) * num_pi / of_nat n))%num) O))
        by now rewrite length_map, length_seq.
      rewrite (map_nth (fun j => (num_sqrt (of_int 2 / of_int 3)
                      * num_cos (of_nat ((2 * k - 1) * j) * num_pi / of_nat n))%num)).
      rewrite seq_nth by assumption.
      cbn [num_sqrt num_cos num_pi num_mul num_div R_Num R_Sqrt R_Trig].
      now rewrite !of_int_R, !of_nat_R.
    + rewrite (nth_indep _ 0%R
                 ((fun j => (num_sqrt (of_int 2 / of_int 3)
                      * num_sin (of_nat ((2 * k - 1) * j) * num_pi / of_nat n))%num) O))
        by now rewrite length_map, length_seq.
      rewrite (map_nth (fun j => (num_sqrt (of_int 2 / of_int 3)
                      * num_sin (of_nat ((2 * k - 1) * j) * num_pi / of_nat n))%num)).
      rewrite seq_nth by assumption.
      cbn [num_sqrt num_sin num_pi num_mul num_div R_Num R_Sqrt R_Trig].
      now rewrite !of_int_R, !of_nat_R.
  - destruct (Nat.odd n); [ | reflexivity ].
    cbn [map]. f_equal.
    rewrite imul_odd_nth by now rewrite repeat_length.
    rewrite nth_repeat_lt by assumption.
    rewrite Nat.even_succ.
    change (lit (F:=R) 1) with (of_int (F:=R) 1).
    change (lit (F:=R) 3) with (of_int (F:=R) 3).
    cbn [num_sqrt num_mul num_div num_neg R_Num R_Sqrt].
    rewrite !of_int_R.
    destruct (Nat.odd i); field; apply Rgt_not_eq, sqrt_lt_R0; lra.
Qed.

(** The shape of the degree-3 scheme of the n-cube, at the reals. *)
Lemma stroud_1957_3_shape (n : nat) :
  (1 <= n)%nat ->
  exists s,
    NCube.stroud_1957_3 (F:=R) n = Return s
    /\ NCube.points s = map (stroud_1957_3_point n) (seq 1 (2 * n))
    /\ NCube.weights s = repeat (2 ^ n / INR (2 * n))%R (2 * n).
Proof.
  intros Hn. unfold NCube.stroud_1957_3.
  rewrite half_floor, mod2_odd.
  assert (Hrows : forall blocks,
             concat blocks = stroud_1957_3_rows n ->
             NCube.vstack blocks = Return (stroud_1957_3_rows n)).
  { intros blocks Hb. unfold NCube.vstack. destruct blocks as [ | b blocks ].
    - pose proof (stroud_1957_3_rows_count n) as Hc.
      rewrite <- Hb in Hc. cbn in Hc. lia.
    - now rewrite Hb. }
  rewrite Hrows.
  2:{ unfold stroud_1957_3_rows. destruct (Nat.odd n).
      - rewrite concat_app. reflexivity.
      - now rewrite app_nil_r. }
  cbn [bind].
  rewrite (transpose_columns 0%R (2 * n)).
  2:{ intros Hnil. pose proof (stroud_1957_3_rows_count n) as Hc.
      rewrite Hnil in Hc. cbn in Hc. lia. }
  2:{ apply stroud_1957_3_rows_length. }
  eexists. split; [ reflexivity | ].
  cbn [NCube.points NCube.weights map snd fst concat].
  rewrite !app_nil_r. split.
  - rewrite <- seq_shift, map_map. apply map_ext_in.
    intros i Hi. apply in_seq in Hi. apply stroud_1957_3_column. lia.
  - rewrite length_map, length_seq. unfold NCube.rescale.
    rewrite map_repeat. f_equal.
    cbn [num_mul num_div R_Num]. rewrite !of_int_R, two_pow_R.
    rewrite <- INR_IZR_INZ.
    field. apply not_0_INR. lia.
Qed.

Lemma stroud_1957_3_point_length (n i : nat) :
  length (stroud_1957_3_point n i) = n.
Proof.
  unfold stroud_1957_3_point. rewrite length_app.
  assert (Hpairs : forall (g : nat -> list R) l,
             (forall k, length (g k) = 2%nat) ->
             length (flat_map g l) = (2 * length l)%nat).
  { intros g l Hg. induction l as [ | k l IH ]; [ reflexivity | ].
    cbn [flat_map]. rewrite length_app, Hg, IH. cbn [length]. lia. }
  rewrite Hpairs by reflexivity. rewrite length_seq.
  pose proof (Nat.div_mod_eq n 2) as Hn.
  rewrite <- (mod2_odd n).
  pose proof (Nat.mod_upper_bound n 2 ltac:(lia)) as Hlt.
  destruct (Nat.eqb_spec (n mod 2) 1); cbn [length]; lia.
Qed.

(** C8. For every dimension [n >= 1], [stroud_1957_3 n] returns a scheme
    of [2 n] points of [n] coordinates each.  The point of index [i] has a
    cosine and a sine coordinate, scaled by [sqrt (2/3)], for each of the
    [n / 2] planes, and, exactly when [n] is odd, a last coordinate
    [1 / sqrt 3], negated at every second point.  Every point carries the
    weight [2 ^ n / (2 n)]. *)
Theorem stroud_1957_3_points_and_weights (n : nat) :
  (1 <= n)%nat ->
  exists s,
    NCube.stroud_1957_3 (F:=R) n = Return s
    /\ NCube.points s = map (stroud_1957_3_point n) (seq 1 (2 * n))
    /\ length (NCube.points s) = (2 * n)%nat
    /\ Forall (fun p => length p = n) (NCube.points s)
    /\ NCube.weights s = repeat (2 ^ n / INR (2 * n))%R (2 * n).
Proof.
  intros Hn.
  destruct (stroud_1957_3_shape n Hn) as [s [Hs [Hpoints Hweights]]].
  exists s. split; [ exact Hs | ]. split; [ exact Hpoints | ].
  split; [ | split; [ | exact Hweights ] ].
  - now rewrite Hpoints, length_map, length_seq.
  - rewrite Hpoints. apply Forall_map, Forall_forall.
    intros i _. apply stroud_1957_3_point_length.
Qed.

Lemma stroud_1957_3_points_and_weights_witness :
  exists s,
    NCube.stroud_1957_3 (F:=R) 3 = Return s
    /\ NCube.points s = map (stroud_1957_3_point 3) (seq 1 (2 * 3))
    /\ length (NCube.points s) = (2 * 3)%nat
    /\ Forall (fun p => length p = 3%nat) (NCube.points s)
    /\ NCube.weights s = repeat (2 ^ 3 / INR (2 * 3))%R (2 * 3).
Proof.
  apply (stroud_1957_3_points_and_weights 3). lia.
Defined.

(** ** Newton-Cotes of order 0 in binary64 *)

(** C10. In binary64, [NewtonCotesClosed 0] divides the lattice index 0 by
    [float 0]: the scheme it returns has the weight array [[1]] and one
    point whose three coordinates are NaN, and integrating the monomial [x]
    with it over the reference tetrahedron gives NaN. *)
Theorem NewtonCotesClosed_0_point_is_nan :
  NewtonCotesClosed (F:=float) 0
  = Return (mkScheme [1%float] [[nan; nan; nan]] 0)
  /\ (0 / 0)%float = nan
  /\ integrate integrand_x
       (mkTetrahedron (0, 0, 0)%float (1, 0, 0)%float (0, 1, 0)%float
                      (0, 0, 1)%float)
       (mkScheme [1%float] [[nan; nan; nan]] 0)
     = Return nan.
Proof.
  repeat split; vm_compute; reflexivity.
Qed.

(** ** The sum of the weights *)

Lemma sumR_concatenate_nil : sumR (concatenate (A:=R) []) = 0%R.
Proof. reflexivity. Qed.

Lemma sumR_concatenate_cons (x : list R) (l : list (list R)) :
  sumR (concatenate (x :: l)) = (sumR x + sumR (concatenate l))%R.
Proof.
  unfold concatenate. cbn [concat]. apply sumR_app.
Qed.

Lemma sumR_scale (c : R) (l : list R) : sumR (scale c l) = (c * sumR l)%R.
Proof.
  unfold scale, sumR. induction l as [ | x l IH ]; cbn [map fold_right].
  - ring.
  - rewrite IH. cbn [num_mul R_Num]. ring.
Qed.

Lemma sumR_ones (k : nat) : sumR (ones (F:=R) k) = INR k.
Proof.
  unfold ones. rewrite sumR_repeat. at_reals. field.
Qed.

(** The sum of the weights of a table, as the sum of its groups. *)
Ltac sum_weights :=
  cbn [weights];
  repeat first [ rewrite sumR_concatenate_cons
               | rewrite sumR_concatenate_nil
               | rewrite sumR_scale
               | rewrite sumR_ones ];
  cbn [INR sumR fold_right].

Ltac table_case :=
  eexists; split;
  [ reflexivity
  | unfold weights_sum_to, table_tolerance; sum_weights; at_reals;
    apply Rabs_le; lra ].

Lemma Keast_weights (index : Z) :
  (0 <= index <= 10)%Z ->
  exists s, Keast (F:=R) index = Return s
            /\ weights_sum_to 1 table_tolerance s.
Proof.
  intros Hin.
  assert (Hcases : (index = 0 \/ index = 1 \/ index = 2 \/ index = 3
                    \/ index = 4 \/ index = 5 \/ index = 6 \/ index = 7
                    \/ index = 8 \/ index = 9 \/ index = 10)%Z) by lia.
  repeat (destruct Hcases as [ -> | Hcases ]; [ table_case | ]).
  subst. table_case.
Qed.

Lemma Yu_weights (index : Z) :
  (1 <= index <= 5)%Z ->
  exists s, Yu (F:=R) index = Return s
            /\ weights_sum_to 1 table_tolerance s.
Proof.
  intros Hin.
  assert (Hcases : (index = 1 \/ index = 2 \/ index = 3 \/ index = 4
                    \/ index = 5)%Z) by lia.
  repeat (destruct Hcases as [ -> | Hcases ]; [ table_case | ]).
  subst. table_case.
Qed.

Lemma Zienkiewicz_weights (index : Z) :
  (4 <= index <= 5)%Z ->
  exists s, Zienkiewicz (F:=R) index = Return s
            /\ weights_sum_to 1 table_tolerance s.
Proof.
  intros Hin.
  assert (Hcases : (index = 4 \/ index = 5)%Z) by lia.
  destruct Hcases as [ -> | -> ]; table_case.
Qed.

Lemma ZhangCuiLiu_weights (index : Z) :
  (1 <= index <= 2)%Z ->
  exists s, ZhangCuiLiu (F:=R) index = Return s
            /\ weights_sum_to 1 table_tolerance s.
Proof.
  intros Hin.
  assert (Hcases : (index = 1 \/ index = 2)%Z) by lia.
  destruct Hcases as [ -> | -> ]; table_case.
Qed.

Lemma ShunnHam_weights (index : Z) :
  (1 <= index <= 6)%Z ->
  exists s, ShunnHam (F:=R) index = Return s
            /\ weights_sum_to 1 table_tolerance s.
Proof.
  intros Hin.
  assert (Hcases : (index = 1 \/ index = 2 \/ index = 3 \/ index = 4
                    \/ index = 5 \/ index = 6)%Z) by lia.
  repeat (destruct Hcases as [ -> | Hcases ]; [ table_case | ]).
  subst. table_case.
Qed.

Lemma HammerMarloweStroud_weights (index : Z) :
  (1 <= index <= 3)%Z ->
  exists s, HammerMarloweStroud (F:=R) index = Return s
            /\ weights_sum_to 1 table_tolerance s.
Proof.
  intros Hin.
  assert (Hcases : (index = 1 \/ index = 2 \/ index = 3)%Z) by lia.
  repeat (destruct Hcases as [ -> | Hcases ]; [ table_case | ]).
  subst. table_case.
Qed.

(** *** Liu and Vinokur's schemes 8 and 12 *)

Section LiuVinokurAlgebra.
Local Open Scope R_scope.

(** The weights of two orbits [_r_alpha] of weights [w1], [w2] as in
    Liu-Vinokur, in terms of the sum and the product of the parameters. *)
Lemma two_orbit_weights (k a1 a2 : R) :
  a1 <> 0 -> a2 <> 0 -> a1 <> a2 ->
  ((k * a2 - 7) / (420 * (a1 * a1) * (a2 - a1)) * 4
   + (k * a1 - 7) / (420 * (a2 * a2) * (a1 - a2)) * 4
   = (k * ((a1 + a2) * (a1 + a2) - a1 * a2) - 7 * (a1 + a2))
     / (105 * ((a1 * a2) * (a1 * a2))))%R.
Proof.
  intros H1 H2 H12. field. repeat split; try assumption; lra.
Qed.

Lemma LiuVinokur_8_algebra (S T : R) :
  T * T = 11 -> S * S = 65944 - 19446 * T ->
  3.316 < T < 3.317 -> 37 < S < 39 ->
  let a1 := (S + 51 * T - 154) / 89 in
  let a2 := (- S + 51 * T - 154) / 89 in
  (17 * a2 - 7) / (420 * (a1 * a1) * (a2 - a1)) * 4
  + (17 * a1 - 7) / (420 * (a2 * a2) * (a1 - a2)) * 4 + 2 / 105 * 6 = 1.
Proof.
  intros HT HS HTb HSb a1 a2.
  assert (Hsum : a1 + a2 = 2 * (51 * T - 154) / 89) by (unfold a1, a2; field).
  assert (Hprod : a1 * a2 = (3738 * T - 13617) / 7921).
  { unfold a1, a2. field_simplify.
    replace (S ^ 2) with (65944 - 19446 * T) by (rewrite <- HS; ring).
    replace (T ^ 2) with 11 by (rewrite <- HT; ring). field. }
  rewrite two_orbit_weights.
  - rewrite Hsum, Hprod.
    assert (Hp : 3738 * T - 13617 <> 0) by lra.
    field_simplify_eq; [ | assumption ].
    replace (T ^ 2) with 11 by (rewrite <- HT; ring). lra.
  - unfold a1. apply Rgt_not_eq. lra.
  - unfold a2. apply Rlt_not_eq. lra.
  - unfold a1, a2. lra.
Qed.

Lemma LiuVinokur_8_weights :
  exists s, LiuVinokur (F:=R) 8 = Return s /\ weights_sum_to 1 table_tolerance s.
Proof.
  eexists; split; [ reflexivity | ].
  unfold weights_sum_to, table_tolerance. sum_weights.
  set (T := num_sqrt (lit 11)).
  set (S := num_sqrt (lit 65944.0 - lit 19446 * T)%num).
  assert (HTpos : 0 <= T) by (subst T; apply sqrt_pos).
  assert (HT : T * T = 11).
  { subst T. cbn [num_sqrt R_Sqrt]. rewrite sqrt_sqrt; at_reals; lra. }
  assert (HTb : 3.316 < T < 3.317) by (split; nra).
  assert (HSpos : 0 <= S) by (subst S; apply sqrt_pos).
  assert (HS : S * S = 65944 - 19446 * T).
  { subst S. cbn [num_sqrt R_Sqrt]. rewrite sqrt_sqrt; at_reals; nra. }
  assert (HSb : 37 < S < 39) by (split; nra).
  clearbody S T.
  pose proof (LiuVinokur_8_algebra S T HT HS HTb HSb) as Halg.
  cbv zeta in Halg. at_reals. cbn [num_pow num_mul R_Num].
  match goal with
  | |- Rabs (?e - 1) <= _ => replace e with 1%R
  end.
  - replace (1 - 1) with 0 by ring. rewrite Rabs_R0. lra.
  - etransitivity; [ symmetry; exact Halg | ].
    field. repeat split; lra.
Qed.

(** The cosine of the triple angle. *)
Lemma cos_triple (t : R) : cos (3 * t) = 4 * (cos t * cos t * cos t) - 3 * cos t.
Proof.
  replace (3 * t) with (2 * t + t) by ring.
  rewrite cos_plus, cos_2a_cos, sin_2a.
  pose proof (sin2 t) as Hs. unfold Rsqr in Hs.
  replace (2 * sin t * cos t * sin t) with (2 * cos t * (sin t * sin t)) by ring.
  rewrite Hs. ring.
Qed.

(** The parameter [lmbda] of the scheme 12 is a root of a cubic, between
    5 and 8. *)
Lemma LiuVinokur_12_lmbda (U : R) :
  U * U = 79 -> 0 <= U ->
  let x := cos ((acos (67 * U / 24964) + 2 * PI) / 3) in
  let lmbda := 4 / 27 * (4 * U * x + 71) in
  9 * (lmbda * lmbda * lmbda) - 284 * (lmbda * lmbda) + 2800 * lmbda - 8512 = 0
  /\ 5 < lmbda < 8.
Proof.
  intros HU HUpos. cbv zeta.
  assert (HUb : 8.888 < U < 8.889) by (split; nra).
  set (c := 67 * U / 24964).
  assert (Hc : -1 <= c <= 1) by (unfold c; split; lra).
  set (t := (acos c + 2 * PI) / 3).
  set (x := cos t).
  set (lmbda := 4 / 27 * (4 * U * x + 71)).
  assert (H3 : cos (3 * t) = c).
  { replace (3 * t) with (acos c + 2 * INR 1 * PI) by (unfold t; cbn [INR]; field).
    rewrite cos_period. now apply cos_acos. }
  rewrite cos_triple in H3. fold x in H3.
  assert (Hx : -1 <= x <= -1 / 2).
  { split; [ apply COS_bound | ].
    rewrite <- cos_2PI3. unfold x.
    pose proof (acos_bound c) as Hb. pose proof PI_RGT_0 as Hpi.
    apply cos_decr_1; try unfold t; lra. }
  split.
  - set (y := 4 * U * x).
    assert (Hy : y * y * y = 948 * y + 268).
    { unfold y.
      replace (4 * U * x * (4 * U * x) * (4 * U * x))
        with (16 * (U * U) * U * (4 * (x * x * x))) by ring.
      replace (4 * (x * x * x)) with (3 * x + c) by lra.
      rewrite HU. unfold c.
      replace (16 * 79 * U * (3 * x + 67 * U / 24964))
        with (948 * (4 * U * x) + 16 * 79 * 67 / 24964 * (U * U)) by field.
      rewrite HU. field. }
    replace lmbda with (4 / 27 * (y + 71)) by reflexivity.
    replace (9 * (4 / 27 * (y + 71) * (4 / 27 * (y + 71)) * (4 / 27 * (y + 71)))
             - 284 * (4 / 27 * (y + 71) * (4 / 27 * (y + 71)))
             + 2800 * (4 / 27 * (y + 71)) - 8512)
      with (64 / 2187 * (y * y * y - 948 * y - 268)) by field.
    rewrite Hy. ring.
  - unfold lmbda. split; nra.
Qed.

Lemma LiuVinokur_12_algebra (l V : R) :
  9 * (l * l * l) - 284 * (l * l) + 2800 * l - 8512 = 0 ->
  5 < l < 8 ->
  V * V = 9 * (l * l) - 248 * l + 1680 -> 0 < V ->
  let a1 := (V + 28 - 3 * l) / (112 - 10 * l) in
  let a2 := (- V + 28 - 3 * l) / (112 - 10 * l) in
  ((21 - l) * a2 - 7) / (420 * (a1 * a1) * (a2 - a1)) * 4
  + ((21 - l) * a1 - 7) / (420 * (a2 * a2) * (a1 - a2)) * 4
  + l * l / 840 * 6 = 1.
Proof.
  intros Hcubic Hl HV HVpos a1 a2.
  assert (HE : 112 - 10 * l <> 0) by lra.
  assert (Hsum : a1 + a2 = 2 * (28 - 3 * l) / (112 - 10 * l))
    by (unfold a1, a2; field; assumption).
  assert (Hprod : a1 * a2 = - 8 / (112 - 10 * l)).
  { unfold a1, a2.
    replace ((V + 28 - 3 * l) / (112 - 10 * l) * ((- V + 28 - 3 * l) / (112 - 10 * l)))
      with (((28 - 3 * l) * (28 - 3 * l) - V * V)
            / ((112 - 10 * l) * (112 - 10 * l))) by (field; assumption).
    rewrite HV. field. assumption. }
  assert (Hp : a1 * a2 <> 0).
  { rewrite Hprod. intros H0. apply (Rmult_eq_compat_r (112 - 10 * l)) in H0.
    unfold Rdiv in H0. rewrite Rmult_assoc, Rinv_l in H0 by assumption. lra. }
  rewrite two_orbit_weights.
  - rewrite Hsum, Hprod. field_simplify_eq; [ | assumption ]. nra.
  - intros H0. apply Hp. rewrite H0. ring.
  - intros H0. apply Hp. rewrite H0. ring.
  - unfold a1, a2. intros H0.
    apply (Rmult_eq_compat_r (112 - 10 * l)) in H0.
    unfold Rdiv in H0. rewrite !Rmult_assoc, !Rinv_l in H0 by assumption. lra.
Qed.

Lemma LiuVinokur_12_weights :
  exists s, LiuVinokur (F:=R) 12 = Return s /\ weights_sum_to 1 table_tolerance s.
Proof.
  eexists; split; [ reflexivity | ].
  unfold weights_sum_to, table_tolerance. sum_weights.
  match goal with
  | |- context [(num_pow ?l 2 / lit 840.0)%num] => set (lmbda := l)
  end.
  set (V := num_sqrt (lit 9 * num_pow lmbda 2 - lit 248 * lmbda + lit 1680)%num).
  set (U := num_sqrt (lit 79.0)) in lmbda.
  assert (HUpos : 0 <= U) by (subst U; apply sqrt_pos).
  assert (HU : U * U = 79).
  { subst U. cbn [num_sqrt R_Sqrt]. rewrite sqrt_sqrt; at_reals; lra. }
  destruct (LiuVinokur_12_lmbda U HU HUpos) as [Hcubic Hl].
  cbv zeta in Hcubic, Hl.
  assert (Hlmbda : lmbda
                   = 4 / 27 * (4 * U * cos ((acos (67 * U / 24964) + 2 * PI) / 3) + 71)).
  { subst lmbda. at_reals.
    replace (67 * / 1 * U / (249640 * / 10)) with (67 * U / 24964) by field.
    replace ((acos (67 * U / 24964) + 2 * / 1 * PI) / (30 * / 10))
      with ((acos (67 * U / 24964) + 2 * PI) / 3) by field.
    field. }
  rewrite <- Hlmbda in Hcubic, Hl. clearbody lmbda. clear Hlmbda.
  assert (HD : 0 < 9 * (lmbda * lmbda) - 248 * lmbda + 1680) by nra.
  assert (HVpos : 0 < V).
  { subst V. cbn [num_sqrt R_Sqrt]. apply sqrt_lt_R0.
    at_reals. cbn [num_pow num_mul R_Num]. lra. }
  assert (HV : V * V = 9 * (lmbda * lmbda) - 248 * lmbda + 1680).
  { subst V. cbn [num_sqrt R_Sqrt]. rewrite sqrt_sqrt;
      at_reals; cbn [num_pow num_mul R_Num]; lra. }
  clearbody V.
  pose proof (LiuVinokur_12_algebra lmbda V Hcubic Hl HV HVpos) as Halg.
  cbv zeta in Halg. at_reals. cbn [num_pow num_mul R_Num].
  match goal with
  | |- Rabs (?e - 1) <= _ => replace e with 1%R
  end.
  - replace (1 - 1) with 0 by ring. rewrite Rabs_R0. lra.
  - etransitivity; [ symmetry; exact Halg | ].
    field. repeat split; try lra; intros H0; nra.
Qed.

End LiuVinokurAlgebra.

Lemma LiuVinokur_weights (index : Z) :
  (1 <= index <= 14)%Z ->
  exists s, LiuVinokur (F:=R) index = Return s
            /\ weights_sum_to 1 table_tolerance s.
Proof.
  intros Hin.
  assert (Hcases : (index = 1 \/ index = 2 \/ index = 3 \/ index = 4
                    \/ index = 5 \/ index = 6 \/ index = 7 \/ index = 8
                    \/ index = 9 \/ index = 10 \/ index = 11 \/ index = 12
                    \/ index = 13 \/ index = 14)%Z) by lia.
  repeat (destruct Hcases as [ -> | Hcases ];
          [ first [ table_case
                  | exact LiuVinokur_8_weights
                  | exact LiuVinokur_12_weights ] | ]).
  subst. table_case.
Qed.

(** *** The n-cube *)

Lemma untangle_broadcast {F : Type} `{Num F}
      (w : F) (pts : list (list F)) (data : list (NCube.weight_spec * list (list F)))
      (points : list (list F)) (ws : list F) :
  NCube.untangle data = Return (points, ws) ->
  NCube.untangle ((NCube.Broadcast w, pts) :: data)
  = Return (pts ++ points, repeat w (length pts) ++ ws).
Proof.
  unfold NCube.untangle. cbn [mapM fst snd bind map concat].
  destruct (mapM _ data) as [ e | l ]; cbn [bind]; [ discriminate | ].
  intros Heq. injection Heq as <- <-. reflexivity.
Qed.

Lemma untangle_nil {F : Type} `{Num F} :
  NCube.untangle (F:=F) [] = Return ([], []).
Proof. reflexivity. Qed.

Lemma stroud_1957_2_weights
      (_s : nat -> R -> R -> list (list R)) (n : nat) :
  (forall a b a' b', length (_s n a b) = length (_s n a' b')) ->
  exists s, NCube.stroud_1957_2 _s n = Return s
            /\ sumR (NCube.weights s) = (2 ^ n)%R.
Proof.
  intros H_s. unfold NCube.stroud_1957_2.
  rewrite (untangle_broadcast _ _ _ _ _
             (untangle_broadcast _ _ _ _ _
                (untangle_broadcast _ _ _ _ _ untangle_nil))).
  cbn [bind]. eexists. split; [ reflexivity | ].
  cbn [NCube.weights]. unfold NCube.rescale.
  change (fun w : R => (w * of_int (2 ^ Z.of_nat n))%num)
    with (fun w : R => (w * of_int (F:=R) (2 ^ Z.of_nat n))%R).
  rewrite sumR_map_mul, !sumR_app, !sumR_repeat, of_int_R, two_pow_R.
  rewrite (H_s (- lit 1)%num _ (lit 1) (num_sqrt (lit 3) / lit 6)%num).
  cbn [length INR sumR fold_right num_neg R_Num]. at_reals. field.
Qed.

Lemma stroud_1957_3_weights (n : nat) :
  (1 <= n)%nat ->
  exists s, NCube.stroud_1957_3 (F:=R) n = Return s
            /\ sumR (NCube.weights s) = (2 ^ n)%R.
Proof.
  intros Hn.
  destruct (stroud_1957_3_shape n Hn) as [s [Hs [_ Hweights]]].
  exists s. split; [ exact Hs | ].
  rewrite Hweights, sumR_repeat. field. apply not_0_INR. lia.
Qed.



Lemma one_coordinate_orbit_length {F : Type} (n : nat) (a b : F) :
  length (one_coordinate_orbit n a b) = n.
Proof.
  unfold one_coordinate_orbit. now rewrite length_map, length_seq.
Qed.


(** ** The weights of the Newton-Cotes rules *)

Section Operators.
Context {T : Type}.
Local Open Scope R_scope.
Implicit Types (J a b : T -> R) (U V : (T -> R) -> (T -> R)).

Ltac pointwise :=
  apply functional_extensionality; intros ?m;
  unfold oplus, lower; unfold fadd, fsub, fscale.

Lemma sumR_seq_last (f : nat -> R) (N : nat) :
  sumR (map f (seq 0 (S N))) = sumR (map f (seq 0 N)) + f N.
Proof.
  rewrite seq_S, map_app, sumR_app. cbn [map sumR fold_right Nat.add]. ring.
Qed.

Lemma sumR_seq_first (f : nat -> R) (N : nat) :
  sumR (map f (seq 0 (S N))) = f O + sumR (map (fun j => f (S j)) (seq 0 N)).
Proof.
  cbn [seq map sumR fold_right]. rewrite <- seq_shift, map_map. reflexivity.
Qed.

Lemma sumR_map_plus {A : Type} (f g : A -> R) (l : list A) :
  sumR (map (fun j => f j + g j) l) = sumR (map f l) + sumR (map g l).
Proof.
  induction l as [ | x l IH ]; cbn [map sumR fold_right].
  - ring.
  - unfold sumR in IH. rewrite IH. ring.
Qed.

Lemma sumR_map_scale {A : Type} (s : R) (f : A -> R) (l : list A) :
  sumR (map (fun j => s * f j) l) = s * sumR (map f l).
Proof.
  induction l as [ | x l IH ]; cbn [map sumR fold_right].
  - ring.
  - unfold sumR in IH. rewrite IH. ring.
Qed.

Lemma sumR_map_ext_in {A : Type} (f g : A -> R) (l : list A) :
  (forall j, In j l -> f j = g j) -> sumR (map f l) = sumR (map g l).
Proof.
  intros Hfg. f_equal. now apply map_ext_in.
Qed.

Lemma linear_sub U a b : linear U -> U (fsub a b) = fsub (U a) (U b).
Proof.
  intros [Hadd Hscale].
  replace (fsub a b) with (fadd a (fscale (-1) b)) by (pointwise; ring).
  rewrite Hadd, Hscale. pointwise. ring.
Qed.

Lemma linear_zero U : linear U -> U (fun _ => 0) = (fun _ => 0).
Proof.
  intros [Hadd Hscale].
  replace (fun _ : T => 0) with (fscale 0 (fun _ : T => 0)) at 1 by (pointwise; ring).
  rewrite Hscale. pointwise. ring.
Qed.

Lemma linear_sum U (f : nat -> T -> R) (l : list nat) :
  linear U ->
  U (fun m => sumR (map (fun j => f j m) l))
  = fun m => sumR (map (fun j => U (f j) m) l).
Proof.
  intros HU. induction l as [ | x l IH ].
  - cbn [map sumR fold_right]. now apply linear_zero.
  - cbn [map sumR fold_right].
    change (fun m => f x m + fold_right Rplus 0 (map (fun j => f j m) l))
      with (fadd (f x) (fun m => sumR (map (fun j => f j m) l))).
    destruct HU as [Hadd Hscale]. rewrite Hadd, IH. reflexivity.
Qed.

Lemma lower_linear U k : linear U -> linear (lower U k).
Proof.
  intros [Hadd Hscale]. split.
  - intros a b. unfold lower. rewrite Hadd. pointwise. ring.
  - intros s a. unfold lower. rewrite Hscale. pointwise. ring.
Qed.

Lemma falling_linear U N : linear U -> linear (falling U N).
Proof.
  intros HU. unfold falling. induction (seq 0 N) as [ | k l [IHadd IHscale] ].
  - split; reflexivity.
  - pose proof (lower_linear U k HU) as [Hadd Hscale].
    split; intros; cbn [fold_right].
    + now rewrite IHadd, Hadd.
    + now rewrite IHscale, Hscale.
Qed.

Lemma binom_linear U N : linear U -> linear (binom U N).
Proof.
  intros HU. pose proof (falling_linear U N HU) as [Hadd Hscale].
  unfold binom. split; intros.
  - rewrite Hadd. pointwise. ring.
  - rewrite Hscale. pointwise. ring.
Qed.

Lemma oplus_linear U V : linear U -> linear V -> linear (oplus U V).
Proof.
  intros [HUa HUs] [HVa HVs]. unfold oplus. split; intros.
  - rewrite HUa, HVa. pointwise. ring.
  - rewrite HUs, HVs. pointwise. ring.
Qed.

(** Operators that commute with [U] commute with its falling factorials. *)
Lemma commute_lower U V k :
  linear V -> (forall J, V (U J) = U (V J)) ->
  forall J, V (lower U k J) = lower U k (V J).
Proof.
  intros HV HUV J. unfold lower.
  rewrite (linear_sub V) by assumption.
  destruct HV as [_ Hscale]. now rewrite Hscale, HUV.
Qed.

Lemma commute_falling U V N :
  linear V -> (forall J, V (U J) = U (V J)) ->
  forall J, V (falling U N J) = falling U N (V J).
Proof.
  intros HV HUV J. unfold falling.
  induction (seq 0 N) as [ | k l IH ]; [ reflexivity | ].
  cbn [fold_right]. now rewrite commute_lower, IH.
Qed.

Lemma commute_binom U V N :
  linear V -> (forall J, V (U J) = U (V J)) ->
  forall J, V (binom U N J) = binom U N (V J).
Proof.
  intros HV HUV J. unfold binom.
  destruct HV as [Hadd Hscale]. rewrite Hscale.
  now rewrite commute_falling by (try split; assumption).
Qed.

(** [(N + 1) binom U (N + 1) = (U - N) (binom U N)] *)
Lemma binom_step U N J :
  linear U ->
  fscale (INR (S N)) (binom U (S N) J) = lower U N (binom U N J).
Proof.
  intros HU. unfold binom.
  assert (Hfall : falling U (S N) J = lower U N (falling U N J)).
  { unfold falling at 1. rewrite seq_S, fold_right_app. cbn [fold_right Nat.add].
    fold (falling U N (lower U N J)).
    symmetry. apply commute_falling.
    - now apply lower_linear.
    - intros K. symmetry. apply commute_lower; [ assumption | reflexivity ]. }
  rewrite Hfall.
  pose proof (lower_linear U N HU) as [_ Hscale]. rewrite Hscale.
  pointwise. rewrite fact_simpl, mult_INR.
  field. split; apply not_0_INR; [ apply fact_neq_0 | lia ].
Qed.

(** Vandermonde's identity for two commuting linear operators. *)
Lemma vandermonde U V :
  linear U -> linear V -> (forall J, V (U J) = U (V J)) ->
  forall N J,
    binom (oplus U V) N J
    = fsum_upto (fun j => binom U j (binom V (N - j) J)) N.
Proof.
  intros HU HV HUV N. induction N as [ | N IH ]; intros J.
  - unfold fsum_upto, binom, falling. cbn [seq map sumR fold_right fact INR Nat.sub].
    pointwise. field.
  - assert (HW : linear (oplus U V)) by now apply oplus_linear.
    assert (Hscaled :
              fscale (INR (S N)) (binom (oplus U V) (S N) J)
              = fscale (INR (S N))
                  (fsum_upto (fun j => binom U j (binom V (S N - j) J)) (S N))).
    { rewrite binom_step by assumption. rewrite IH.
      unfold fsum_upto.
      rewrite (linear_sum (lower (oplus U V) N)) by now apply lower_linear.
      apply functional_extensionality. intros m. unfold fscale.
      (* the left-hand side, term by term *)
      rewrite (sumR_map_ext_in _
                 (fun j => INR (S j) * binom U (S j) (binom V (N - j) J) m
                           + INR (S N - j) * binom U j (binom V (S N - j) J) m)).
      2:{ intros j Hj. apply in_seq in Hj.
          change (fun m0 : T => binom U j (binom V (N - j) J) m0)
            with (binom U j (binom V (N - j) J)).
          replace (lower (oplus U V) N (binom U j (binom V (N - j) J)))
            with (fadd (lower U j (binom U j (binom V (N - j) J)))
                       (lower V (N - j) (binom U j (binom V (N - j) J)))).
          2:{ pointwise. replace (INR N) with (INR j + INR (N - j)).
              - ring.
              - rewrite <- plus_INR. f_equal. lia. }
          rewrite <- binom_step by assumption.
          rewrite <- (commute_lower V (binom U j) (N - j)).
          2:{ now apply binom_linear. }
          2:{ intros K. symmetry. apply commute_binom; assumption. }
          rewrite <- binom_step by assumption.
          pose proof (binom_linear U j HU) as [_ Hscale]. rewrite Hscale.
          unfold fadd, fscale.
          replace (S (N - j)) with (S N - j)%nat by lia. reflexivity. }
      rewrite sumR_map_plus.
      (* the right-hand side, split in two *)
      rewrite <- sumR_map_scale.
      rewrite (sumR_map_ext_in
                 (fun j => INR (S N) * binom U j (binom V (S N - j) J) m)
                 (fun j => INR j * binom U j (binom V (S N - j) J) m
                           + INR (S N - j) * binom U j (binom V (S N - j) J) m)).
      2:{ intros j Hj. apply in_seq in Hj.
          replace (INR (S N)) with (INR j + INR (S N - j)).
          - ring.
          - rewrite <- plus_INR. f_equal. lia. }
      rewrite sumR_map_plus.
      rewrite (sumR_seq_first (fun j => INR j * _)).
      rewrite (sumR_seq_last (fun j => INR (S N - j) * _) (S N)).
      replace (S N - S N)%nat with O by lia. change (INR 0) with 0.
      cbn [Nat.sub]. ring. }
    apply functional_extensionality. intros m.
    apply (f_equal (fun f => f m)) in Hscaled. unfold fscale in Hscaled.
    apply (Rmult_eq_reg_l (INR (S N))); [ exact Hscaled | ].
    apply not_0_INR. lia.
Qed.

End Operators.


Section PolynomialAction.
Local Open Scope R_scope.
Implicit Types (J : monomial -> R) (P Q : poly (F:=R)) (m : monomial).

Ltac pointwise :=
  apply functional_extensionality; intros ?m;
  unfold node, oplus, lower; unfold fadd, fsub, fscale.

Lemma monomial_mul_assoc_comm (a b m : monomial) :
  monomial_mul (monomial_mul a b) m = monomial_mul b (monomial_mul a m).
Proof.
  destruct a as [[[a0 a1] a2] a3], b as [[[b0 b1] b2] b3],
           m as [[[m0 m1] m2] m3].
  cbn [monomial_mul].
  apply f_equal2; [ apply f_equal2; [ apply f_equal2 | ] | ]; lia.
Qed.

Lemma monomial_mul_swap (a b m : monomial) :
  monomial_mul a (monomial_mul b m) = monomial_mul b (monomial_mul a m).
Proof.
  destruct a as [[[a0 a1] a2] a3], b as [[[b0 b1] b2] b3],
           m as [[[m0 m1] m2] m3].
  cbn [monomial_mul].
  apply f_equal2; [ apply f_equal2; [ apply f_equal2 | ] | ]; lia.
Qed.

Lemma monomial_mul_one_l (m : monomial) :
  monomial_mul (0, 0, 0, 0)%nat m = m.
Proof.
  destruct m as [[[m0 m1] m2] m3]. reflexivity.
Qed.

Lemma monomial_mul_one_r (m : monomial) :
  monomial_mul m (0, 0, 0, 0)%nat = m.
Proof.
  destruct m as [[[m0 m1] m2] m3]. cbn [monomial_mul]. now rewrite !Nat.add_0_r.
Qed.

Lemma monomial_eqb_eq (a b : monomial) : monomial_eqb a b = true -> a = b.
Proof.
  destruct a as [[[a0 a1] a2] a3], b as [[[b0 b1] b2] b3].
  cbn [monomial_eqb]. rewrite !andb_true_iff, !Nat.eqb_eq.
  intros [[[-> ->] ->] ->]. reflexivity.
Qed.

Lemma act_nil J : act [] J = fun _ => 0.
Proof. reflexivity. Qed.

Lemma act_cons (t : monomial * R) P J :
  act (t :: P) J
  = fadd (fscale (snd t) (fun m => J (monomial_mul (fst t) m))) (act P J).
Proof. reflexivity. Qed.

Lemma act_add_term (a : monomial) (c : R) P J :
  act (add_term a c P) J
  = fadd (fscale c (fun m => J (monomial_mul a m))) (act P J).
Proof.
  induction P as [ | [a' c'] P IH ]; cbn [add_term].
  - rewrite !act_cons, act_nil. reflexivity.
  - destruct (monomial_eqb a a') eqn:Heq.
    + apply monomial_eqb_eq in Heq. subst a'.
      rewrite !act_cons. cbn [fst snd num_add R_Num]. pointwise. ring.
    + rewrite !act_cons, IH. cbn [fst snd]. pointwise. ring.
Qed.

Lemma act_linear P : linear (act P).
Proof.
  split.
  - intros a b. induction P as [ | t P IH ].
    + rewrite !act_nil. pointwise. ring.
    + rewrite !act_cons, IH. pointwise. ring.
  - intros s a. induction P as [ | t P IH ].
    + rewrite !act_nil. pointwise. ring.
    + rewrite !act_cons, IH. pointwise. ring.
Qed.

Lemma act_poly_mul P Q J : act (poly_mul P Q) J = act P (act Q J).
Proof.
  unfold poly_mul.
  assert (Hinner : forall (t : monomial * R) Q acc,
             act (fold_left
                    (fun acc' t' =>
                       add_term (monomial_mul (fst t) (fst t'))
                                (snd t * snd t')%num acc')
                    Q acc) J
             = fadd (act acc J)
                    (fscale (snd t) (fun m => act Q J (monomial_mul (fst t) m)))).
  { intros t Q0. induction Q0 as [ | t' Q0 IH ]; intros acc; cbn [fold_left].
    - rewrite act_nil. pointwise. ring.
    - rewrite IH, act_add_term, act_cons. cbn [num_mul R_Num]. pointwise.
      rewrite monomial_mul_assoc_comm. ring. }
  assert (Houter : forall P acc,
             act (fold_left
                    (fun acc t =>
                       fold_left
                         (fun acc' t' =>
                            add_term (monomial_mul (fst t) (fst t'))
                                     (snd t * snd t')%num acc')
                         Q acc)
                    P acc) J
             = fadd (act acc J) (act P (act Q J))).
  { intros P0. induction P0 as [ | t P0 IH ]; intros acc; cbn [fold_left].
    - rewrite act_nil. pointwise. ring.
    - rewrite IH, Hinner, act_cons. pointwise. ring. }
  rewrite Houter, act_nil. pointwise. ring.
Qed.

Lemma act_poly_one J : act poly_one J = J.
Proof.
  unfold poly_one. rewrite act_cons, act_nil. cbn [fst snd].
  pointwise. rewrite monomial_mul_one_l. at_reals. field.
Qed.

Lemma act_poly_prod (l : list (poly (F:=R))) J :
  act (poly_prod l) J = fold_right act J l.
Proof.
  unfold poly_prod.
  assert (Hacc : forall l acc,
             act (fold_left poly_mul l acc) J = act acc (fold_right act J l)).
  { intros l0. induction l0 as [ | L l0 IH ]; intros acc; cbn [fold_left fold_right].
    - reflexivity.
    - now rewrite IH, act_poly_mul. }
  now rewrite Hacc, act_poly_one.
Qed.

(** The weight of a polynomial is its action on the moments, at the
    monomial 1. *)
Lemma total_sumR (l : list R) : total l = sumR l.
Proof.
  unfold total, sumR. rewrite <- fold_left_rev_right.
  cbn [lit R_Num num_add].
  replace (Q2R 0) with 0 by (unfold Q2R; cbn; field).
  rewrite <- (rev_involutive l) at 2.
  induction (rev l) as [ | x r IH ]; [ reflexivity | ].
  cbn [fold_right rev]. rewrite fold_right_app. cbn [fold_right].
  rewrite IH.
  clear IH. generalize (rev r). intros l0.
  induction l0 as [ | y l0 IH ]; cbn [fold_right]; [ ring | ].
  rewrite <- IH. ring.
Qed.

Lemma monomial_integral_moment (t : monomial * R) :
  monomial_integral t = snd t * simplex_moment (fst t).
Proof.
  destruct t as [[[[m0 m1] m2] m3] c].
  unfold monomial_integral, simplex_moment. cbn [fst snd].
  cbn [num_mul num_div R_Num]. rewrite !of_nat_R. at_reals.
  field. apply not_0_INR, fact_neq_0.
Qed.

Lemma weight_act P :
  total (map monomial_integral P) = act P simplex_moment (0, 0, 0, 0)%nat.
Proof.
  rewrite total_sumR. unfold act. f_equal.
  apply map_ext. intros t.
  now rewrite monomial_integral_moment, monomial_mul_one_r.
Qed.

End PolynomialAction.


Section NewtonCotesSum.
Local Open Scope R_scope.
Implicit Types (J : monomial -> R).

Ltac pointwise :=
  apply functional_extensionality; intros ?m;
  unfold node, oplus, lower, shift; unfold fadd, fsub, fscale; unfold prodR.

Lemma shift_commute (v v' : nat) J : shift v (shift v' J) = shift v' (shift v J).
Proof.
  pointwise. now rewrite monomial_mul_swap.
Qed.

Lemma node_linear (c d : R) (v : nat) : linear (node c d v).
Proof.
  split; intros; pointwise; ring.
Qed.

Lemma node_commute (c d : R) (v v' : nat) J :
  node c d v (node c d v' J) = node c d v' (node c d v J).
Proof.
  pointwise. rewrite (monomial_mul_swap (var v') (var v)). ring.
Qed.

Lemma oplus_commute (U V W : (monomial -> R) -> monomial -> R) :
  linear U ->
  (forall J, V (U J) = U (V J)) -> (forall J, W (U J) = U (W J)) ->
  forall J, oplus V W (U J) = U (oplus V W J).
Proof.
  intros [Hadd _] HV HW J. unfold oplus. now rewrite HV, HW, Hadd.
Qed.

Lemma prodR_falling (b a : nat) :
  prodR (map (fun k => INR (a + b) - INR k) (seq a b)) = INR (fact b).
Proof.
  revert a. induction b as [ | b IH ]; intros a.
  - cbn. reflexivity.
  - cbn [seq map prodR fold_right].
    replace (a + S b)%nat with (S a + b)%nat by lia.
    fold (prodR (map (fun k => INR (S a + b) - INR k) (seq (S a) b))).
    rewrite IH, fact_simpl, mult_INR.
    replace (S a + b)%nat with (a + S b)%nat by lia.
    rewrite plus_INR. ring.
Qed.

Lemma prodR_factorial (n : nat) :
  prodR (map (fun k => INR n - INR k) (seq 0 n)) = INR (fact n).
Proof. exact (prodR_falling n 0). Qed.

Lemma prodR_inv (l : list R) :
  Forall (fun x => x <> 0) l -> prodR (map Rinv l) = / prodR l.
Proof.
  induction 1 as [ | x l Hx Hl IH ]; cbn [map prodR fold_right].
  - now rewrite Rinv_1.
  - unfold prodR in IH. rewrite IH, Rinv_mult. reflexivity.
Qed.

(** Scalars move out of a product of operators. *)
Lemma fold_right_scale (U : (monomial -> R) -> monomial -> R)
      (s : nat -> R) (l : list nat) J :
  linear U ->
  fold_right (fun k acc => fscale (s k) (lower U k acc)) J l
  = fscale (prodR (map s l)) (fold_right (fun k acc => lower U k acc) J l).
Proof.
  intros HU. induction l as [ | k l IH ]; cbn [fold_right map prodR].
  - pointwise. ring.
  - rewrite IH. pose proof (lower_linear U k HU) as [_ Hscale].
    rewrite Hscale. pointwise. ring.
Qed.

Lemma fold_right_map_fold {A B C : Type} (f : B -> C -> C) (g : A -> B)
      (c : C) (l : list A) :
  fold_right f c (map g l) = fold_right (fun x acc => f (g x) acc) c l.
Proof.
  induction l as [ | x l IH ]; [ reflexivity | ].
  cbn [map fold_right]. now rewrite IH.
Qed.

Lemma fold_right_ext_in {A B : Type} (f g : A -> B -> B) (b : B) (l : list A) :
  (forall a acc, In a l -> f a acc = g a acc) ->
  fold_right f b l = fold_right g b l.
Proof.
  intros Hfg. induction l as [ | a l IH ]; [ reflexivity | ].
  cbn [fold_right]. rewrite IH.
  - apply Hfg. now left.
  - intros a' acc Hin. apply Hfg. now right.
Qed.

(** An eigenfunction of [U] is one of its falling factorials. *)
Lemma falling_eigen (U : (monomial -> R) -> monomial -> R) (x : R) (N : nat) J :
  linear U -> U J = fscale x J ->
  falling U N J = fscale (prodR (map (fun k => x - INR k) (seq 0 N))) J.
Proof.
  intros [_ Hscale] HJ. unfold falling.
  induction (seq 0 N) as [ | k l IH ]; cbn [fold_right map prodR].
  - pointwise. ring.
  - rewrite IH. unfold lower. rewrite Hscale, HJ. pointwise. ring.
Qed.

(** The moments of the tetrahedron: the four variables add up to 1. *)
Lemma simplex_moment_sum :
  fadd (shift 0 simplex_moment)
       (fadd (shift 1 simplex_moment)
             (fadd (shift 2 simplex_moment) (shift 3 simplex_moment)))
  = simplex_moment.
Proof.
  apply functional_extensionality. intros [[[m0 m1] m2] m3].
  unfold fadd, shift, simplex_moment, var, monomial_mul.
  replace (1 + m0 + (0 + m1) + (0 + m2) + (0 + m3) + 3)%nat
    with (S (m0 + m1 + m2 + m3 + 3)) by lia.
  replace (0 + m0 + (1 + m1) + (0 + m2) + (0 + m3) + 3)%nat
    with (S (m0 + m1 + m2 + m3 + 3)) by lia.
  replace (0 + m0 + (0 + m1) + (1 + m2) + (0 + m3) + 3)%nat
    with (S (m0 + m1 + m2 + m3 + 3)) by lia.
  replace (0 + m0 + (0 + m1) + (0 + m2) + (1 + m3) + 3)%nat
    with (S (m0 + m1 + m2 + m3 + 3)) by lia.
  cbn [Nat.add].
  rewrite !fact_simpl, !mult_INR, !S_INR, !plus_INR.
  replace (INR 3) with 3 by (cbn [INR]; lra).
  pose proof (INR_fact_lt_0 (m0 + m1 + m2 + m3 + 3)) as Hpos.
  pose proof (pos_INR m0). pose proof (pos_INR m1).
  pose proof (pos_INR m2). pose proof (pos_INR m3).
  field. split; lra.
Qed.

Lemma simplex_moment_one : simplex_moment (0, 0, 0, 0)%nat = 1.
Proof.
  unfold simplex_moment. cbn [fact Nat.add Nat.mul]. cbn [INR]. field.
Qed.

Section Nodes.
Variables (point_fun : nat -> nat -> R) (c d : R) (n : nat).
Hypothesis Hc : c <> 0.
Hypothesis Hpoint : forall k, point_fun k n = (INR k + d) / c.
Hypothesis Hdegree : c - 4 * d = INR n.

Lemma act_linear_factor (v m k : nat) J :
  (k < m)%nat ->
  act (linear_factor point_fun v m k n) J
  = fscale (/ (INR m - INR k)) (lower (node c d v) k J).
Proof.
  intros Hkm. unfold linear_factor. rewrite !act_cons, act_nil.
  cbn [fst snd]. pointwise.
  rewrite monomial_mul_one_l, !Hpoint.
  cbn [num_div num_sub num_neg lit R_Num]. at_reals.
  apply lt_INR in Hkm.
  field. split; lra.
Qed.

Lemma act_get_poly (v m : nat) J :
  act (get_poly point_fun v m n) J = binom (node c d v) m J.
Proof.
  unfold get_poly. rewrite act_poly_prod, fold_right_map_fold.
  rewrite (fold_right_ext_in _
             (fun k acc => fscale (/ (INR m - INR k)) (lower (node c d v) k acc))).
  2:{ intros k acc Hk. apply in_seq in Hk. apply act_linear_factor. lia. }
  rewrite fold_right_scale by apply node_linear.
  unfold binom, falling. f_equal.
  rewrite <- (map_map (fun k => INR m - INR k) Rinv).
  rewrite prodR_inv.
  - f_equal. apply prodR_factorial.
  - apply Forall_map, Forall_forall. intros k Hk. apply in_seq in Hk.
    assert (Hlt : INR k < INR m) by (apply lt_INR; lia). lra.
Qed.


Lemma all_nodes_linear : linear (all_nodes c d).
Proof.
  unfold all_nodes.
  apply oplus_linear; [ apply node_linear | ].
  apply oplus_linear; [ apply node_linear | ].
  apply oplus_linear; apply node_linear.
Qed.

Lemma all_nodes_moment : all_nodes c d simplex_moment = fscale (INR n) simplex_moment.
Proof.
  unfold all_nodes. rewrite <- Hdegree. pointwise.
  pose proof (f_equal (fun f => f m) simplex_moment_sum) as Hsum.
  unfold fadd, shift in Hsum. rewrite <- Hsum. ring.
Qed.

Lemma binom_all_nodes : binom (all_nodes c d) n simplex_moment = simplex_moment.
Proof.
  unfold binom.
  rewrite (falling_eigen (all_nodes c d) (INR n)).
  - rewrite prodR_factorial. pointwise. field.
    apply not_0_INR, fact_neq_0.
  - apply all_nodes_linear.
  - apply all_nodes_moment.
Qed.

Lemma weight_binom (i j k l : nat) :
  total (map monomial_integral
           (poly_mul (poly_mul (poly_mul (get_poly point_fun 0 i n)
                                         (get_poly point_fun 1 j n))
                               (get_poly point_fun 2 k n))
                     (get_poly point_fun 3 l n)))
  = binom (node c d 0) i
      (binom (node c d 1) j
         (binom (node c d 2) k (binom (node c d 3) l simplex_moment)))
      (0, 0, 0, 0)%nat.
Proof.
  now rewrite weight_act, !act_poly_mul, !act_get_poly.
Qed.

Lemma vandermonde_23 (N : nat) J :
  binom (oplus (node c d 2) (node c d 3)) N J
  = fsum_upto (fun k => binom (node c d 2) k (binom (node c d 3) (N - k) J)) N.
Proof.
  apply vandermonde; try apply node_linear. intros K. apply node_commute.
Qed.

Lemma vandermonde_123 (N : nat) J :
  binom (oplus (node c d 1) (oplus (node c d 2) (node c d 3))) N J
  = fsum_upto
      (fun j => binom (node c d 1) j
                  (binom (oplus (node c d 2) (node c d 3)) (N - j) J)) N.
Proof.
  apply vandermonde.
  - apply node_linear.
  - apply oplus_linear; apply node_linear.
  - apply oplus_commute; [ apply node_linear | | ];
      intros K; apply node_commute.
Qed.

Lemma vandermonde_0123 (N : nat) J :
  binom (all_nodes c d) N J
  = fsum_upto
      (fun i => binom (node c d 0) i
                  (binom (oplus (node c d 1)
                                (oplus (node c d 2) (node c d 3))) (N - i) J)) N.
Proof.
  apply vandermonde.
  - apply node_linear.
  - apply oplus_linear; [ apply node_linear | ].
    apply oplus_linear; apply node_linear.
  - apply oplus_commute; [ apply node_linear | | ].
    + intros K. apply node_commute.
    + apply oplus_commute; [ apply node_linear | | ];
        intros K; apply node_commute.
Qed.

Lemma sumR_map_flat_map {A B : Type} (g : B -> R) (f : A -> list B) (l : list A) :
  sumR (map g (flat_map f l)) = sumR (map (fun x => sumR (map g (f x))) l).
Proof.
  induction l as [ | x l IH ]; [ reflexivity | ].
  cbn [flat_map map]. rewrite map_app, sumR_app, IH. reflexivity.
Qed.

(** The weights of the rule of order [n] add up to 1. *)
Lemma newton_cotes_weights_sum :
  sumR (map (fun '(i, j, k, l) =>
               total (map monomial_integral
                        (poly_mul (poly_mul (poly_mul (get_poly point_fun 0 i n)
                                                      (get_poly point_fun 1 j n))
                                            (get_poly point_fun 2 k n))
                                  (get_poly point_fun 3 l n))))
            (lattice n))
  = 1.
Proof.
  transitivity (binom (all_nodes c d) n simplex_moment (0, 0, 0, 0)%nat).
  2:{ now rewrite binom_all_nodes, simplex_moment_one. }
  rewrite vandermonde_0123. unfold fsum_upto, lattice.
  rewrite sumR_map_flat_map.
  replace (n + 1)%nat with (S n) by lia.
  apply sumR_map_ext_in. intros i Hi. apply in_seq in Hi.
  rewrite vandermonde_123. unfold fsum_upto.
  rewrite (linear_sum (binom (node c d 0) i))
    by apply binom_linear, node_linear.
  rewrite sumR_map_flat_map.
  replace (S n - i)%nat with (S (n - i)) by lia.
  apply sumR_map_ext_in. intros j Hj. apply in_seq in Hj.
  rewrite vandermonde_23. unfold fsum_upto.
  rewrite (linear_sum (binom (node c d 1) j))
    by apply binom_linear, node_linear.
  rewrite (linear_sum (binom (node c d 0) i))
    by apply binom_linear, node_linear.
  rewrite map_map.
  replace (S (n - i) - j)%nat with (S (n - i - j)) by lia.
  apply sumR_map_ext_in. intros k Hk.
  now rewrite weight_binom.
Qed.

End Nodes.
End NewtonCotesSum.


Section NewtonCotesSchemes.
Local Open Scope R_scope.

Lemma columns_123 {F : Type} (f : nat -> F) (L : list (nat * nat * nat * nat)) :
  columns [1; 2; 3]%nat
          (map (map f) (map (fun '(i, j, k, l) => [i; j; k; l]) L))
  = Return (map (fun '(i, j, k, l) => [f j; f k; f l]) L).
Proof.
  unfold columns. induction L as [ | [[[i j] k] l] L IH ]; [ reflexivity | ].
  cbn [map mapM pick nth_error bind]. rewrite IH. reflexivity.
Qed.

Lemma lattice_0 : lattice 0 = [(0, 0, 0, 0)%nat].
Proof. reflexivity. Qed.

Lemma NewtonCotesClosed_sum (n : nat) :
  exists s, NewtonCotesClosed (F:=R) n = Return s /\ sumR (weights s) = 1.
Proof.
  unfold NewtonCotesClosed, _newton_cotes.
  rewrite columns_123. cbn [bind].
  destruct (Nat.eqb_spec n 0) as [ -> | Hn ].
  - eexists. split; [ reflexivity | ]. cbn [weights]. apply (sumR_ones 1).
  - eexists. split; [ reflexivity | ]. cbn [weights].
    apply (newton_cotes_weights_sum _ (INR n) 0).
    + apply not_0_INR. exact Hn.
    + intros k. unfold closed_point_fun. cbn [num_div R_Num].
      rewrite !of_nat_R. f_equal. ring.
    + ring.
Qed.

Lemma NewtonCotesOpen_sum (n : nat) :
  exists s, NewtonCotesOpen (F:=R) n = Return s /\ sumR (weights s) = 1.
Proof.
  unfold NewtonCotesOpen, _newton_cotes.
  rewrite columns_123. cbn [bind].
  destruct (Nat.eqb_spec n 0) as [ -> | Hn ].
  - eexists. split; [ reflexivity | ]. cbn [weights]. apply (sumR_ones 1).
  - eexists. split; [ reflexivity | ]. cbn [weights].
    apply (newton_cotes_weights_sum _ (INR (n + 4)) 1).
    + apply not_0_INR. lia.
    + intros k. unfold open_point_fun. cbn [num_div R_Num].
      rewrite !of_nat_R, plus_INR. reflexivity.
    + rewrite plus_INR. cbn [INR]. ring.
Qed.


End NewtonCotesSchemes.

(** ** The arithmetic of the Newton-Cotes polynomials *)




(** * Further properties of the code *)

(** ** The orbits as sets of arrangements *)

Lemma Permutation_select {A : Type} (x : A) (l L : list A) :
  Permutation (x :: l) L ->
  exists l1 l2, L = l1 ++ x :: l2 /\ Permutation l (l1 ++ l2).
Proof.
  intro HP.
  assert (Hin : In x L) by (apply (Permutation_in _ HP); left; reflexivity).
  destruct (in_split _ _ Hin) as [l1 [l2 ->]].
  exists l1, l2. split; [ reflexivity | ].
  now apply Permutation_cons_app_inv in HP.
Qed.

Lemma select_of_two {A : Type} (x a b : A) (l : list A) :
  Permutation (x :: l) [a; b] ->
  (x = a /\ l = [b]) \/ (x = b /\ l = [a]).
Proof.
  intro HP. apply Permutation_select in HP.
  destruct HP as [l1 [l2 [E P]]].
  destruct l1 as [ | y1 [ | y2 l1 ] ]; cbn [app] in E, P.
  - injection E as <- <-. left. split; [ reflexivity | ].
    symmetry in P. now apply Permutation_length_1_inv in P.
  - injection E as <- <- <-. right. split; [ reflexivity | ].
    symmetry in P. now apply Permutation_length_1_inv in P.
  - destruct l1; discriminate E.
Qed.

Lemma select_of_three {A : Type} (x a b c : A) (l : list A) :
  Permutation (x :: l) [a; b; c] ->
  (x = a /\ Permutation l [b; c]) \/ (x = b /\ Permutation l [a; c])
  \/ (x = c /\ Permutation l [a; b]).
Proof.
  intro HP. apply Permutation_select in HP.
  destruct HP as [l1 [l2 [E P]]].
  destruct l1 as [ | y1 [ | y2 [ | y3 l1 ] ] ]; cbn [app] in E, P.
  - injection E as <- <-. auto.
  - injection E as <- <- <-. auto.
  - injection E as <- <- <- <-. auto.
  - destruct l1; discriminate E.
Qed.

Lemma select_of_four {A : Type} (x a b c d : A) (l : list A) :
  Permutation (x :: l) [a; b; c; d] ->
  (x = a /\ Permutation l [b; c; d]) \/ (x = b /\ Permutation l [a; c; d])
  \/ (x = c /\ Permutation l [a; b; d]) \/ (x = d /\ Permutation l [a; b; c]).
Proof.
  intro HP. apply Permutation_select in HP.
  destruct HP as [l1 [l2 [E P]]].
  destruct l1 as [ | y1 [ | y2 [ | y3 [ | y4 l1 ] ] ] ]; cbn [app] in E, P.
  - injection E as <- <-. auto.
  - injection E as <- <- <-. auto.
  - injection E as <- <- <- <-. auto.
  - injection E as <- <- <- <- <-. auto 6.
  - destruct l1; discriminate E.
Qed.

Ltac pick_row := cbn [In]; repeat first [ left; reflexivity | right ].

Lemma arrangements_of_four {A : Type} (a b c d : A) (row : list A) :
  Permutation row [a; b; c; d] ->
  In row
    [[a; b; c; d]; [a; b; d; c]; [a; c; b; d]; [a; c; d; b]; [a; d; b; c];
     [a; d; c; b]; [b; a; c; d]; [b; a; d; c]; [b; c; a; d]; [b; c; d; a];
     [b; d; a; c]; [b; d; c; a]; [c; a; b; d]; [c; a; d; b]; [c; b; a; d];
     [c; b; d; a]; [c; d; a; b]; [c; d; b; a]; [d; a; b; c]; [d; a; c; b];
     [d; b; a; c]; [d; b; c; a]; [d; c; a; b]; [d; c; b; a]].
Proof.
  intro HP.
  destruct row as [ | x [ | y row ] ];
    try (apply Permutation_length in HP; discriminate HP).
  apply select_of_four in HP.
  destruct HP as [ [-> HP] | [ [-> HP] | [ [-> HP] | [-> HP] ] ] ];
    apply select_of_three in HP;
    destruct HP as [ [-> HP] | [ [-> HP] | [-> HP] ] ];
    destruct row as [ | z row ];
    try (apply Permutation_length in HP; discriminate HP);
    apply select_of_two in HP;
    destruct HP as [ [-> ->] | [-> ->] ];
    pick_row.
Qed.

Ltac find_split x L :=
  lazymatch L with
  | x :: ?t => let A := type of x in constr:((@nil A, t))
  | ?y :: ?t =>
      let r := find_split x t in
      lazymatch r with
      | (?l1, ?l2) => constr:((y :: l1, l2))
      end
  end.

Ltac arrange :=
  idtac;
  lazymatch goal with
  | |- Permutation [] [] => apply perm_nil
  | |- Permutation (?x :: ?l) ?L =>
      let r := find_split x L in
      lazymatch r with
      | (?l1, ?l2) =>
          apply (Permutation_cons_app l1 l2 x); cbn [app]; arrange
      end
  end.

Ltac in_cases H tac :=
  cbn [In] in H;
  repeat (destruct H as [ <- | H ]; [ tac | ]);
  try contradiction.

Section Orbits.
Context {F : Type} `{Num F}.

(** X1. The rows of an orbit are the arrangements of its four barycentric
    coordinates: a row belongs to [_s31 a], [_s22 a], [_s211 a b] or
    [_s1111 a b c] exactly when it is a permutation of the orbit's first
    row.  This holds in every arithmetic. *)
Theorem orbit_rows_are_the_arrangements (a b c : F) (row : list F) :
  (In row (_s31 a)
   <-> Permutation row [a; a; a; (lit 1.0 - lit 3 * a)%num])
  /\ (In row (_s22 a)
      <-> Permutation row [a; a; (lit 0.5 - a)%num; (lit 0.5 - a)%num])
  /\ (In row (_s211 a b)
      <-> Permutation row [a; a; b; (lit 1.0 - lit 2 * a - b)%num])
  /\ (In row (_s1111 a b c)
      <-> Permutation row [a; b; c; (lit 1.0 - a - b - c)%num]).
Proof.
  unfold _s31, _s22, _s211, _s1111.
  split; [ | split; [ | split ] ];
    (split;
     [ intro Hin; in_cases Hin arrange
     | intro HP; apply arrangements_of_four in HP;
       in_cases HP pick_row ]).
Qed.

(** X2. No orbit lists a point twice, as long as the coordinates that the
    orbit treats as different are different. *)
Theorem orbit_rows_are_distinct (a b c : F) :
  ((lit 1.0 - lit 3 * a)%num <> a -> NoDup (_s31 a))
  /\ ((lit 0.5 - a)%num <> a -> NoDup (_s22 a))
  /\ (a <> b -> (lit 1.0 - lit 2 * a - b)%num <> a ->
      (lit 1.0 - lit 2 * a - b)%num <> b -> NoDup (_s211 a b))
  /\ (a <> b -> a <> c -> b <> c -> (lit 1.0 - a - b - c)%num <> a ->
      (lit 1.0 - a - b - c)%num <> b -> (lit 1.0 - a - b - c)%num <> c ->
      NoDup (_s1111 a b c)).
Proof.
  unfold _s31, _s22, _s211, _s1111.
  split; [ | split; [ | split ] ]; intros;
    repeat (apply NoDup_cons;
            [ let E := fresh "E" in
              intro E; cbn [In] in E;
              repeat (destruct E as [ E | E ];
                      [ injection E as; congruence | ]);
              exact E
            | ]);
    apply NoDup_nil.
Qed.
End Orbits.

Lemma orbit_rows_are_distinct_witness :
  NoDup (_s31 (F:=R) (1 / 10)%R) /\ NoDup (_s22 (F:=R) (1 / 10)%R)
  /\ NoDup (_s211 (F:=R) (1 / 10)%R (1 / 5)%R)
  /\ NoDup (_s1111 (F:=R) (1 / 10)%R (1 / 5)%R (3 / 10)%R).
Proof.
  destruct (orbit_rows_are_distinct (F:=R) (1 / 10)%R (1 / 5)%R (3 / 10)%R)
    as [H31 [H22 [H211 H1111]]].
  split; [ | split; [ | split ] ].
  - apply H31. at_reals. lra.
  - apply H22. at_reals. lra.
  - apply H211; at_reals; lra.
  - apply H1111; at_reals; lra.
Defined.

(** ** The orbits of the elementary families *)

Section ElementaryOrbits.
Local Open Scope R_scope.

(** X3. The orbits of Hammer, Marlowe and Stroud and of Liu and Vinokur are the
    orbits [_s31], [_s22] and [_s211] in other parameters: [_r] and
    [_r_alpha] agree, [_r_alpha alpha] is [_s31 ((1 - alpha) / 4)] with its
    rows in the opposite order, [_r_beta beta] is [_s22 ((1 + 2 beta) / 4)]
    and [_r_gamma_delta gamma delta] is [_s211] at
    [(1 - gamma - delta) / 4] and [(1 + 3 gamma - delta) / 4]. *)
Theorem elementary_orbits_are_orbits (r alpha beta gamma delta : R) :
  _r r = _r_alpha r
  /\ _r_alpha alpha = rev (_s31 ((1 - alpha) / 4))
  /\ _r_beta beta = _s22 ((1 + 2 * beta) / 4)
  /\ _r_gamma_delta gamma delta
     = _s211 ((1 - gamma - delta) / 4) ((1 + 3 * gamma - delta) / 4).
Proof.
  unfold _r, _r_alpha, _r_beta, _r_gamma_delta, _s31, _s22, _s211.
  cbn [rev app]. at_reals.
  split; [ | split; [ | split ] ].
  all: repeat apply (f_equal2 (@cons _)); try reflexivity; lra.
Qed.

End ElementaryOrbits.

(** ** The tables *)

Section Tables.
Context {F : Type} `{Num F} `{Sqrt F} `{Trig F}.

Ltac out_of_table index :=
  repeat match goal with
         | |- context [(index =? ?k)%Z] =>
             destruct (Z.eqb_spec index k); [ lia | ]
         end;
  reflexivity.

(** X5. An index outside the table makes [Yu], [HammerMarloweStroud],
    [ZhangCuiLiu] and [ShunnHam] raise a [ValueError] with the family's
    message, in every arithmetic. *)
Theorem other_invalid_indices_raise (index : Z) :
  ((index < 1 \/ 5 < index)%Z ->
   Yu (F:=F) index = Raise (ValueError "Illegal closed Yu index"))
  /\ ((index < 1 \/ 3 < index)%Z ->
      HammerMarloweStroud (F:=F) index
      = Raise (ValueError "Illegal Hammer-Marlowe-Stroud index"))
  /\ ((index < 1 \/ 2 < index)%Z ->
      ZhangCuiLiu (F:=F) index = Raise (ValueError "Illegal Zhang index"))
  /\ ((index < 1 \/ 6 < index)%Z ->
      ShunnHam (F:=F) index = Raise (ValueError "Illegal Shunn-Ham index")).
Proof.
  split; [ | split; [ | split ] ]; intros Hout.
  - unfold Yu. out_of_table index.
  - unfold HammerMarloweStroud. out_of_table index.
  - unfold ZhangCuiLiu. out_of_table index.
  - unfold ShunnHam. out_of_table index.
Qed.

Ltac table_shape :=
  eexists; split;
  [ reflexivity
  | split; [ reflexivity | cbv [points]; repeat constructor ] ].

Ltac in_table Hin :=
  repeat (destruct Hin as [ -> | Hin ]; [ table_shape | ]);
  subst; table_shape.

Lemma Keast_shape (index : Z) :
  (0 <= index <= 10)%Z ->
  exists s, Keast (F:=F) index = Return s /\ well_shaped s.
Proof.
  intros Hin.
  assert (Hcases : (index = 0 \/ index = 1 \/ index = 2 \/ index = 3
                    \/ index = 4 \/ index = 5 \/ index = 6 \/ index = 7
                    \/ index = 8 \/ index = 9 \/ index = 10)%Z) by lia.
  in_table Hcases.
Qed.

Lemma Yu_shape (index : Z) :
  (1 <= index <= 5)%Z ->
  exists s, Yu (F:=F) index = Return s /\ well_shaped s.
Proof.
  intros Hin.
  assert (Hcases : (index = 1 \/ index = 2 \/ index = 3 \/ index = 4
                    \/ index = 5)%Z) by lia.
  in_table Hcases.
Qed.

Lemma LiuVinokur_shape (index : Z) :
  (1 <= index <= 14)%Z ->
  exists s, LiuVinokur (F:=F) index = Return s /\ well_shaped s.
Proof.
  intros Hin.
  assert (Hcases : (index = 1 \/ index = 2 \/ index = 3 \/ index = 4
                    \/ index = 5 \/ index = 6 \/ index = 7 \/ index = 8
                    \/ index = 9 \/ index = 10 \/ index = 11 \/ index = 12
                    \/ index = 13 \/ index = 14)%Z) by lia.
  in_table Hcases.
Qed.

Lemma ShunnHam_shape (index : Z) :
  (1 <= index <= 6)%Z ->
  exists s, ShunnHam (F:=F) index = Return s /\ well_shaped s.
Proof.
  intros Hin.
  assert (Hcases : (index = 1 \/ index = 2 \/ index = 3 \/ index = 4
                    \/ index = 5 \/ index = 6)%Z) by lia.
  in_table Hcases.
Qed.

Lemma HammerMarloweStroud_shape (index : Z) :
  (1 <= index <= 3)%Z ->
  exists s, HammerMarloweStroud (F:=F) index = Return s /\ well_shaped s.
Proof.
  intros Hin.
  assert (Hcases : (index = 1 \/ index = 2 \/ index = 3)%Z) by lia.
  in_table Hcases.
Qed.

Lemma Zienkiewicz_shape (index : Z) :
  (4 <= index <= 5)%Z ->
  exists s, Zienkiewicz (F:=F) index = Return s /\ well_shaped s.
Proof.
  intros Hin.
  assert (Hcases : (index = 4 \/ index = 5)%Z) by lia.
  in_table Hcases.
Qed.

Lemma ZhangCuiLiu_shape (index : Z) :
  (1 <= index <= 2)%Z ->
  exists s, ZhangCuiLiu (F:=F) index = Return s /\ well_shaped s.
Proof.
  intros Hin.
  assert (Hcases : (index = 1 \/ index = 2)%Z) by lia.
  in_table Hcases.
Qed.

(** X6. On every index of its table a constructor returns a scheme with one
    weight per point and three coordinates per point, in every
    arithmetic. *)
Theorem tabulated_schemes_are_well_shaped (index : Z) :
  ((0 <= index <= 10)%Z ->
   exists s, Keast (F:=F) index = Return s /\ well_shaped s)
  /\ ((1 <= index <= 5)%Z ->
      exists s, Yu (F:=F) index = Return s /\ well_shaped s)
  /\ ((1 <= index <= 14)%Z ->
      exists s, LiuVinokur (F:=F) index = Return s /\ well_shaped s)
  /\ ((1 <= index <= 6)%Z ->
      exists s, ShunnHam (F:=F) index = Return s /\ well_shaped s)
  /\ ((1 <= index <= 3)%Z ->
      exists s, HammerMarloweStroud (F:=F) index = Return s /\ well_shaped s)
  /\ ((4 <= index <= 5)%Z ->
      exists s, Zienkiewicz (F:=F) index = Return s /\ well_shaped s)
  /\ ((1 <= index <= 2)%Z ->
      exists s, ZhangCuiLiu (F:=F) index = Return s /\ well_shaped s).
Proof.
  repeat split.
  - apply Keast_shape.
  - apply Yu_shape.
  - apply LiuVinokur_shape.
  - apply ShunnHam_shape.
  - apply HammerMarloweStroud_shape.
  - apply Zienkiewicz_shape.
  - apply ZhangCuiLiu_shape.
Qed.
End Tables.

Lemma other_invalid_indices_raise_witness :
  Yu (F:=R) 0 = Raise (ValueError "Illegal closed Yu index")
  /\ HammerMarloweStroud (F:=R) 4
     = Raise (ValueError "Illegal Hammer-Marlowe-Stroud index")
  /\ ZhangCuiLiu (F:=R) 3 = Raise (ValueError "Illegal Zhang index")
  /\ ShunnHam (F:=R) 7 = Raise (ValueError "Illegal Shunn-Ham index").
Proof.
  destruct (other_invalid_indices_raise (F:=R) 0) as [HY _].
  destruct (other_invalid_indices_raise (F:=R) 4) as [_ [HH _]].
  destruct (other_invalid_indices_raise (F:=R) 3) as [_ [_ [HZ _]]].
  destruct (other_invalid_indices_raise (F:=R) 7) as [_ [_ [_ HS]]].
  split; [ apply HY; lia | ].
  split; [ apply HH; lia | ].
  split; [ apply HZ; lia | ].
  apply HS; lia.
Defined.

Lemma tabulated_schemes_are_well_shaped_witness :
  exists s, Keast (F:=R) 4 = Return s /\ well_shaped s.
Proof.
  destruct (tabulated_schemes_are_well_shaped (F:=R) 4) as [HK _].
  apply HK. lia.
Defined.

(** ** The lattice of the Newton-Cotes rules *)

Lemma NoDup_flat_map_disjoint {A B : Type} (f : A -> list B) (l : list A) :
  NoDup l ->
  (forall x, In x l -> NoDup (f x)) ->
  (forall x y z, In x l -> In y l -> In z (f x) -> In z (f y) -> x = y) ->
  NoDup (flat_map f l).
Proof.
  induction l as [ | a l IH ]; intros Hl Hf Hd; cbn [flat_map].
  - apply NoDup_nil.
  - inversion Hl as [ | ? ? Ha Hl' ]; subst.
    apply NoDup_app.
    + apply Hf. now left.
    + apply IH; [ exact Hl' | | ].
      * intros x Hx. apply Hf. now right.
      * intros x y z Hx Hy. apply Hd; now right.
    + intros z Hz Hz'. apply in_flat_map in Hz'.
      destruct Hz' as [y [Hy Hzy]].
      assert (a = y) by (apply (Hd a y z); [ now left | now right | | ]; assumption).
      subst. contradiction.
Qed.

Lemma list_sum_triangle (m k : nat) :
  (k <= m)%nat ->
  (2 * list_sum (map (fun j => m - j) (seq 0 k)) + k * k = k * (2 * m + 1))%nat.
Proof.
  induction k as [ | k IH ]; intro Hk; [ reflexivity | ].
  rewrite seq_S, map_app, list_sum_app. cbn [map list_sum fold_right Nat.add].
  specialize (IH ltac:(lia)).
  destruct (Nat.le_exists_sub (S k) m Hk) as [d [-> _]].
  replace (d + S k - k)%nat with (S d) by lia.
  set (s := list_sum _) in *. clearbody s. nia.
Qed.

Lemma lattice_In (n i j k l : nat) :
  In (i, j, k, l) (lattice n) <-> (i + j + k + l = n)%nat.
Proof.
  unfold lattice. rewrite in_flat_map. split.
  - intros [i' [Hi Hin]]. apply in_flat_map in Hin.
    destruct Hin as [j' [Hj Hin]]. apply in_map_iff in Hin.
    destruct Hin as [k' [E Hk]]. injection E as <- <- <- <-.
    apply in_seq in Hi, Hj, Hk. lia.
  - intros <-. exists i. split; [ apply in_seq; lia | ].
    apply in_flat_map. exists j. split; [ apply in_seq; lia | ].
    apply in_map_iff. exists k. split; [ | apply in_seq; lia ].
    repeat f_equal. lia.
Qed.

Lemma lattice_NoDup (n : nat) : NoDup (lattice n).
Proof.
  unfold lattice. apply NoDup_flat_map_disjoint.
  - apply seq_NoDup.
  - intros i _. apply NoDup_flat_map_disjoint.
    + apply seq_NoDup.
    + intros j _. apply NoDup_map_NoDup_ForallPairs; [ | apply seq_NoDup ].
      intros k k' _ _ E. now injection E.
    + intros j j' z _ _ Hz Hz'.
      apply in_map_iff in Hz, Hz'.
      destruct Hz as [k [<- _]]. destruct Hz' as [k' [E _]].
      now injection E.
  - intros i i' z _ _ Hz Hz'.
    apply in_flat_map in Hz, Hz'.
    destruct Hz as [j [_ Hz]]. destruct Hz' as [j' [_ Hz']].
    apply in_map_iff in Hz, Hz'.
    destruct Hz as [k [<- _]]. destruct Hz' as [k' [E _]].
    now injection E.
Qed.

Lemma lattice_row_length (n i : nat) :
  (i <= n)%nat ->
  (2 * length (flat_map (fun j => map (fun k => (i, j, k, n - i - j - k)%nat)
                                      (seq 0 (n + 1 - i - j)))
                        (seq 0 (n + 1 - i)))
   = (n + 1 - i) * (n + 2 - i))%nat.
Proof.
  intro Hi. rewrite length_flat_map.
  rewrite (map_ext _ (fun j => n + 1 - i - j)%nat)
    by (intro j; now rewrite length_map, length_seq).
  pose proof (list_sum_triangle (n + 1 - i) (n + 1 - i) (le_n _)) as Ht.
  nia.
Qed.

Lemma lattice_length (n : nat) :
  (6 * length (lattice n) = (n + 1) * (n + 2) * (n + 3))%nat.
Proof.
  unfold lattice. rewrite length_flat_map.
  set (row := fun i => length (flat_map _ _)).
  assert (Hrow : forall i, (i <= n)%nat ->
                           (2 * row i = (n + 1 - i) * (n + 2 - i))%nat)
    by (intros i Hi; apply (lattice_row_length n i Hi)).
  clearbody row.
  assert (Hsum : forall k, (k <= n + 1)%nat ->
            (6 * list_sum (map row (seq 0 k))
             + (n + 1 - k) * (n + 2 - k) * (n + 3 - k)
             = (n + 1) * (n + 2) * (n + 3))%nat).
  { induction k as [ | k IH ]; intro Hk.
    - cbn [seq map list_sum fold_right]. rewrite !Nat.sub_0_r. lia.
    - rewrite seq_S, map_app, list_sum_app. cbn [map list_sum fold_right Nat.add].
      specialize (IH ltac:(lia)). specialize (Hrow k ltac:(lia)).
      remember (n - k)%nat as d eqn:Hd.
      replace (n + 1 - k)%nat with (d + 1)%nat in * by lia.
      replace (n + 2 - k)%nat with (d + 2)%nat in * by lia.
      replace (n + 3 - k)%nat with (d + 3)%nat in * by lia.
      replace (n + 1 - S k)%nat with d by lia.
      replace (n + 2 - S k)%nat with (d + 1)%nat by lia.
      replace (n + 3 - S k)%nat with (d + 2)%nat by lia.
      nia. }
  specialize (Hsum (n + 1)%nat (le_n _)).
  replace (n + 1 - (n + 1))%nat with 0%nat in Hsum by lia.
  cbn [Nat.mul Nat.add] in Hsum. lia.
Qed.

(** X7. The index array of [_newton_cotes] lists every quadruple of naturals
    of sum [n], each one once. *)
Theorem lattice_is_the_simplex (n : nat) :
  NoDup (lattice n)
  /\ (forall i j k l, In (i, j, k, l) (lattice n) <-> (i + j + k + l = n)%nat).
Proof.
  split; [ apply lattice_NoDup | intros; apply lattice_In ].
Qed.

Section NewtonCotesShape.
Context {F : Type} `{Num F}.

Lemma _newton_cotes_shape (point_fun : nat -> nat -> F) (n : nat) :
  exists points weights,
    _newton_cotes point_fun n = Return (points, weights, Z.of_nat n)
    /\ points = map (fun '(i, j, k, l) =>
                       [point_fun j n; point_fun k n; point_fun l n])
                    (lattice n)
    /\ length weights = length (lattice n).
Proof.
  unfold _newton_cotes. rewrite columns_123. cbn [bind].
  destruct (Nat.eqb_spec n 0) as [ -> | Hn ].
  - do 2 eexists. split; [ reflexivity | ]. split; reflexivity.
  - do 2 eexists. split; [ reflexivity | ]. split; [ reflexivity | ].
    apply length_map.
Qed.

Lemma lattice_points_shape (f : nat * nat * nat * nat -> list F) (n : nat) :
  (forall q, length (f q) = 3%nat) ->
  Forall (fun p => length p = 3%nat) (map f (lattice n)).
Proof.
  intro Hf. apply Forall_map, Forall_forall. intros q _. apply Hf.
Qed.

(** X8. The rule of order [n], closed or open, has (n+1)(n+2)(n+3)/6 points in
    space, as many weights, and the degree [n]; the constructors raise
    nothing. *)
Theorem newton_cotes_size (n : nat) :
  (exists s, NewtonCotesClosed (F:=F) n = Return s
             /\ well_shaped s
             /\ (6 * length (points s) = (n + 1) * (n + 2) * (n + 3))%nat
             /\ degree s = Z.of_nat n)
  /\ (exists s, NewtonCotesOpen (F:=F) n = Return s
                /\ well_shaped s
                /\ (6 * length (points s) = (n + 1) * (n + 2) * (n + 3))%nat
                /\ degree s = Z.of_nat n).
Proof.
  split.
  - unfold NewtonCotesClosed.
    destruct (_newton_cotes_shape closed_point_fun n)
      as [pts [w [-> [-> Hw]]]].
    cbn [bind]. eexists. split; [ reflexivity | ].
    unfold well_shaped. cbn [points weights degree]. rewrite length_map.
    repeat split; [ exact Hw | | apply lattice_length ].
    apply lattice_points_shape. now intros [[[i j] k] l].
  - unfold NewtonCotesOpen.
    destruct (_newton_cotes_shape open_point_fun n)
      as [pts [w [-> [-> Hw]]]].
    cbn [bind]. eexists. split; [ reflexivity | ].
    unfold well_shaped. cbn [points weights degree]. rewrite length_map.
    repeat split; [ exact Hw | | apply lattice_length ].
    apply lattice_points_shape. now intros [[[i j] k] l].
Qed.
End NewtonCotesShape.

(** ** The points of the Newton-Cotes rules *)

Section NewtonCotesPoints.
Local Open Scope R_scope.

Lemma NewtonCotes_points (point_fun : nat -> nat -> R) (n : nat) :
  exists pts w d,
    _newton_cotes point_fun n = Return (pts, w, d)
    /\ pts = map (fun '(i, j, k, l) =>
                    [point_fun j n; point_fun k n; point_fun l n])
                 (lattice n).
Proof.
  unfold _newton_cotes. rewrite columns_123. cbn [bind].
  destruct (n =? 0)%nat; do 3 eexists; split; reflexivity.
Qed.

(** X9. The points of a closed rule of order at least 1 lie in the closed
    reference tetrahedron and include its four vertices; the points of an
    open rule, of any order, lie strictly inside. *)
Theorem newton_cotes_points_in_tetrahedron (n : nat) :
  ((1 <= n)%nat ->
   exists s, NewtonCotesClosed (F:=R) n = Return s
             /\ Forall in_tetrahedron (points s)
             /\ In [0; 0; 0] (points s) /\ In [1; 0; 0] (points s)
             /\ In [0; 1; 0] (points s) /\ In [0; 0; 1] (points s))
  /\ (exists s, NewtonCotesOpen (F:=R) n = Return s
                /\ Forall inside_tetrahedron (points s)).
Proof.
  split.
  - intro Hn. unfold NewtonCotesClosed.
    destruct (NewtonCotes_points closed_point_fun n) as [pts [w [d [-> ->]]]].
    cbn [bind]. eexists. split; [ reflexivity | ]. cbn [points].
    assert (Hpos : 0 < INR n) by (apply lt_0_INR; lia).
    assert (Hpt : forall k, closed_point_fun (F:=R) k n = INR k / INR n).
    { intro k. unfold closed_point_fun. cbn [num_div R_Num].
      now rewrite !of_nat_R. }
    split; [ | repeat split ].
    + apply Forall_map, Forall_forall. intros [[[i j] k] l] Hin.
      apply lattice_In in Hin. cbn [in_tetrahedron]. rewrite !Hpt.
      assert (Hsum : INR j + INR k + INR l <= INR n).
      { rewrite <- !plus_INR. apply le_INR. lia. }
      pose proof (pos_INR j). pose proof (pos_INR k). pose proof (pos_INR l).
      unfold Rdiv.
      assert (Hq : 0 < / INR n) by now apply Rinv_0_lt_compat.
      assert (Hn1 : INR n * / INR n = 1) by (field; lra).
      set (q := / INR n) in *. clearbody q.
      repeat split; nra.
    + apply in_map_iff. exists (n, 0, 0, 0)%nat. split.
      * rewrite !Hpt. cbn [INR]. repeat f_equal; field; lra.
      * apply lattice_In. lia.
    + apply in_map_iff. exists (0, n, 0, 0)%nat. split.
      * rewrite !Hpt. cbn [INR]. repeat f_equal; field; lra.
      * apply lattice_In. lia.
    + apply in_map_iff. exists (0, 0, n, 0)%nat. split.
      * rewrite !Hpt. cbn [INR]. repeat f_equal; field; lra.
      * apply lattice_In. lia.
    + apply in_map_iff. exists (0, 0, 0, n)%nat. split.
      * rewrite !Hpt. cbn [INR]. repeat f_equal; field; lra.
      * apply lattice_In. lia.
  - unfold NewtonCotesOpen.
    destruct (NewtonCotes_points open_point_fun n) as [pts [w [d [-> ->]]]].
    cbn [bind]. eexists. split; [ reflexivity | ]. cbn [points].
    assert (Hpos : 0 < INR n + 4) by (pose proof (pos_INR n); lra).
    assert (Hpt : forall k, open_point_fun (F:=R) k n
                            = (INR k + 1) / (INR n + 4)).
    { intro k. unfold open_point_fun. cbn [num_div R_Num].
      rewrite !of_nat_R, !plus_INR. cbn [INR]. f_equal; ring. }
    apply Forall_map, Forall_forall. intros [[[i j] k] l] Hin.
    apply lattice_In in Hin. cbn [inside_tetrahedron]. rewrite !Hpt.
    assert (Hsum : INR i + INR j + INR k + INR l = INR n).
    { rewrite <- !plus_INR. f_equal. lia. }
    pose proof (pos_INR i).
    pose proof (pos_INR j). pose proof (pos_INR k). pose proof (pos_INR l).
    unfold Rdiv.
    assert (Hq : 0 < / (INR n + 4)) by now apply Rinv_0_lt_compat.
    assert (Hn1 : (INR n + 4) * / (INR n + 4) = 1) by (field; lra).
    set (q := / (INR n + 4)) in *. clearbody q.
    repeat split; nra.
Qed.
End NewtonCotesPoints.

Lemma newton_cotes_points_in_tetrahedron_witness :
  exists s, NewtonCotesClosed (F:=R) 2 = Return s
            /\ Forall in_tetrahedron (points s)
            /\ In [0; 0; 0]%R (points s) /\ In [1; 0; 0]%R (points s)
            /\ In [0; 1; 0]%R (points s) /\ In [0; 0; 1]%R (points s).
Proof.
  destruct (newton_cotes_points_in_tetrahedron 2) as [Hclosed _].
  apply Hclosed. lia.
Defined.

(** ** The cardinal functions of the Newton-Cotes rules *)

Section Cardinal.
Local Open Scope R_scope.

Ltac pointwise :=
  apply functional_extensionality; intros ?m;
  unfold node, oplus, lower, shift; unfold fadd, fsub, fscale; unfold prodR.

Lemma power_mul (x : R * R * R * R) (a b : monomial) :
  power x (monomial_mul a b) = power x a * power x b.
Proof.
  destruct x as [[[x0 x1] x2] x3], a as [[[a0 a1] a2] a3],
           b as [[[b0 b1] b2] b3].
  unfold power, monomial_mul. rewrite !pow_add. ring.
Qed.

Lemma power_one (x : R * R * R * R) : power x (0, 0, 0, 0)%nat = 1.
Proof. destruct x as [[[x0 x1] x2] x3]. unfold power. cbn [pow]. ring. Qed.

Lemma power_var (v : nat) (x : R * R * R * R) :
  power x (var v) = coordinate v x.
Proof.
  destruct x as [[[x0 x1] x2] x3].
  destruct v as [ | [ | [ | v ] ] ]; unfold power, var, coordinate;
    cbn [pow]; ring.
Qed.

Lemma node_power (c d : R) (v : nat) (x : R * R * R * R) :
  node c d v (power x) = fscale (c * coordinate v x - d) (power x).
Proof.
  pointwise. rewrite power_mul, power_var. ring.
Qed.

(** A polynomial acts on the powers of a point by its value there. *)
Lemma act_power (P : poly (F:=R)) (x : R * R * R * R) :
  act P (power x) = fscale (eval P x) (power x).
Proof.
  pointwise. unfold act, eval, sumR.
  induction P as [ | t P IH ]; cbn [map fold_right]; [ ring | ].
  rewrite IH, power_mul. ring.
Qed.

Lemma eval_act (P : poly (F:=R)) (x : R * R * R * R) :
  eval P x = act P (power x) (0, 0, 0, 0)%nat.
Proof.
  rewrite act_power. unfold fscale. rewrite power_one. ring.
Qed.

Lemma eval_poly_mul (P Q : poly (F:=R)) (x : R * R * R * R) :
  eval (poly_mul P Q) x = eval P x * eval Q x.
Proof.
  rewrite (eval_act (poly_mul P Q)), act_poly_mul, (act_power Q).
  destruct (act_linear P) as [_ Hscale]. rewrite Hscale, act_power.
  unfold fscale. rewrite power_one. ring.
Qed.

Section Nodes.
Variables (point_fun : nat -> nat -> R) (c d : R) (n : nat).
Hypothesis Hc : c <> 0.
Hypothesis Hpoint : forall k, point_fun k n = (INR k + d) / c.

(** A factor of the basis at a node: the binomial coefficient of the two
    indices. *)
Lemma eval_get_poly (v m j : nat) (x : R * R * R * R) :
  coordinate v x = point_fun j n ->
  eval (get_poly point_fun v m n) x
  = prodR (map (fun k => INR j - INR k) (seq 0 m)) / INR (fact m).
Proof.
  intro Hx.
  rewrite eval_act, (act_get_poly point_fun c d n Hc Hpoint).
  unfold binom.
  rewrite (falling_eigen _ (INR j)).
  - unfold fscale. rewrite power_one. unfold Rdiv. ring.
  - apply node_linear.
  - rewrite node_power, Hx, Hpoint. f_equal. field. exact Hc.
Qed.

Lemma eval_get_poly_same (v m : nat) (x : R * R * R * R) :
  coordinate v x = point_fun m n ->
  eval (get_poly point_fun v m n) x = 1.
Proof.
  intro Hx. rewrite (eval_get_poly v m m x Hx), prodR_factorial.
  field. apply INR_fact_neq_0.
Qed.

Lemma prodR_zero (f : nat -> R) (l : list nat) (j : nat) :
  In j l -> f j = 0 -> prodR (map f l) = 0.
Proof.
  intros Hin Hj. induction l as [ | k l IH ]; [ contradiction | ].
  cbn [map prodR fold_right]. destruct Hin as [ -> | Hin ].
  - rewrite Hj. ring.
  - unfold prodR in IH. rewrite (IH Hin). ring.
Qed.

Lemma eval_get_poly_below (v m j : nat) (x : R * R * R * R) :
  (j < m)%nat ->
  coordinate v x = point_fun j n ->
  eval (get_poly point_fun v m n) x = 0.
Proof.
  intros Hjm Hx. rewrite (eval_get_poly v m j x Hx).
  rewrite (prodR_zero _ _ j).
  - unfold Rdiv. ring.
  - apply in_seq. lia.
  - ring.
Qed.

Lemma basis_poly_cardinal (mu nu : nat * nat * nat * nat) :
  In mu (lattice n) -> In nu (lattice n) ->
  eval (basis_poly point_fun n mu) (lattice_node point_fun n nu)
  = if monomial_eqb mu nu then 1 else 0.
Proof.
  destruct mu as [[[i j] k] l], nu as [[[i' j'] k'] l'].
  intros Hmu Hnu. apply lattice_In in Hmu, Hnu.
  unfold basis_poly, lattice_node. rewrite !eval_poly_mul.
  destruct (monomial_eqb (i, j, k, l) (i', j', k', l')) eqn:Heq.
  - apply monomial_eqb_eq in Heq. injection Heq as <- <- <- <-.
    rewrite !eval_get_poly_same by reflexivity. ring.
  - assert (Hlt : (i' < i \/ j' < j \/ k' < k \/ l' < l)%nat).
    { destruct (Nat.eq_dec i i') as [ <- | ]; [ | lia ].
      destruct (Nat.eq_dec j j') as [ <- | ]; [ | lia ].
      destruct (Nat.eq_dec k k') as [ <- | ]; [ | lia ].
      assert (l = l') by lia. subst l'.
      unfold monomial_eqb in Heq. rewrite !Nat.eqb_refl in Heq.
      discriminate Heq. }
    destruct Hlt as [ H | [ H | [ H | H ] ] ].
    + rewrite (eval_get_poly_below 0 i i') by (exact H || reflexivity). ring.
    + rewrite (eval_get_poly_below 1 j j') by (exact H || reflexivity). ring.
    + rewrite (eval_get_poly_below 2 k k') by (exact H || reflexivity). ring.
    + rewrite (eval_get_poly_below 3 l l') by (exact H || reflexivity). ring.
Qed.
End Nodes.

Lemma newton_cotes_weights (point_fun : nat -> nat -> R) (n : nat) :
  (1 <= n)%nat ->
  exists pts,
    _newton_cotes point_fun n
    = Return (pts,
              map (fun q => total (map monomial_integral
                                       (basis_poly point_fun n q)))
                  (lattice n),
              Z.of_nat n).
Proof.
  intro Hn. unfold _newton_cotes. rewrite columns_123. cbn [bind].
  destruct (Nat.eqb_spec n 0) as [ -> | _ ]; [ lia | ].
  eexists. f_equal. f_equal. f_equal.
  apply map_ext. now intros [[[i j] k] l].
Qed.

End Cardinal.


(** ** The integrator on arbitrary schemes *)

Section Integrator.
Local Open Scope R_scope.

Lemma column_nth {F : Type} (d : F) (j : nat) (a : list (list F)) :
  Forall (fun p => (j < length p)%nat) a ->
  column j a = Return (map (fun p => nth j p d) a).
Proof.
  induction 1 as [ | p a Hp _ IH ]; [ reflexivity | ].
  cbn [column mapM map]. unfold column in IH. rewrite IH.
  apply nth_error_Some in Hp.
  destruct (nth_error p j) as [ x | ] eqn:Hx; [ | contradiction ].
  cbn [bind]. now rewrite (nth_error_nth _ _ _ Hx).
Qed.

Lemma vsub_map {A : Type} (f g : A -> R) (l : list A) :
  vsub (map f l) (map g l) = map (fun x => f x - g x) l.
Proof.
  unfold vsub. rewrite combine_map_map, map_map. reflexivity.
Qed.

Lemma vadd_map {A : Type} (f g : A -> R) (l : list A) :
  vadd (map f l) (map g l) = map (fun x => f x + g x) l.
Proof.
  unfold vadd. rewrite combine_map_map, map_map. reflexivity.
Qed.

Lemma mapped_points_image (t : Tetrahedron (F:=R)) (scheme : Scheme (F:=R)) :
  Forall (fun p => (3 <= length p)%nat) (points scheme) ->
  mapped_points t scheme = Return (image_points t (points scheme)).
Proof.
  intros Hpts. unfold mapped_points.
  rewrite (column_nth 0 0), (column_nth 0 1), (column_nth 0 2);
    try (eapply Forall_impl; [ | exact Hpts ]; cbn beta; intros; lia).
  cbn [bind]. f_equal. unfold image_points.
  destruct (vertex0 t) as [[a0 a1] a2], (vertex1 t) as [[b0 b1] b2],
           (vertex2 t) as [[c0 c1] c2], (vertex3 t) as [[d0 d1] d2].
  cbn [coords outer madd map combine fst snd].
  rewrite !map_map, !vsub_map, !map_map, !vadd_map.
  repeat (apply (f_equal2 (@cons _)); [ apply map_ext; intro p | ]);
    try reflexivity;
    unfold image_coordinate; at_reals; field.
Qed.

Lemma image_points_shape (t : Tetrahedron (F:=R)) (pts : list (list R)) :
  length (image_points t pts) = 3%nat
  /\ Forall (fun row => length row = length pts) (image_points t pts).
Proof.
  unfold image_points.
  destruct (vertex0 t) as [[a0 a1] a2], (vertex1 t) as [[b0 b1] b2],
           (vertex2 t) as [[c0 c1] c2], (vertex3 t) as [[d0 d1] d2].
  split; [ reflexivity | ].
  repeat apply Forall_cons; try apply Forall_nil; apply length_map.
Qed.

(** What [integrate] returns, once the points and the values of the
    integrand have shapes that fit. *)
Lemma integrate_sum (f : list (list R) -> list R)
      (t : Tetrahedron (F:=R)) (scheme : Scheme (F:=R)) (wf : list R) :
  Forall (fun p => (3 <= length p)%nat) (points scheme) ->
  broadcast_mul (weights scheme) (f (image_points t (points scheme)))
  = Return wf ->
  integrate f t scheme = Return (volume t * sumR wf).
Proof.
  intros Hpts Hwf. unfold integrate.
  rewrite (mapped_points_image t scheme Hpts). cbn [bind].
  rewrite Hwf. cbn [bind]. rewrite scaled_jacobian_volume.
  cbn [fsum R_Num]. f_equal. rewrite Rmult_comm.
  exact (sumR_map_mul (volume t) wf).
Qed.

Lemma broadcast_mul_same_length {F : Type} `{Num F} (u v : list F) :
  length u = length v ->
  broadcast_mul u v
  = Return (map (fun p => (fst p * snd p)%num) (combine u v)).
Proof.
  intro Hlen. unfold broadcast_mul.
  now rewrite Hlen, Nat.eqb_refl.
Qed.

(** X11. On the reference tetrahedron the integrand is evaluated at the points
    of the scheme themselves, and the weighted sum is divided by 6. *)
Theorem integrate_on_the_reference_tetrahedron
        (f : list (list R) -> list R) (scheme : Scheme (F:=R))
        (wf : list R) :
  Forall (fun p => (3 <= length p)%nat) (points scheme) ->
  broadcast_mul (weights scheme)
                (f [map (fun p => nth 0 p 0) (points scheme);
                    map (fun p => nth 1 p 0) (points scheme);
                    map (fun p => nth 2 p 0) (points scheme)])
  = Return wf ->
  mapped_points reference_tetrahedron scheme
  = Return [map (fun p => nth 0 p 0) (points scheme);
            map (fun p => nth 1 p 0) (points scheme);
            map (fun p => nth 2 p 0) (points scheme)]
  /\ integrate f reference_tetrahedron scheme = Return (sumR wf / 6).
Proof.
  intros Hpts Hwf.
  assert (Himage : image_points reference_tetrahedron (points scheme)
                   = [map (fun p => nth 0 p 0) (points scheme);
                      map (fun p => nth 1 p 0) (points scheme);
                      map (fun p => nth 2 p 0) (points scheme)]).
  { unfold image_points, reference_tetrahedron.
    cbn [vertex0 vertex1 vertex2 vertex3].
    repeat (apply (f_equal2 (@cons _)); [ apply map_ext; intro p | ]);
      try reflexivity; unfold image_coordinate; ring. }
  split.
  - rewrite (mapped_points_image _ _ Hpts). now rewrite Himage.
  - rewrite <- Himage in Hwf.
    rewrite (integrate_sum f _ scheme wf Hpts Hwf). f_equal.
    unfold volume, edge_determinant, reference_tetrahedron, det3, difference.
    cbn [vertex0 vertex1 vertex2 vertex3].
    replace (((1 - 0) * ((1 - 0) * (1 - 0) - (0 - 0) * (0 - 0))
              - (0 - 0) * ((0 - 0) * (1 - 0) - (0 - 0) * (0 - 0))
              + (0 - 0) * ((0 - 0) * (0 - 0) - (1 - 0) * (0 - 0))))
      with 1 by ring.
    rewrite Rabs_R1. field.
Qed.
End Integrator.

Section Linearity.
Local Open Scope R_scope.

Lemma sumR_combine_add (w u v : list R) :
  length u = length w -> length v = length w ->
  sumR (map (fun p => fst p * snd p) (combine w (vadd u v)))
  = sumR (map (fun p => fst p * snd p) (combine w u))
    + sumR (map (fun p => fst p * snd p) (combine w v)).
Proof.
  revert u v. unfold sumR, vadd.
  induction w as [ | a w IH ]; intros [ | x u ] [ | y v ] Hu Hv;
    try discriminate; cbn [combine map fold_right fst snd]; [ ring | ].
  rewrite IH by (cbn [length] in *; lia).
  cbn [num_add R_Num]. ring.
Qed.

Lemma sumR_combine_scale (c : R) (w u : list R) :
  sumR (map (fun p => fst p * snd p) (combine w (scale c u)))
  = c * sumR (map (fun p => fst p * snd p) (combine w u)).
Proof.
  revert u. unfold sumR, scale.
  induction w as [ | a w IH ]; intros [ | x u ];
    cbn [combine map fold_right fst snd]; try ring.
  rewrite IH. cbn [num_mul R_Num]. ring.
Qed.

(** X12. [integrate] is linear in the integrand. *)
Theorem integrate_is_linear
        (f g : list (list R) -> list R) (c : R)
        (t : Tetrahedron (F:=R)) (scheme : Scheme (F:=R)) :
  Forall (fun p => (3 <= length p)%nat) (points scheme) ->
  (forall x,
      length x = 3%nat ->
      Forall (fun row => length row = length (points scheme)) x ->
      length (f x) = length (weights scheme)
      /\ length (g x) = length (weights scheme)) ->
  exists a b,
    integrate f t scheme = Return a
    /\ integrate g t scheme = Return b
    /\ integrate (fun x => vadd (f x) (g x)) t scheme = Return (a + b)
    /\ integrate (fun x => scale c (f x)) t scheme = Return (c * a).
Proof.
  intros Hpts Hfg.
  set (x := image_points t (points scheme)).
  destruct (image_points_shape t (points scheme)) as [Hrows Hcols].
  destruct (Hfg x Hrows Hcols) as [Hf Hg].
  assert (Hsum : forall h : list (list R) -> list R,
             length (h x) = length (weights scheme) ->
             integrate h t scheme
             = Return (volume t
                       * sumR (map (fun p => fst p * snd p)
                                   (combine (weights scheme) (h x))))).
  { intros h Hh. apply (integrate_sum h t scheme _ Hpts).
    rewrite (broadcast_mul_same_length (F:=R)) by now symmetry.
    reflexivity. }
  do 2 eexists.
  split; [ exact (Hsum f Hf) | ].
  split; [ exact (Hsum g Hg) | ].
  split.
  - rewrite Hsum.
    + f_equal. rewrite sumR_combine_add by assumption. ring.
    + unfold vadd. rewrite length_map, length_combine, Hf, Hg.
      apply Nat.min_id.
  - rewrite Hsum.
    + f_equal. rewrite sumR_combine_scale. ring.
    + unfold scale. now rewrite length_map, Hf.
Qed.
End Linearity.

Section ShapeErrors.
Context {F : Type} `{Num F}.

Lemma column_cases (j : nat) (a : list (list F)) :
  (exists c, column j a = Return c /\ Forall (fun p => (j < length p)%nat) a)
  \/ (exists msg, column j a = Raise (IndexError msg)).
Proof.
  induction a as [ | p a IH ].
  - left. exists []. split; [ reflexivity | apply Forall_nil ].
  - cbn [column mapM].
    destruct (nth_error p j) as [ x | ] eqn:Hx; cbn [bind].
    + destruct IH as [ [c [Hc Hall]] | [msg Hmsg] ].
      * left. unfold column in Hc. rewrite Hc. cbn [bind].
        exists (x :: c). split; [ reflexivity | ].
        apply Forall_cons; [ | exact Hall ].
        apply nth_error_Some. now rewrite Hx.
      * right. unfold column in Hmsg. rewrite Hmsg. cbn [bind].
        now exists msg.
    + right. eexists. reflexivity.
Qed.

(** X13. [integrate] on arrays of the wrong shape: a scheme with a point of
    fewer than three coordinates makes it raise an [IndexError], whatever
    the integrand; and an integrand that returns neither one value per
    weight nor a single value makes it raise a [ValueError], unless there
    is a single weight. *)
Theorem integrate_shape_errors
        (f : list (list F) -> list F) (t : Tetrahedron) (scheme : Scheme) :
  (Exists (fun p => (length p < 3)%nat) (points scheme) ->
   exists msg, integrate f t scheme = Raise (IndexError msg))
  /\ (Forall (fun p => (3 <= length p)%nat) (points scheme) ->
      length (weights scheme) <> 1%nat ->
      (forall x,
          length x = 3%nat ->
          Forall (fun row => length row = length (points scheme)) x ->
          length (f x) <> length (weights scheme)
          /\ length (f x) <> 1%nat) ->
      exists msg, integrate f t scheme = Raise (ValueError msg)).
Proof.
  split.
  - intros Hshort. unfold integrate, mapped_points.
    destruct (column_cases 0 (points scheme)) as [ [c0 [-> _]] | [msg ->] ];
      [ | now exists msg ].
    cbn [bind].
    destruct (column_cases 1 (points scheme)) as [ [c1 [-> _]] | [msg ->] ];
      [ | now exists msg ].
    cbn [bind].
    destruct (column_cases 2 (points scheme)) as [ [c2 [_ Hall]] | [msg ->] ];
      [ | now exists msg ].
    apply Exists_exists in Hshort. destruct Hshort as [p [Hin Hp]].
    rewrite Forall_forall in Hall. specialize (Hall p Hin). lia.
  - intros Hpts Hw Hf. unfold integrate.
    destruct (mapped_points_shape t scheme Hpts) as [x [-> [Hrows Hcols]]].
    cbn [bind]. destruct (Hf x Hrows Hcols) as [Hne Hone].
    unfold broadcast_mul.
    destruct (Nat.eqb_spec (length (weights scheme)) (length (f x)))
      as [ Heq | _ ]; [ now symmetry in Heq | ].
    destruct (weights scheme) as [ | a [ | a' w ] ];
      [ | contradiction | ];
      (destruct (f x) as [ | b [ | b' v ] ];
       [ | contradiction | ]); cbn [bind]; eexists; reflexivity.
Qed.
End ShapeErrors.

Section Centroid.
Local Open Scope R_scope.

(** X14. The one-point rule [Keast 0] evaluates the integrand at the centre of
    gravity and multiplies by the volume. *)
Theorem integrate_with_the_one_point_rule
        (f : list (list R) -> list R) (t : Tetrahedron (F:=R))
        (x y z v : R) :
  centroid t = (x, y, z) ->
  f [[x]; [y]; [z]] = [v] ->
  exists s, Keast 0 = Return s
            /\ integrate f t s = Return (volume t * v).
Proof.
  intros Hc Hf. eexists. split; [ reflexivity | ].
  assert (Hpts : Forall (fun p => (3 <= length p)%nat)
                        (points (mkScheme (F:=R) [lit 1.0]
                                          (columns_from 1 _s4) 1%Z))).
  { cbn [points columns_from _s4 map skipn]. repeat constructor. }
  assert (Himage :
            image_points t (columns_from 1 (_s4 (F:=R)))
            = [[x]; [y]; [z]]).
  { unfold image_points. unfold centroid in Hc.
    destruct (vertex0 t) as [[a0 a1] a2], (vertex1 t) as [[b0 b1] b2],
             (vertex2 t) as [[c0 c1] c2], (vertex3 t) as [[d0 d1] d2].
    injection Hc as <- <- <-.
    cbn [columns_from _s4 map skipn]. unfold image_coordinate. cbn [nth].
    at_reals.
    repeat (apply (f_equal2 (@cons _));
            [ apply (f_equal2 (@cons _)); [ field | reflexivity ] | ]).
    reflexivity. }
  rewrite (integrate_sum f t _ [v] Hpts).
  - f_equal. unfold sumR. cbn [fold_right]. ring.
  - cbn [points weights]. rewrite Himage, Hf.
    unfold broadcast_mul. cbn [length Nat.eqb combine map fst snd].
    f_equal. f_equal. cbn [num_mul R_Num]. at_reals. field.
Qed.
End Centroid.

Section AffineCovariance.
Local Open Scope R_scope.

Lemma affine_image_points A d (t : Tetrahedron (F:=R)) (pts : list (list R)) :
  image_points (affine_tetrahedron A d t) pts
  = affine_array A d (image_points t pts).
Proof.
  destruct A as [[[[a00 a01] a02] [[a10 a11] a12]] [[a20 a21] a22]].
  destruct d as [[d0 d1] d2].
  unfold image_points, affine_tetrahedron, affine_array.
  cbn [vertex0 vertex1 vertex2 vertex3].
  destruct (vertex0 t) as [[a0 a1] a2], (vertex1 t) as [[b0 b1] b2],
           (vertex2 t) as [[c0 c1] c2], (vertex3 t) as [[e0 e1] e2].
  cbn [affine]. rewrite !combine_map_map, !map_map.
  repeat (apply (f_equal2 (@cons _)); [ apply map_ext; intro p | ]);
    try reflexivity; cbn [fst snd]; unfold image_coordinate; ring.
Qed.

Lemma affine_volume A d (t : Tetrahedron (F:=R)) :
  volume (affine_tetrahedron A d t) = Rabs (determinant A) * volume t.
Proof.
  unfold volume. unfold Rdiv. rewrite <- Rmult_assoc, <- Rabs_mult.
  f_equal. f_equal.
  destruct A as [[[[a00 a01] a02] [[a10 a11] a12]] [[a20 a21] a22]].
  destruct d as [[d0 d1] d2].
  unfold edge_determinant, affine_tetrahedron, determinant.
  cbn [vertex0 vertex1 vertex2 vertex3].
  destruct (vertex0 t) as [[a0 a1] a2], (vertex1 t) as [[b0 b1] b2],
           (vertex2 t) as [[c0 c1] c2], (vertex3 t) as [[e0 e1] e2].
  unfold affine, difference, det3. ring.
Qed.

(** X15. [integrate] is covariant under the affine maps of space: over the
    image of a tetrahedron it returns the integral of the integrand
    composed with the map, times the absolute value of the determinant. *)
Theorem integrate_is_affine_covariant
        (f : list (list R) -> list R)
        (A : (R * R * R) * (R * R * R) * (R * R * R)) (d : R * R * R)
        (t : Tetrahedron (F:=R)) (scheme : Scheme (F:=R)) :
  Forall (fun p => (3 <= length p)%nat) (points scheme) ->
  integrate f (affine_tetrahedron A d t) scheme
  = (v <- integrate (fun x => f (affine_array A d x)) t scheme ;;
     Return (Rabs (determinant A) * v)).
Proof.
  intros Hpts. unfold integrate.
  rewrite !(mapped_points_image _ _ Hpts). cbn [bind].
  rewrite affine_image_points.
  destruct (broadcast_mul (weights scheme) _) as [ e | wf ];
    cbn [bind]; [ reflexivity | ].
  rewrite !scaled_jacobian_volume, affine_volume.
  cbn [fsum num_mul R_Num bind]. f_equal.
  change (fold_right Rplus 0) with sumR.
  rewrite (sumR_map_mul (Rabs (determinant A) * volume t) wf).
  rewrite (sumR_map_mul (volume t) wf). ring.
Qed.
End AffineCovariance.

Section IntegratorWitnesses.
Local Open Scope R_scope.

Lemma integrate_on_the_reference_tetrahedron_witness :
  mapped_points reference_tetrahedron
    (mkScheme [1 / 2; 1 / 2] [[0; 0; 1]; [1 / 4; 1 / 4; 1 / 4]] 1)
  = Return [[0; 1 / 4]; [0; 1 / 4]; [1; 1 / 4]]
  /\ integrate integrand_x reference_tetrahedron
       (mkScheme [1 / 2; 1 / 2] [[0; 0; 1]; [1 / 4; 1 / 4; 1 / 4]] 1)
     = Return (sumR [1 / 2 * 0; 1 / 2 * (1 / 4)] / 6).
Proof.
  apply (integrate_on_the_reference_tetrahedron integrand_x
           (mkScheme [1 / 2; 1 / 2] [[0; 0; 1]; [1 / 4; 1 / 4; 1 / 4]] 1)).
  - cbn [points]. repeat constructor.
  - reflexivity.
Defined.

Lemma integrate_is_linear_witness :
  exists a b,
    integrate integrand_x reference_tetrahedron
      (mkScheme [1 / 2; 1 / 2] [[0; 0; 1]; [1 / 4; 1 / 4; 1 / 4]] 1)
    = Return a
    /\ integrate (fun x => nth 1 x []) reference_tetrahedron
         (mkScheme [1 / 2; 1 / 2] [[0; 0; 1]; [1 / 4; 1 / 4; 1 / 4]] 1)
       = Return b
    /\ integrate (fun x => vadd (integrand_x x) (nth 1 x []))
         reference_tetrahedron
         (mkScheme [1 / 2; 1 / 2] [[0; 0; 1]; [1 / 4; 1 / 4; 1 / 4]] 1)
       = Return (a + b)
    /\ integrate (fun x => scale 3 (integrand_x x)) reference_tetrahedron
         (mkScheme [1 / 2; 1 / 2] [[0; 0; 1]; [1 / 4; 1 / 4; 1 / 4]] 1)
       = Return (3 * a).
Proof.
  apply integrate_is_linear.
  - cbn [points]. repeat constructor.
  - intros x Hrows Hcols. cbn [points weights length] in *.
    destruct x as [ | r0 [ | r1 x ] ]; try discriminate Hrows.
    apply Forall_inv_tail in Hcols as Hcols1.
    apply Forall_inv in Hcols. apply Forall_inv in Hcols1.
    unfold integrand_x. cbn [nth]. now split.
Defined.

Lemma integrate_shape_errors_witness :
  (exists msg,
      integrate integrand_x reference_tetrahedron
        (mkScheme [1 / 2; 1 / 2] [[0; 0]; [1 / 4; 1 / 4]] 1)
      = Raise (IndexError msg))
  /\ (exists msg,
         integrate (fun _ => [1; 2; 3]) reference_tetrahedron
           (mkScheme [1 / 2; 1 / 2] [[0; 0; 1]; [1 / 4; 1 / 4; 1 / 4]] 1)
         = Raise (ValueError msg)).
Proof.
  split.
  - destruct (integrate_shape_errors integrand_x reference_tetrahedron
                (mkScheme [1 / 2; 1 / 2] [[0; 0]; [1 / 4; 1 / 4]] 1))
      as [Hindex _].
    apply Hindex. cbn [points]. apply Exists_cons_hd. cbn [length]. lia.
  - destruct (integrate_shape_errors (fun _ => [1; 2; 3])
                reference_tetrahedron
                (mkScheme [1 / 2; 1 / 2]
                          [[0; 0; 1]; [1 / 4; 1 / 4; 1 / 4]] 1))
      as [_ Hvalue].
    apply Hvalue.
    + cbn [points]. repeat constructor.
    + cbn [weights length]. lia.
    + intros x _ _. cbn [weights length]. lia.
Defined.

Lemma integrate_with_the_one_point_rule_witness :
  exists s, Keast 0 = Return s
            /\ integrate integrand_x reference_tetrahedron s
               = Return (volume reference_tetrahedron * (1 / 4)).
Proof.
  apply (integrate_with_the_one_point_rule integrand_x reference_tetrahedron
           (1 / 4) (1 / 4) (1 / 4)).
  - unfold centroid, reference_tetrahedron.
    cbn [vertex0 vertex1 vertex2 vertex3].
    repeat apply f_equal2; field.
  - reflexivity.
Defined.

Lemma integrate_is_affine_covariant_witness :
  integrate integrand_x
    (affine_tetrahedron ((2, 0, 0), (0, 1, 0), (0, 0, 1)) (1, 0, 0)
                        reference_tetrahedron)
    (mkScheme [1 / 2; 1 / 2] [[0; 0; 1]; [1 / 4; 1 / 4; 1 / 4]] 1)
  = (v <- integrate
            (fun x => integrand_x
                        (affine_array ((2, 0, 0), (0, 1, 0), (0, 0, 1))
                                      (1, 0, 0) x))
            reference_tetrahedron
            (mkScheme [1 / 2; 1 / 2] [[0; 0; 1]; [1 / 4; 1 / 4; 1 / 4]] 1) ;;
     Return (Rabs (determinant ((2, 0, 0), (0, 1, 0), (0, 0, 1))) * v)).
Proof.
  apply integrate_is_affine_covariant.
  cbn [points]. repeat constructor.
Defined.
End IntegratorWitnesses.

Section Orientation.
Local Open Scope R_scope.

(** X16. Exchanging two vertices of the tetrahedron changes the sign of the
    determinant that [integrate] computes, and nothing else: the scaling
    factor [abs(det)] does not depend on the order of the vertices. *)
Theorem jacobian_is_alternating (a b c d : R * R * R) :
  jacobian (mkTetrahedron b a c d) = - jacobian (mkTetrahedron a b c d)
  /\ jacobian (mkTetrahedron a c b d) = - jacobian (mkTetrahedron a b c d)
  /\ jacobian (mkTetrahedron a b d c) = - jacobian (mkTetrahedron a b c d)
  /\ volume (mkTetrahedron b a c d) = volume (mkTetrahedron a b c d)
  /\ volume (mkTetrahedron a c b d) = volume (mkTetrahedron a b c d)
  /\ volume (mkTetrahedron a b d c) = volume (mkTetrahedron a b c d).
Proof.
  destruct a as [[a0 a1] a2], b as [[b0 b1] b2], c as [[c0 c1] c2],
           d as [[d0 d1] d2].
  assert (Hj : forall t : Tetrahedron (F:=R),
             volume t = Rabs (jacobian t) / 6)
    by (intro t; now rewrite jacobian_edge_determinant).
  assert (H1 : jacobian (mkTetrahedron (b0, b1, b2) (a0, a1, a2)
                                       (c0, c1, c2) (d0, d1, d2))
               = - jacobian (mkTetrahedron (a0, a1, a2) (b0, b1, b2)
                                           (c0, c1, c2) (d0, d1, d2)))
    by (unfold jacobian, edge; cbn [vertex0 vertex1 vertex2 vertex3];
        at_reals; field).
  assert (H2 : jacobian (mkTetrahedron (a0, a1, a2) (c0, c1, c2)
                                       (b0, b1, b2) (d0, d1, d2))
               = - jacobian (mkTetrahedron (a0, a1, a2) (b0, b1, b2)
                                           (c0, c1, c2) (d0, d1, d2)))
    by (unfold jacobian, edge; cbn [vertex0 vertex1 vertex2 vertex3];
        at_reals; field).
  assert (H3 : jacobian (mkTetrahedron (a0, a1, a2) (b0, b1, b2)
                                       (d0, d1, d2) (c0, c1, c2))
               = - jacobian (mkTetrahedron (a0, a1, a2) (b0, b1, b2)
                                           (c0, c1, c2) (d0, d1, d2)))
    by (unfold jacobian, edge; cbn [vertex0 vertex1 vertex2 vertex3];
        at_reals; field).
  repeat split; try assumption;
    rewrite !Hj; [ rewrite H1 | rewrite H2 | rewrite H3 ];
    now rewrite Rabs_Ropp.
Qed.
End Orientation.

(** ** The degree of the scheme of Stroud for the n-cube *)

Section CosineSums.
Local Open Scope R_scope.

(** Sums over [1 .. N] telescope. *)
Lemma sumR_telescope (g : nat -> R) (N : nat) :
  sumR (map (fun i => g (S i) - g i) (seq 1 N)) = g (S N) - g 1%nat.
Proof.
  induction N as [ | N IH ].
  - cbn. ring.
  - rewrite seq_S, map_app, sumR_app, IH. cbn [map Nat.add].
    unfold sumR. cbn [fold_right]. ring.
Qed.

(** The sum of the cosines of an arithmetic progression of angles *)
Lemma cos_progression (theta phi : R) (N : nat) :
  2 * sin (theta / 2)
  * sumR (map (fun i => cos (theta * INR i + phi)) (seq 1 N))
  = sin (theta * INR (S N) + phi - theta / 2)
    - sin (theta * 1 + phi - theta / 2).
Proof.
  rewrite <- sumR_map_scale.
  replace (theta * 1 + phi - theta / 2)
    with (theta * INR 1 + phi - theta / 2) by (cbn [INR]; ring).
  etransitivity;
    [ | apply (sumR_telescope
                 (fun k => sin (theta * INR k + phi - theta / 2)) N) ].
  f_equal. apply map_ext. intro i. rewrite S_INR.
  replace (theta * (INR i + 1) + phi - theta / 2)
    with ((theta * INR i + phi) + theta / 2) by field.
  replace (theta * INR i + phi - theta / 2)
    with ((theta * INR i + phi) - theta / 2) by field.
  rewrite sin_plus, sin_minus. ring.
Qed.

(** Over a whole number of turns the cosines cancel. *)
Lemma cos_sum_zero (n p : nat) (phi : R) :
  (0 < p < 2 * n)%nat ->
  sumR (map (fun i => cos (INR p * PI / INR n * INR i + phi))
            (seq 1 (2 * n)))
  = 0.
Proof.
  intros Hp.
  assert (Hn : 0 < INR n) by (apply lt_0_INR; lia).
  assert (Hp0 : 0 < INR p) by (apply lt_0_INR; lia).
  assert (Hp2 : INR p < 2 * INR n).
  { replace (2 * INR n) with (INR (2 * n)) by (rewrite mult_INR; cbn [INR]; ring).
    apply lt_INR. lia. }
  set (theta := INR p * PI / INR n).
  pose proof PI_RGT_0 as Hpi.
  assert (Hsin : 0 < sin (theta / 2)).
  { apply sin_gt_0.
    - unfold theta. apply Rdiv_lt_0_compat; [ | lra ].
      apply Rdiv_lt_0_compat; [ | lra ]. nra.
    - unfold theta.
      apply (Rmult_lt_reg_r (2 * INR n)); [ lra | ].
      replace (INR p * PI / INR n / 2 * (2 * INR n)) with (INR p * PI)
        by (field; lra).
      nra. }
  pose proof (cos_progression theta phi (2 * n)) as Hsum.
  replace (sin (theta * INR (S (2 * n)) + phi - theta / 2))
    with (sin (theta * 1 + phi - theta / 2)) in Hsum.
  - nra.
  - rewrite <- (sin_period (theta * 1 + phi - theta / 2) p). f_equal.
    rewrite S_INR, mult_INR. cbn [INR]. unfold theta. field. lra.
Qed.

Lemma sumR_map_constant {A : Type} (c : R) (l : list A) :
  sumR (map (fun _ => c) l) = INR (length l) * c.
Proof.
  induction l as [ | x l IH ]; [ cbn; ring | ].
  cbn [map length]. unfold sumR in *. cbn [fold_right].
  rewrite IH, S_INR. ring.
Qed.

(** Over no turn at all they add up. *)
Lemma cos_sum_constant (n : nat) (q : nat) (phi : R) :
  sumR (map (fun i => cos (2 * INR q * PI * INR i + phi)) (seq 1 (2 * n)))
  = 2 * INR n * cos phi.
Proof.
  rewrite (map_ext _ (fun _ => cos phi)).
  - rewrite sumR_map_constant, length_seq, mult_INR. cbn [INR]. ring.
  - intro i.
    replace (2 * INR q * PI * INR i + phi)
      with (phi + 2 * INR (q * i) * PI) by (rewrite mult_INR; ring).
    apply cos_period.
Qed.
End CosineSums.

Section StroudCoordinates.
Local Open Scope R_scope.

Lemma cos_product_sum (n p q : nat) (phi psi : R) :
  (1 <= q <= p)%nat -> (p <= n)%nat ->
  sumR (map (fun i => cos (INR p * PI / INR n * INR i + phi)
                      * cos (INR q * PI / INR n * INR i + psi))
            (seq 1 (2 * n)))
  = if (p =? q)%nat
    then (if (p =? n)%nat then 2 * INR n * (cos phi * cos psi)
          else INR n * cos (phi - psi))
    else 0.
Proof.
  intros Hq Hp.
  assert (Hn : INR n <> 0) by (apply not_0_INR; lia).
  rewrite (map_ext _
             (fun i => / 2 * cos (INR (p + q) * PI / INR n * INR i + (phi + psi))
                       + / 2 * cos (INR (p - q) * PI / INR n * INR i
                                    + (phi - psi)))).
  2:{ intro i. rewrite plus_INR, minus_INR by lia.
      set (a := INR p * PI / INR n * INR i + phi).
      set (b := INR q * PI / INR n * INR i + psi).
      replace ((INR p + INR q) * PI / INR n * INR i + (phi + psi))
        with (a + b) by (unfold a, b; field; exact Hn).
      replace ((INR p - INR q) * PI / INR n * INR i + (phi - psi))
        with (a - b) by (unfold a, b; field; exact Hn).
      rewrite (cos_plus a b), (cos_minus a b). field. }
  rewrite sumR_map_plus, !sumR_map_scale.
  destruct (Nat.eqb_spec p q) as [ <- | Hne ].
  - replace (p - p)%nat with 0%nat by lia.
    rewrite (map_ext (fun i => cos (INR 0 * PI / INR n * INR i + (phi - psi)))
                     (fun i => cos (2 * INR 0 * PI * INR i + (phi - psi))))
      by (intro i; f_equal; cbn [INR]; field; exact Hn).
    rewrite cos_sum_constant.
    destruct (Nat.eqb_spec p n) as [ -> | Hpn ].
    + rewrite (map_ext (fun i => cos (INR (n + n) * PI / INR n * INR i
                                      + (phi + psi)))
                       (fun i => cos (2 * INR 1 * PI * INR i + (phi + psi))))
        by (intro i; f_equal; rewrite plus_INR; cbn [INR]; field; exact Hn).
      rewrite cos_sum_constant, cos_plus, cos_minus. field.
    + rewrite cos_sum_zero by lia. field.
  - rewrite !cos_sum_zero by lia. field.
Qed.

(** The entry of index [j] of a list of pairs laid out flat *)
Lemma nth_flat_map_pairs {A : Type} (a b : nat -> A) (d : A) (m s j : nat) :
  (j < 2 * m)%nat ->
  nth j (flat_map (fun k => [a k; b k]) (seq s m)) d
  = if Nat.even j then a (s + j / 2)%nat else b (s + j / 2)%nat.
Proof.
  revert s j. induction m as [ | m IH ]; intros s j Hj; [ lia | ].
  cbn [seq flat_map app].
  destruct j as [ | [ | j ] ].
  - cbn. now rewrite Nat.add_0_r.
  - cbn. now rewrite Nat.add_0_r.
  - cbn [nth]. rewrite IH by lia.
    replace (S (S j) / 2)%nat with (S (j / 2)).
    + replace (S s + j / 2)%nat with (s + S (j / 2))%nat by lia.
      reflexivity.
    + change (S (S j)) with (2 + j)%nat.
      replace (2 + j)%nat with (j + 1 * 2)%nat by lia.
      rewrite Nat.div_add by lia. lia.
Qed.

Lemma length_flat_map_pairs {A B : Type} (a b : A -> B) (l : list A) :
  length (flat_map (fun k => [a k; b k]) l) = (2 * length l)%nat.
Proof.
  induction l as [ | k l IH ]; [ reflexivity | ].
  cbn [flat_map app length]. rewrite IH. lia.
Qed.

Lemma cos_multiple_of_PI (i : nat) :
  cos (INR i * PI) = if Nat.even i then 1 else -1.
Proof.
  induction i as [ | i IH ].
  - cbn [INR Nat.even]. rewrite Rmult_0_l. apply cos_0.
  - rewrite S_INR, Nat.even_succ, <- Nat.negb_even.
    replace ((INR i + 1) * PI) with (INR i * PI + PI) by ring.
    rewrite neg_cos, IH. destruct (Nat.even i); cbn [negb]; ring.
Qed.

Lemma stroud_coordinate (n j i : nat) :
  (j < n)%nat ->
  nth j (stroud_1957_3_point n i) 0
  = stroud_amplitude n j
    * cos (INR (stroud_frequency n j) * PI / INR n * INR i + stroud_phase n j).
Proof.
  intro Hj.
  assert (Hn : INR n <> 0) by (apply not_0_INR; lia).
  unfold stroud_1957_3_point, stroud_amplitude, stroud_frequency,
    stroud_phase.
  assert (Hlen : length
                   (flat_map
                      (fun k =>
                         [sqrt (2 / 3) * cos (INR ((2 * k - 1) * i) * PI / INR n);
                          sqrt (2 / 3) * sin (INR ((2 * k - 1) * i) * PI / INR n)])
                      (seq 1 (n / 2)))
                 = (2 * (n / 2))%nat).
  { rewrite length_flat_map_pairs. now rewrite length_seq. }
  destruct (Nat.ltb_spec j (2 * (n / 2))) as [ Hlt | Hge ].
  - rewrite app_nth1 by (rewrite Hlen; exact Hlt).
    rewrite (nth_flat_map_pairs
               (fun k => sqrt (2 / 3) * cos (INR ((2 * k - 1) * i) * PI / INR n))
               (fun k => sqrt (2 / 3) * sin (INR ((2 * k - 1) * i) * PI / INR n)))
      by exact Hlt.
    replace (2 * (1 + j / 2) - 1)%nat with (2 * (j / 2) + 1)%nat by lia.
    rewrite mult_INR.
    destruct (Nat.even j); f_equal.
    + f_equal. field. exact Hn.
    + replace (INR (2 * (j / 2) + 1) * PI / INR n * INR i + - (PI / 2))
        with (INR (2 * (j / 2) + 1) * INR i * PI / INR n - PI / 2)
        by (field; exact Hn).
      rewrite cos_minus, cos_PI2, sin_PI2. ring.
  - rewrite app_nth2 by (rewrite Hlen; exact Hge). rewrite Hlen.
    pose proof (Nat.div_mod_eq n 2) as Hdiv.
    pose proof (Nat.mod_upper_bound n 2 ltac:(lia)) as Hmod.
    assert (Hodd : Nat.odd n = true).
    { rewrite <- mod2_odd. apply Nat.eqb_eq. lia. }
    rewrite Hodd. replace (j - 2 * (n / 2))%nat with 0%nat by lia.
    cbn [nth].
    replace (INR n * PI / INR n * INR i + PI) with (INR i * PI + PI)
      by (field; exact Hn).
    rewrite neg_cos, cos_multiple_of_PI.
    destruct (Nat.even i); field; apply Rgt_not_eq, sqrt_lt_R0; lra.
Qed.

Lemma stroud_frequency_range (n j : nat) :
  (j < n)%nat ->
  (1 <= stroud_frequency n j <= n)%nat
  /\ Nat.odd (stroud_frequency n j) = true.
Proof.
  intro Hj. unfold stroud_frequency.
  pose proof (Nat.div_mod_eq n 2) as Hdiv.
  pose proof (Nat.mod_upper_bound n 2 ltac:(lia)) as Hmod.
  pose proof (Nat.div_mod_eq j 2) as Hdivj.
  pose proof (Nat.mod_upper_bound j 2 ltac:(lia)) as Hmodj.
  destruct (Nat.ltb_spec j (2 * (n / 2))) as [ Hlt | Hge ].
  - split; [ lia | ].
    rewrite Nat.add_1_r, Nat.odd_succ. apply Nat.even_spec.
    now exists (j / 2)%nat.
  - split; [ lia | ].
    rewrite <- mod2_odd. apply Nat.eqb_eq. lia.
Qed.
End StroudCoordinates.

Section StroudMoments.
Local Open Scope R_scope.

Lemma stroud_coordinate_opposite (n j i : nat) :
  (j < n)%nat ->
  nth j (stroud_1957_3_point n (i + n)) 0
  = - nth j (stroud_1957_3_point n i) 0.
Proof.
  intro Hj. rewrite !stroud_coordinate by exact Hj.
  assert (Hn : INR n <> 0) by (apply not_0_INR; lia).
  destruct (stroud_frequency_range n j Hj) as [_ Hodd].
  apply Nat.odd_spec in Hodd. destruct Hodd as [r Hr].
  rewrite Hr.
  replace (INR (2 * r + 1)) with (2 * INR r + 1)
    by (rewrite plus_INR, mult_INR; cbn [INR]; ring).
  rewrite plus_INR.
  set (x := (2 * INR r + 1) * PI / INR n * INR i + stroud_phase n j).
  replace ((2 * INR r + 1) * PI / INR n * (INR i + INR n) + stroud_phase n j)
    with (x + PI + 2 * INR r * PI) by (unfold x; field; exact Hn).
  rewrite cos_period, neg_cos. ring.
Qed.

Lemma seq_shift_by (n s m : nat) :
  seq (s + n) m = map (fun i => (i + n)%nat) (seq s m).
Proof.
  revert s. induction m as [ | m IH ]; intro s; [ reflexivity | ].
  cbn [seq map]. f_equal. exact (IH (S s)).
Qed.

(** A sum over [1 .. 2 n] whose terms at [i] and [i + n] are opposite *)
Lemma sumR_opposite_halves (f : nat -> R) (n : nat) :
  (forall i, f (i + n)%nat = - f i) ->
  sumR (map f (seq 1 (2 * n))) = 0.
Proof.
  intro Hf. replace (2 * n)%nat with (n + n)%nat by lia.
  rewrite seq_app, map_app, sumR_app, seq_shift_by, map_map.
  rewrite (map_ext (fun i => f (i + n)%nat) (fun i => -1 * f i))
    by (intro i; rewrite Hf; ring).
  rewrite sumR_map_scale. ring.
Qed.

Lemma sqrt_two_thirds : sqrt (2 / 3) * sqrt (2 / 3) = 2 / 3.
Proof. apply sqrt_sqrt. lra. Qed.

Lemma inv_sqrt_three : 1 / sqrt 3 * (1 / sqrt 3) = 1 / 3.
Proof.
  assert (H3 : sqrt 3 * sqrt 3 = 3) by (apply sqrt_sqrt; lra).
  assert (Hpos : 0 < sqrt 3) by (apply sqrt_lt_R0; lra).
  replace (1 / sqrt 3 * (1 / sqrt 3)) with (1 / (sqrt 3 * sqrt 3))
    by (field; lra).
  now rewrite H3.
Qed.

Lemma stroud_second_sum (n j k : nat) :
  (j < n)%nat -> (k < n)%nat ->
  sumR (map (fun i => nth j (stroud_1957_3_point n i) 0
                      * nth k (stroud_1957_3_point n i) 0)
            (seq 1 (2 * n)))
  = if (j =? k)%nat then 2 * INR n / 3 else 0.
Proof.
  intros Hj Hk.
  destruct (stroud_frequency_range n j Hj) as [Hpj _].
  destruct (stroud_frequency_range n k Hk) as [Hpk _].
  rewrite (map_ext _
             (fun i => stroud_amplitude n j * stroud_amplitude n k
                       * (cos (INR (stroud_frequency n j) * PI / INR n * INR i
                               + stroud_phase n j)
                          * cos (INR (stroud_frequency n k) * PI / INR n * INR i
                                 + stroud_phase n k))))
    by (intro i; rewrite !stroud_coordinate by assumption; ring).
  rewrite sumR_map_scale.
  assert (Hsum :
            sumR (map (fun i =>
                         cos (INR (stroud_frequency n j) * PI / INR n * INR i
                              + stroud_phase n j)
                         * cos (INR (stroud_frequency n k) * PI / INR n * INR i
                                + stroud_phase n k))
                      (seq 1 (2 * n)))
            = if (stroud_frequency n j =? stroud_frequency n k)%nat
              then (if (stroud_frequency n j =? n)%nat
                    then 2 * INR n * (cos (stroud_phase n j)
                                      * cos (stroud_phase n k))
                    else INR n * cos (stroud_phase n j - stroud_phase n k))
              else 0).
  { destruct (Nat.le_ge_cases (stroud_frequency n k) (stroud_frequency n j))
      as [ Hle | Hle ].
    - apply cos_product_sum; lia.
    - rewrite (map_ext _
                 (fun i =>
                    cos (INR (stroud_frequency n k) * PI / INR n * INR i
                         + stroud_phase n k)
                    * cos (INR (stroud_frequency n j) * PI / INR n * INR i
                           + stroud_phase n j)))
        by (intro; ring).
      rewrite cos_product_sum by lia.
      rewrite (Nat.eqb_sym (stroud_frequency n k)).
      destruct (Nat.eqb_spec (stroud_frequency n j) (stroud_frequency n k))
        as [ Heq | _ ]; [ | reflexivity ].
      rewrite <- Heq.
      destruct (stroud_frequency n j =? n)%nat; [ ring | ].
      replace (stroud_phase n k - stroud_phase n j)
        with (- (stroud_phase n j - stroud_phase n k)) by ring.
      now rewrite cos_neg. }
  rewrite Hsum. clear Hsum.
  pose proof (Nat.div_mod_eq n 2) as Hdiv.
  pose proof (Nat.mod_upper_bound n 2 ltac:(lia)) as Hmod.
  pose proof (Nat.div_mod_eq j 2) as Hdivj.
  pose proof (Nat.mod_upper_bound j 2 ltac:(lia)) as Hmodj.
  pose proof (Nat.div_mod_eq k 2) as Hdivk.
  pose proof (Nat.mod_upper_bound k 2 ltac:(lia)) as Hmodk.
  pose proof sqrt_two_thirds as H23. pose proof inv_sqrt_three as H13.
  unfold stroud_frequency, stroud_amplitude, stroud_phase in *.
  destruct (Nat.eqb_spec j k) as [ <- | Hjk ].
  - rewrite Nat.eqb_refl.
    destruct (Nat.ltb_spec j (2 * (n / 2))) as [ Hlt | Hge ].
    + destruct (Nat.eqb_spec (2 * (j / 2) + 1) n) as [ Heq | _ ]; [ lia | ].
      replace ((if Nat.even j then 0 else - (PI / 2))
               - (if Nat.even j then 0 else - (PI / 2))) with 0
        by (destruct (Nat.even j); ring).
      rewrite cos_0, H23. field.
    + rewrite Nat.eqb_refl, cos_PI, H13. field.
  - destruct (Nat.ltb_spec j (2 * (n / 2))) as [ Hlt | Hge ];
      destruct (Nat.ltb_spec k (2 * (n / 2))) as [ Hltk | Hgek ].
    + destruct (Nat.eqb_spec (2 * (j / 2) + 1) (2 * (k / 2) + 1))
        as [ Heq | _ ]; [ | ring ].
      destruct (Nat.eqb_spec (2 * (j / 2) + 1) n) as [ Hn | _ ]; [ lia | ].
      assert (Hparity : Nat.even j = negb (Nat.even k)).
      { rewrite <- !Nat.negb_odd, <- !mod2_odd.
        destruct (Nat.eqb_spec (j mod 2) 1), (Nat.eqb_spec (k mod 2) 1);
          cbn [negb]; try reflexivity; lia. }
      rewrite Hparity.
      destruct (Nat.even k); cbn [negb].
      * replace (- (PI / 2) - 0) with (- (PI / 2)) by ring.
        rewrite cos_neg, cos_PI2. ring.
      * replace (0 - - (PI / 2)) with (PI / 2) by ring.
        rewrite cos_PI2. ring.
    + destruct (Nat.eqb_spec (2 * (j / 2) + 1) n) as [ Hn | _ ]; [ lia | ].
      ring.
    + destruct (Nat.eqb_spec n (2 * (k / 2) + 1)) as [ Hn | _ ]; [ lia | ].
      ring.
    + lia.
Qed.
End StroudMoments.

Section StroudDegree.
Local Open Scope R_scope.

Lemma combine_repeat_map {A B : Type} (w : A) (P : nat -> B) (s m : nat) :
  combine (repeat w m) (map P (seq s m)) = map (fun i => (w, P i)) (seq s m).
Proof.
  revert s. induction m as [ | m IH ]; intro s; [ reflexivity | ].
  cbn [repeat seq map combine]. now rewrite IH.
Qed.

Lemma stroud_moment (n : nat) (s : NCube.NCubeScheme (F:=R)) (w : R)
      (e : list nat) :
  NCube.points s = map (stroud_1957_3_point n) (seq 1 (2 * n)) ->
  NCube.weights s = repeat w (2 * n) ->
  ncube_moment s e
  = w * sumR (map (fun i => prodR (map (fun j => nth j (stroud_1957_3_point n i) 0) e))
                  (seq 1 (2 * n))).
Proof.
  intros Hp Hw. unfold ncube_moment.
  rewrite Hp, Hw, combine_repeat_map, map_map. cbn [fst snd].
  now rewrite sumR_map_scale.
Qed.

Lemma stroud_1957_3_degree (n : nat) (s : NCube.NCubeScheme (F:=R)) :
  NCube.stroud_1957_3 n = Return s -> NCube.degree s = 3%Z.
Proof.
  unfold NCube.stroud_1957_3.
  destruct (NCube.vstack _) as [ e | pts ]; cbn [bind]; [ discriminate | ].
  destruct (NCube.untangle _) as [ e | [points weights] ]; cbn [bind];
    [ discriminate | ].
  intro Hs. injection Hs as <-. reflexivity.
Qed.

(** X17. The scheme has the degree 3 that it declares: over the cube
    [[-1, 1]^n] it integrates every monomial of degree at most 3 exactly.
    Its weights add up to [2 ^ n]; the sums for a coordinate, for a product
    of two different coordinates and for every product of three
    coordinates vanish; the sum for the square of a coordinate is
    [2 ^ n / 3]. *)
Theorem stroud_1957_3_is_exact_to_degree_3 (n : nat) :
  (1 <= n)%nat ->
  exists s,
    NCube.stroud_1957_3 (F:=R) n = Return s
    /\ NCube.degree s = 3%Z
    /\ ncube_moment s [] = 2 ^ n
    /\ (forall j, (j < n)%nat -> ncube_moment s [j] = 0)
    /\ (forall j k, (j < n)%nat -> (k < n)%nat ->
                    ncube_moment s [j; k]
                    = if (j =? k)%nat then 2 ^ n / 3 else 0)
    /\ (forall j k l, (j < n)%nat -> (k < n)%nat -> (l < n)%nat ->
                      ncube_moment s [j; k; l] = 0).
Proof.
  intro Hn.
  destruct (stroud_1957_3_shape n Hn) as [s [Hs [Hp Hw]]].
  exists s. split; [ exact Hs | ].
  split; [ exact (stroud_1957_3_degree n s Hs) | ].
  assert (Hn0 : INR n <> 0) by (apply not_0_INR; lia).
  assert (H2n : INR (2 * n) = 2 * INR n)
    by (rewrite mult_INR; cbn [INR]; ring).
  split; [ | split; [ | split ] ].
  - rewrite (stroud_moment n s _ [] Hp Hw). cbn [map prodR fold_right].
    rewrite sumR_map_constant, length_seq, H2n. field. exact Hn0.
  - intros j Hj. rewrite (stroud_moment n s _ [j] Hp Hw).
    rewrite sumR_opposite_halves; [ ring | ].
    intro i. cbn [map prodR fold_right].
    rewrite stroud_coordinate_opposite by exact Hj. ring.
  - intros j k Hj Hk. rewrite (stroud_moment n s _ [j; k] Hp Hw).
    rewrite (map_ext _ (fun i => nth j (stroud_1957_3_point n i) 0
                                 * nth k (stroud_1957_3_point n i) 0))
      by (intro i; cbn [map prodR fold_right]; ring).
    rewrite stroud_second_sum by assumption.
    destruct (j =? k)%nat; rewrite ?H2n; field; exact Hn0.
  - intros j k l Hj Hk Hl. rewrite (stroud_moment n s _ [j; k; l] Hp Hw).
    rewrite sumR_opposite_halves; [ ring | ].
    intro i. cbn [map prodR fold_right].
    rewrite !stroud_coordinate_opposite by assumption. ring.
Qed.

(** X18. The points of the scheme lie strictly inside the cube [[-1, 1]^n]. *)
Theorem stroud_1957_3_points_in_the_cube (n : nat) :
  (1 <= n)%nat ->
  exists s,
    NCube.stroud_1957_3 (F:=R) n = Return s
    /\ Forall (fun p => Forall (fun x => -1 < x < 1) p) (NCube.points s).
Proof.
  intro Hn.
  destruct (stroud_1957_3_shape n Hn) as [s [Hs [Hp _]]].
  exists s. split; [ exact Hs | ].
  rewrite Hp. apply Forall_map, Forall_forall. intros i _.
  apply Forall_nth. intros j d Hj.
  rewrite stroud_1957_3_point_length in Hj.
  rewrite (nth_indep _ d 0) by now rewrite stroud_1957_3_point_length.
  rewrite (stroud_coordinate n j i Hj).
  pose proof (COS_bound (INR (stroud_frequency n j) * PI / INR n * INR i
                         + stroud_phase n j)) as [Hlo Hhi].
  set (c := cos _) in *. clearbody c.
  assert (Hamp : 0 < stroud_amplitude n j < 1).
  { unfold stroud_amplitude.
    destruct (j <? 2 * (n / 2))%nat.
    - split; [ apply sqrt_lt_R0; lra | ].
      assert (H1 : sqrt (2 / 3) < sqrt 1) by (apply sqrt_lt_1; lra).
      now rewrite sqrt_1 in H1.
    - assert (H3 : sqrt 1 < sqrt 3) by (apply sqrt_lt_1; lra).
      rewrite sqrt_1 in H3.
      split.
      + apply Rdiv_lt_0_compat; lra.
      + apply (Rmult_lt_reg_r (sqrt 3)); [ lra | ].
        replace (1 / sqrt 3 * sqrt 3) with 1 by (field; lra). lra. }
  split; nra.
Qed.
End StroudDegree.

Lemma stroud_1957_3_is_exact_to_degree_3_witness :
  exists s,
    NCube.stroud_1957_3 (F:=R) 3 = Return s
    /\ NCube.degree s = 3%Z
    /\ ncube_moment s [] = (2 ^ 3)%R
    /\ (forall j, (j < 3)%nat -> ncube_moment s [j] = 0%R)
    /\ (forall j k, (j < 3)%nat -> (k < 3)%nat ->
                    ncube_moment s [j; k]
                    = if (j =? k)%nat then (2 ^ 3 / 3)%R else 0%R)
    /\ (forall j k l, (j < 3)%nat -> (k < 3)%nat -> (l < 3)%nat ->
                      ncube_moment s [j; k; l] = 0%R).
Proof.
  apply (stroud_1957_3_is_exact_to_degree_3 3). lia.
Defined.

Lemma stroud_1957_3_points_in_the_cube_witness :
  exists s,
    NCube.stroud_1957_3 (F:=R) 2 = Return s
    /\ Forall (fun p => Forall (fun x => (-1 < x < 1)%R) p) (NCube.points s).
Proof.
  apply (stroud_1957_3_points_in_the_cube 2). lia.
Defined.

(** ** The centre of mass of the tabulated schemes *)

Section Centred.
Local Open Scope R_scope.

Lemma combine_app_same {A B : Type} (u1 u2 : list A) (v1 v2 : list B) :
  length u1 = length v1 ->
  combine (u1 ++ u2) (v1 ++ v2) = combine u1 v1 ++ combine u2 v2.
Proof.
  revert v1. induction u1 as [ | a u1 IH ]; intros [ | b v1 ] Hlen;
    try discriminate Hlen; [ reflexivity | ].
  cbn [app combine]. f_equal. apply IH. now injection Hlen.
Qed.

Lemma centred_nil : centred [] [].
Proof.
  split; [ reflexivity | ]. intros c _. cbn. field.
Qed.

Lemma centred_app (W1 W2 : list R) (P1 P2 : list (list R)) :
  centred W1 P1 -> centred W2 P2 -> centred (W1 ++ W2) (P1 ++ P2).
Proof.
  intros [Hl1 Hm1] [Hl2 Hm2]. split.
  - now rewrite !length_app, Hl1, Hl2.
  - intros c Hc.
    rewrite combine_app_same, map_app, !sumR_app by exact Hl1.
    rewrite Hm1, Hm2 by exact Hc. field.
Qed.

Lemma centred_scale (s : R) (W : list R) (P : list (list R)) :
  centred W P -> centred (scale s W) P.
Proof.
  intros [Hl Hm]. split.
  - unfold scale. now rewrite length_map.
  - intros c Hc. rewrite sumR_scale, <- (Rmult_comm (sumR W)).
    unfold Rdiv. rewrite Rmult_assoc, (Rmult_comm s), <- Rmult_assoc.
    fold (sumR W / 4). rewrite <- (Hm c Hc).
    unfold scale. clear Hl Hm. revert P.
    induction W as [ | w W IH ]; intros [ | p P ];
      cbn [map combine fst snd sumR fold_right]; try ring.
    fold (sumR (map (fun wp => fst wp * nth c (snd wp) 0)
                    (combine (map (fun x => (s * x)%num) W) P))).
    rewrite IH. cbn [num_mul R_Num]. unfold sumR. ring.
Qed.

(** A group of a table: the points of an orbit, all with one weight *)
Lemma centred_group (w : R) (k : nat) (P : list (list R)) :
  length P = k ->
  (forall c, (c < 3)%nat ->
             sumR (map (fun p => nth c p 0) P) = INR k / 4) ->
  centred (scale w (ones k)) P.
Proof.
  intros Hk Hsum. split.
  - unfold scale, ones. now rewrite length_map, repeat_length.
  - intros c Hc. rewrite sumR_scale, sumR_ones.
    replace (w * INR k / 4) with (w * (INR k / 4)) by field.
    rewrite <- (Hsum c Hc). subst k. clear Hsum.
    unfold scale, ones.
    induction P as [ | p P IH ]; cbn [length repeat map combine fst snd];
      [ cbn; ring | ].
    unfold sumR in *. cbn [fold_right]. rewrite IH.
    cbn [num_mul lit R_Num]. at_reals. field.
Qed.

Ltac orbit_sums :=
  intros c Hc; destruct c as [ | [ | [ | c ] ] ]; [ | | | lia ];
  unfold sumR;
  cbn [columns_from map skipn nth fold_right INR
       _s4 _s31 _s22 _s211 _s1111 _r _r_alpha _r_beta _r_gamma_delta];
  at_reals; field.

Lemma centred_s4 (w : R) : centred (scale w (ones 1)) (columns_from 1 _s4).
Proof. apply centred_group; [ reflexivity | orbit_sums ]. Qed.

Lemma centred_s31 (w a : R) :
  centred (scale w (ones 4)) (columns_from 1 (_s31 a)).
Proof. apply centred_group; [ reflexivity | orbit_sums ]. Qed.

Lemma centred_s22 (w a : R) :
  centred (scale w (ones 6)) (columns_from 1 (_s22 a)).
Proof. apply centred_group; [ reflexivity | orbit_sums ]. Qed.

Lemma centred_s211 (w a b : R) :
  centred (scale w (ones 12)) (columns_from 1 (_s211 a b)).
Proof. apply centred_group; [ reflexivity | orbit_sums ]. Qed.

Lemma centred_s1111 (w a b c' : R) :
  centred (scale w (ones 24)) (columns_from 1 (_s1111 a b c')).
Proof. apply centred_group; [ reflexivity | orbit_sums ]. Qed.

Lemma centred_r (w r : R) :
  centred (scale w (ones 4)) (columns_from 1 (_r r)).
Proof. apply centred_group; [ reflexivity | orbit_sums ]. Qed.

Lemma centred_r_alpha (w a : R) :
  centred (scale w (ones 4)) (columns_from 1 (_r_alpha a)).
Proof. apply centred_group; [ reflexivity | orbit_sums ]. Qed.

Lemma centred_r_beta (w a : R) :
  centred (scale w (ones 6)) (columns_from 1 (_r_beta a)).
Proof. apply centred_group; [ reflexivity | orbit_sums ]. Qed.

Lemma centred_r_gamma_delta (w a b : R) :
  centred (scale w (ones 12)) (columns_from 1 (_r_gamma_delta a b)).
Proof. apply centred_group; [ reflexivity | orbit_sums ]. Qed.

Lemma centred_one_point (w : R) : centred [w] (columns_from 1 _s4).
Proof.
  split; [ reflexivity | ]. intros c Hc.
  destruct c as [ | [ | [ | c ] ] ]; [ | | | lia ];
    unfold sumR; cbn [columns_from map skipn nth fold_right combine fst snd _s4];
    at_reals; field.
Qed.
End Centred.

Section CentredTables.
Local Open Scope R_scope.

Lemma columns_123_from {F : Type} (a : list (list F)) :
  Forall (fun p => length p = 4%nat) a ->
  columns [1; 2; 3]%nat a = Return (columns_from 1 a).
Proof.
  unfold columns, columns_from.
  induction 1 as [ | p a Hp _ IH ]; [ reflexivity | ].
  cbn [mapM map]. rewrite IH.
  destruct p as [ | x0 [ | x1 [ | x2 [ | x3 [ | ? ? ] ] ] ] ];
    try discriminate Hp.
  reflexivity.
Qed.

Lemma columns_from_app {F : Type} (j : nat) (a b : list (list F)) :
  columns_from j (a ++ b) = columns_from j a ++ columns_from j b.
Proof. apply map_app. Qed.

Ltac rows_of_four_step :=
  lazymatch goal with
  | |- Forall _ (_ ++ _) => apply Forall_app; split
  | |- Forall _ [] => apply Forall_nil
  | |- Forall _ _ =>
      cbv [_s4 _s31 _s22 _s211 _s1111 _r _r_alpha _r_beta _r_gamma_delta];
      repeat (apply Forall_cons; [ reflexivity | ]); apply Forall_nil
  end.

Ltac rows_of_four :=
  unfold concatenate; cbn [concat]; repeat rows_of_four_step.

Ltac centred_step :=
  lazymatch goal with
  | |- centred (_ ++ _) (_ ++ _) => apply centred_app
  | |- centred [] _ => apply centred_nil
  | |- centred [_] _ => apply centred_one_point
  | |- centred (scale _ (ones 1)) _ => apply centred_s4
  | |- centred _ (columns_from 1 (_s31 _)) => apply centred_s31
  | |- centred _ (columns_from 1 (_s22 _)) => apply centred_s22
  | |- centred _ (columns_from 1 (_s211 _ _)) => apply centred_s211
  | |- centred _ (columns_from 1 (_s1111 _ _ _)) => apply centred_s1111
  | |- centred _ (columns_from 1 (_r _)) => apply centred_r
  | |- centred _ (columns_from 1 (_r_alpha _)) => apply centred_r_alpha
  | |- centred _ (columns_from 1 (_r_beta _)) => apply centred_r_beta
  | |- centred _ (columns_from 1 (_r_gamma_delta _ _)) =>
      apply centred_r_gamma_delta
  | |- centred (scale _ _) _ => apply centred_scale
  end.

Ltac centred_groups := repeat centred_step.

Ltac centred_table :=
  cbn [Z.eqb Pos.eqb];
  rewrite ?columns_123_from by rows_of_four;
  cbn [bind];
  eexists; split; [ reflexivity | ];
  cbn [weights points];
  unfold concatenate; cbn [concat];
  rewrite ?columns_from_app;
  centred_groups.

Ltac centred_cases Hcases :=
  repeat (destruct Hcases as [ -> | Hcases ]; [ centred_table | ]);
  subst; centred_table.

Lemma Keast_centred (index : Z) :
  (0 <= index <= 10)%Z ->
  exists s, Keast (F:=R) index = Return s
            /\ centred (weights s) (points s).
Proof.
  intros Hin.
  assert (Hcases : (index = 0 \/ index = 1 \/ index = 2 \/ index = 3
                    \/ index = 4 \/ index = 5 \/ index = 6 \/ index = 7
                    \/ index = 8 \/ index = 9 \/ index = 10)%Z) by lia.
  unfold Keast. centred_cases Hcases.
Qed.

Lemma ZhangCuiLiu_centred (index : Z) :
  (1 <= index <= 2)%Z ->
  exists s, ZhangCuiLiu (F:=R) index = Return s
            /\ centred (weights s) (points s).
Proof.
  intros Hin.
  assert (Hcases : (index = 1 \/ index = 2)%Z) by lia.
  unfold ZhangCuiLiu. centred_cases Hcases.
Qed.

Lemma Yu_centred (index : Z) :
  (1 <= index <= 5)%Z ->
  exists s, Yu (F:=R) index = Return s
            /\ centred (weights s) (points s).
Proof.
  intros Hin.
  assert (Hcases : (index = 1 \/ index = 2 \/ index = 3 \/ index = 4
                    \/ index = 5)%Z) by lia.
  unfold Yu. centred_cases Hcases.
Qed.

Lemma Zienkiewicz_centred (index : Z) :
  (4 <= index <= 5)%Z ->
  exists s, Zienkiewicz (F:=R) index = Return s
            /\ centred (weights s) (points s).
Proof.
  intros Hin.
  assert (Hcases : (index = 4 \/ index = 5)%Z) by lia.
  unfold Zienkiewicz. centred_cases Hcases.
Qed.

Lemma ShunnHam_centred (index : Z) :
  (1 <= index <= 6)%Z ->
  exists s, ShunnHam (F:=R) index = Return s
            /\ centred (weights s) (points s).
Proof.
  intros Hin.
  assert (Hcases : (index = 1 \/ index = 2 \/ index = 3 \/ index = 4
                    \/ index = 5 \/ index = 6)%Z) by lia.
  unfold ShunnHam. centred_cases Hcases.
Qed.

Lemma HammerMarloweStroud_centred (index : Z) :
  (1 <= index <= 3)%Z ->
  exists s, HammerMarloweStroud (F:=R) index = Return s
            /\ centred (weights s) (points s).
Proof.
  intros Hin.
  assert (Hcases : (index = 1 \/ index = 2 \/ index = 3)%Z) by lia.
  unfold HammerMarloweStroud. centred_cases Hcases.
Qed.

Lemma LiuVinokur_centred (index : Z) :
  (1 <= index <= 14)%Z ->
  exists s, LiuVinokur (F:=R) index = Return s
            /\ centred (weights s) (points s).
Proof.
  intros Hin.
  assert (Hcases : (index = 1 \/ index = 2 \/ index = 3 \/ index = 4
                    \/ index = 5 \/ index = 6 \/ index = 7 \/ index = 8
                    \/ index = 9 \/ index = 10 \/ index = 11 \/ index = 12
                    \/ index = 13 \/ index = 14)%Z) by lia.
  unfold LiuVinokur. centred_cases Hcases.
Qed.

(** X19. Every scheme of the tables has its centre of mass at the centre of
    gravity of the tetrahedron: the weighted sum of each coordinate of
    its points is a quarter of the sum of its weights, whatever the
    tabulated parameters and weights are. *)
Theorem tabulated_schemes_are_centred (index : Z) :
  ((0 <= index <= 10)%Z ->
   exists s, Keast (F:=R) index = Return s
             /\ centred (weights s) (points s))
  /\ ((1 <= index <= 5)%Z ->
      exists s, Yu (F:=R) index = Return s
                /\ centred (weights s) (points s))
  /\ ((1 <= index <= 14)%Z ->
      exists s, LiuVinokur (F:=R) index = Return s
                /\ centred (weights s) (points s))
  /\ ((1 <= index <= 6)%Z ->
      exists s, ShunnHam (F:=R) index = Return s
                /\ centred (weights s) (points s))
  /\ ((1 <= index <= 3)%Z ->
      exists s, HammerMarloweStroud (F:=R) index = Return s
                /\ centred (weights s) (points s))
  /\ ((4 <= index <= 5)%Z ->
      exists s, Zienkiewicz (F:=R) index = Return s
                /\ centred (weights s) (points s))
  /\ ((1 <= index <= 2)%Z ->
      exists s, ZhangCuiLiu (F:=R) index = Return s
                /\ centred (weights s) (points s)).
Proof.
  repeat split.
  - apply Keast_centred.
  - apply Yu_centred.
  - apply LiuVinokur_centred.
  - apply ShunnHam_centred.
  - apply HammerMarloweStroud_centred.
  - apply Zienkiewicz_centred.
  - apply ZhangCuiLiu_centred.
Qed.
End CentredTables.

Lemma tabulated_schemes_are_centred_witness :
  exists s, Keast (F:=R) 10 = Return s /\ centred (weights s) (points s).
Proof.
  destruct (tabulated_schemes_are_centred 10) as [HK _].
  apply HK. lia.
Defined.

Section CentredIntegrals.
Local Open Scope R_scope.

Lemma map_fst_combine_same {A B : Type} (u : list A) (v : list B) :
  length u = length v -> map fst (combine u v) = u.
Proof.
  revert v. induction u as [ | a u IH ]; intros [ | b v ] Hlen;
    try discriminate Hlen; [ reflexivity | ].
  cbn [combine map fst]. f_equal. apply IH. now injection Hlen.
Qed.

Lemma combine_map_r {A B C : Type} (g : B -> C) (u : list A) (v : list B) :
  combine u (map g v) = map (fun p => (fst p, g (snd p))) (combine u v).
Proof.
  revert v. induction u as [ | a u IH ]; intros [ | b v ];
    try reflexivity.
  cbn [map combine fst snd]. now rewrite IH.
Qed.

Lemma sumR_affine (a b c d : R) (L : list (R * list R)) :
  sumR (map (fun wp => fst wp * image_coordinate a b c d (snd wp)) L)
  = a * sumR (map fst L)
    + (b - a) * sumR (map (fun wp => fst wp * nth 0 (snd wp) 0) L)
    + (c - a) * sumR (map (fun wp => fst wp * nth 1 (snd wp) 0) L)
    + (d - a) * sumR (map (fun wp => fst wp * nth 2 (snd wp) 0) L).
Proof.
  unfold sumR. induction L as [ | [w p] L IH ]; cbn [map fold_right fst snd].
  - ring.
  - rewrite IH. unfold image_coordinate. ring.
Qed.

(** X20. A centred scheme integrates each coordinate of space exactly, up to
    the sum of its weights: over any tetrahedron it returns the volume
    times the sum of the weights times the coordinate of the centre of
    gravity. *)
Theorem centred_schemes_integrate_coordinates
        (t : Tetrahedron (F:=R)) (scheme : Scheme (F:=R)) (c : nat) :
  (c < 3)%nat ->
  centred (weights scheme) (points scheme) ->
  Forall (fun p => (3 <= length p)%nat) (points scheme) ->
  integrate (fun x => nth c x []) t scheme
  = Return (volume t * (sumR (weights scheme) * nth c (coords (centroid t)) 0)).
Proof.
  intros Hc [Hlen Hmom] Hpts.
  pose proof (Hmom 0%nat ltac:(lia)) as H0.
  pose proof (Hmom 1%nat ltac:(lia)) as H1.
  pose proof (Hmom 2%nat ltac:(lia)) as H2.
  assert (Hrow : exists a b c' d,
             nth c (image_points t (points scheme)) []
             = map (image_coordinate a b c' d) (points scheme)
             /\ nth c (coords (centroid t)) 0 = (a + b + c' + d) / 4).
  { unfold image_points, centroid.
    destruct (vertex0 t) as [[a0 a1] a2], (vertex1 t) as [[b0 b1] b2],
             (vertex2 t) as [[c0 c1] c2], (vertex3 t) as [[d0 d1] d2].
    destruct c as [ | [ | [ | c ] ] ]; [ | | | lia ];
      do 4 eexists; split; reflexivity. }
  destruct Hrow as [a [b [c' [d [Hrow Hcentre]]]]].
  rewrite (integrate_sum _ t scheme
             (map (fun wp => fst wp * snd wp)
                  (combine (weights scheme)
                           (map (image_coordinate a b c' d) (points scheme))))
             Hpts).
  - f_equal. f_equal. rewrite Hcentre.
    rewrite combine_map_r, map_map. cbn [fst snd].
    rewrite sumR_affine, map_fst_combine_same by exact Hlen.
    rewrite H0, H1, H2. field.
  - rewrite Hrow.
    rewrite (broadcast_mul_same_length (F:=R))
      by now rewrite length_map.
    reflexivity.
Qed.
End CentredIntegrals.

Lemma centred_schemes_integrate_coordinates_witness :
  integrate (fun x => nth 0 x []) reference_tetrahedron
    (mkScheme [1%R] (columns_from 1 _s4) 1)
  = Return (volume reference_tetrahedron
            * (sumR [1] * nth 0 (coords (centroid reference_tetrahedron)) 0))%R.
Proof.
  apply centred_schemes_integrate_coordinates.
  - lia.
  - apply centred_one_point.
  - cbn [points columns_from _s4 map skipn]. repeat constructor.
Defined.

(** ** Positive tables, and the shapes of the n-cube schemes *)

Section PositiveTables.

Ltac positive_table :=
  eexists; split; [ reflexivity | split; vm_compute; reflexivity ].

(** X22. The tables of Shunn and Ham and of Zhang, Cui and Liu are what their
    docstrings say: read as exact decimals, all their weights are positive
    and all their points lie strictly inside the tetrahedron. *)
Theorem positive_interior_tables (index : Z) :
  ((1 <= index <= 6)%Z ->
   exists s, ShunnHam (F:=Q) index = Return s
             /\ positive_weights s = true /\ interior_points s = true)
  /\ ((1 <= index <= 2)%Z ->
      exists s, ZhangCuiLiu (F:=Q) index = Return s
                /\ positive_weights s = true /\ interior_points s = true).
Proof.
  split; intro Hin.
  - assert (Hcases : (index = 1 \/ index = 2 \/ index = 3 \/ index = 4
                      \/ index = 5 \/ index = 6)%Z) by lia.
    repeat (destruct Hcases as [ -> | Hcases ]; [ positive_table | ]).
    subst. positive_table.
  - assert (Hcases : (index = 1 \/ index = 2)%Z) by lia.
    destruct Hcases as [ -> | -> ]; positive_table.
Qed.
End PositiveTables.

Lemma positive_interior_tables_witness :
  exists s, ShunnHam (F:=Q) 6 = Return s
            /\ positive_weights s = true /\ interior_points s = true.
Proof.
  destruct (positive_interior_tables 6) as [HS _].
  apply HS. lia.
Defined.

Section NCubeShape.
Context {F : Type} `{Num F} `{Sqrt F} `{Trig F}.

End NCubeShape.

(** X24. [stroud_1957_3] returns a scheme exactly from the dimension 1 on: in
    the dimension 0 there is no row to stack and [numpy.vstack] raises,
    before the weight [1 / (2 n)] is computed. *)
Theorem stroud_1957_3_domain (n : nat) :
  ((exists s, NCube.stroud_1957_3 (F:=R) n = Return s) <-> (1 <= n)%nat)
  /\ NCube.stroud_1957_3 (F:=R) 0
     = Raise (ValueError "need at least one array to concatenate").
Proof.
  split; [ split | reflexivity ].
  - intros [s Hs]. destruct n as [ | n ]; [ discriminate Hs | lia ].
  - intro Hn. destruct (stroud_1957_3_shape n Hn) as [s [Hs _]].
    now exists s.
Qed.

(** ** The degree of the Newton-Cotes rules *)

Section OperatorFamilies.
Local Open Scope R_scope.

Ltac pointwise :=
  apply functional_extensionality; intros ?m;
  unfold node, oplus, lower, shift, translate;
  unfold fadd, fsub, fscale; unfold prodR.

Lemma sumR_Permutation (l l' : list R) :
  Permutation l l' -> sumR l = sumR l'.
Proof.
  unfold sumR. induction 1; cbn [fold_right]; lra.
Qed.

Lemma sumR_map_filter {A : Type} (p : A -> bool) (g : A -> R) (l : list A) :
  sumR (map g l)
  = sumR (map g (filter p l)) + sumR (map g (filter (fun x => negb (p x)) l)).
Proof.
  unfold sumR. induction l as [ | x l IH ]; cbn [map filter fold_right].
  - ring.
  - destruct (p x); cbn [negb map fold_right]; rewrite IH; ring.
Qed.

Lemma sumR_map_zero {A : Type} (g : A -> R) (l : list A) :
  (forall x, In x l -> g x = 0) -> sumR (map g l) = 0.
Proof.
  intro Hg. unfold sumR. induction l as [ | x l IH ]; [ reflexivity | ].
  cbn [map fold_right]. rewrite IH, (Hg x).
  - ring.
  - now left.
  - intros y Hy. apply Hg. now right.
Qed.

Lemma component_mul (v : nat) (a b : monomial) :
  component v (monomial_mul a b) = (component v a + component v b)%nat.
Proof.
  destruct a as [[[a0 a1] a2] a3], b as [[[b0 b1] b2] b3].
  destruct v as [ | [ | [ | v ] ] ]; reflexivity.
Qed.

Lemma total_degree_mul (a b : monomial) :
  total_degree (monomial_mul a b) = (total_degree a + total_degree b)%nat.
Proof.
  destruct a as [[[a0 a1] a2] a3], b as [[[b0 b1] b2] b3].
  unfold total_degree, monomial_mul. lia.
Qed.

Lemma total_degree_var (v : nat) : total_degree (var v) = 1%nat.
Proof. destruct v as [ | [ | [ | v ] ] ]; reflexivity. Qed.

Lemma lattice_degree (N : nat) (mu : monomial) :
  In mu (lattice N) <-> total_degree mu = N.
Proof. destruct mu as [[[i j] k] l]. apply lattice_In. Qed.

Lemma component_var (v : nat) : (v < 4)%nat -> component v (var v) = 1%nat.
Proof.
  intros _. destruct v as [ | [ | [ | [ | v ] ] ] ]; reflexivity.
Qed.

Lemma monomial_mul_cancel (a b b' : monomial) :
  monomial_mul a b = monomial_mul a b' -> b = b'.
Proof.
  destruct a as [[[a0 a1] a2] a3], b as [[[b0 b1] b2] b3],
           b' as [[[c0 c1] c2] c3].
  unfold monomial_mul. intro E. injection E as E0 E1 E2 E3.
  repeat f_equal; lia.
Qed.

(** A positive entry can be lowered. *)
Lemma monomial_lower (v : nat) (mu : monomial) :
  (v < 4)%nat -> (1 <= component v mu)%nat ->
  exists mu', mu = monomial_mul (var v) mu'.
Proof.
  intros Hv Hpos. destruct mu as [[[m0 m1] m2] m3].
  destruct v as [ | [ | [ | [ | v ] ] ] ]; cbn [component] in Hpos;
    try lia.
  - exists (m0 - 1, m1, m2, m3)%nat. unfold var, monomial_mul.
    repeat f_equal; lia.
  - exists (m0, m1 - 1, m2, m3)%nat. unfold var, monomial_mul.
    repeat f_equal; lia.
  - exists (m0, m1, m2 - 1, m3)%nat. unfold var, monomial_mul.
    repeat f_equal; lia.
  - exists (m0, m1, m2, m3 - 1)%nat. unfold var, monomial_mul.
    repeat f_equal; lia.
Qed.

(** The indices of the lattice of order [N + 1] with a positive entry [v]
    are those of the lattice of order [N], with that entry raised. *)
Lemma lattice_raise (v N : nat) :
  (v < 4)%nat ->
  Permutation
    (filter (fun mu => negb (component v mu =? 0)%nat) (lattice (S N)))
    (map (monomial_mul (var v)) (lattice N)).
Proof.
  intro Hv. apply NoDup_Permutation.
  - apply NoDup_filter, lattice_NoDup.
  - apply NoDup_map_NoDup_ForallPairs; [ | apply lattice_NoDup ].
    intros mu mu' _ _. apply monomial_mul_cancel.
  - intro mu. rewrite filter_In, in_map_iff, lattice_degree. split.
    + intros [Hdeg Hpos].
      apply negb_true_iff, Nat.eqb_neq in Hpos.
      destruct (monomial_lower v mu Hv ltac:(lia)) as [mu' ->].
      exists mu'. split; [ reflexivity | ].
      apply lattice_degree.
      rewrite total_degree_mul, total_degree_var in Hdeg. lia.
    + intros [mu' [<- Hin]]. apply lattice_degree in Hin. split.
      * rewrite total_degree_mul, total_degree_var. lia.
      * apply negb_true_iff, Nat.eqb_neq.
        rewrite component_mul, component_var by exact Hv. lia.
Qed.

Lemma sumR_lattice_raise (v : nat) (G : monomial -> R) (N : nat) :
  (v < 4)%nat ->
  sumR (map (fun mu => INR (component v mu) * G mu) (lattice (S N)))
  = sumR (map (fun mu => INR (S (component v mu)) * G (monomial_mul (var v) mu))
              (lattice N)).
Proof.
  intro Hv.
  rewrite (sumR_map_filter (fun mu => (component v mu =? 0)%nat)).
  rewrite (sumR_map_zero _ (filter _ _)).
  2:{ intros mu Hmu. apply filter_In in Hmu. destruct Hmu as [_ Hz].
      apply Nat.eqb_eq in Hz. rewrite Hz. cbn [INR]. ring. }
  rewrite Rplus_0_l.
  rewrite (sumR_Permutation _ _
             (Permutation_map (fun mu => INR (component v mu) * G mu)
                              (lattice_raise v N Hv))).
  rewrite map_map. f_equal. apply map_ext. intro mu.
  rewrite component_mul, component_var by exact Hv. reflexivity.
Qed.
End OperatorFamilies.

Section CommutingFamily.
Local Open Scope R_scope.
Variable U : nat -> (monomial -> R) -> monomial -> R.
Hypothesis U_linear : forall v, linear (U v).
Hypothesis U_commute : forall v v' J, U v (U v' J) = U v' (U v J).

Ltac pointwise :=
  apply functional_extensionality; intros ?m;
  unfold node, oplus, lower, shift, translate;
  unfold fadd, fsub, fscale; unfold prodR.

Lemma lower_lower (V : (monomial -> R) -> monomial -> R) (a k : nat) J :
  lower (lower V a) k J = lower V (a + k) J.
Proof. pointwise. rewrite plus_INR. ring. Qed.

Lemma lower_0 (V : (monomial -> R) -> monomial -> R) J : lower V 0 J = V J.
Proof. pointwise. cbn [INR]. ring. Qed.

Lemma falling_peel (V : (monomial -> R) -> monomial -> R) (N : nat) J :
  falling V (S N) J = V (falling (lower V 1) N J).
Proof.
  unfold falling. cbn [seq fold_right]. rewrite lower_0. f_equal.
  rewrite <- seq_shift, fold_right_map_fold.
  apply fold_right_ext_in. intros k acc _.
  now rewrite lower_lower.
Qed.

(** [(N + 1) binom V (N + 1) = V (binom (V - 1) N)] *)
Lemma binom_peel (V : (monomial -> R) -> monomial -> R) (N : nat) J :
  linear V ->
  fscale (INR (S N)) (binom V (S N) J) = V (binom (lower V 1) N J).
Proof.
  intros [_ Hscale]. unfold binom. rewrite falling_peel, Hscale.
  pointwise. rewrite fact_simpl, mult_INR. field.
  split; apply not_0_INR; [ apply fact_neq_0 | lia ].
Qed.

Lemma lower_family_linear (v a : nat) : linear (lower (U v) a).
Proof. apply lower_linear, U_linear. Qed.

Lemma lower_family_commute (v v' a b : nat) J :
  lower (U v) a (lower (U v') b J) = lower (U v') b (lower (U v) a J).
Proof.
  rewrite (commute_lower (U v') (lower (U v) a) b).
  - reflexivity.
  - apply lower_family_linear.
  - intro K. symmetry. apply commute_lower; [ apply U_linear | ].
    intro K'. apply U_commute.
Qed.

Lemma lower_binom_commute (v v' a b N : nat) J :
  lower (U v) a (binom (lower (U v') b) N J)
  = binom (lower (U v') b) N (lower (U v) a J).
Proof.
  apply commute_binom; [ apply lower_family_linear | ].
  intro K. apply lower_family_commute.
Qed.

Lemma binom_lower_succ (v a N : nat) J :
  fscale (INR (S N)) (binom (lower (U v) a) (S N) J)
  = lower (U v) a (binom (lower (U v) (S a)) N J).
Proof.
  rewrite binom_peel by apply lower_family_linear. f_equal.
  unfold binom, falling. f_equal.
  apply fold_right_ext_in. intros k acc _.
  rewrite !lower_lower.
  now replace (a + (1 + k))%nat with (S a + k)%nat by lia.
Qed.

(** Raising the entry [v] of the index: the step of the induction *)
Lemma binom_product_raise (v : nat) (a mu : monomial) J :
  (v < 4)%nat ->
  fscale (INR (S (component v mu)))
         (binom_product U a (monomial_mul (var v) mu) J)
  = lower (U v) (component v a)
          (binom_product U (monomial_mul (var v) a) mu J).
Proof.
  intro Hv.
  destruct a as [[[a0 a1] a2] a3], mu as [[[m0 m1] m2] m3].
  pose proof (fun v a N => binom_linear (lower (U v) a) N
                             (lower_family_linear v a)) as Hlin.
  destruct v as [ | [ | [ | [ | v ] ] ] ]; [ | | | | lia ];
    unfold binom_product, var, monomial_mul;
    cbn [component Nat.add].
  - apply binom_lower_succ.
  - destruct (Hlin 0%nat a0 m0) as [_ Hs0]. rewrite <- Hs0.
    rewrite binom_lower_succ. symmetry.
    apply (lower_binom_commute 1 0).
  - destruct (Hlin 0%nat a0 m0) as [_ Hs0]. rewrite <- Hs0.
    destruct (Hlin 1%nat a1 m1) as [_ Hs1]. rewrite <- Hs1.
    rewrite binom_lower_succ. symmetry.
    rewrite (lower_binom_commute 2 0). f_equal.
    apply (lower_binom_commute 2 1).
  - destruct (Hlin 0%nat a0 m0) as [_ Hs0]. rewrite <- Hs0.
    destruct (Hlin 1%nat a1 m1) as [_ Hs1]. rewrite <- Hs1.
    destruct (Hlin 2%nat a2 m2) as [_ Hs2]. rewrite <- Hs2.
    rewrite binom_lower_succ. symmetry.
    rewrite (lower_binom_commute 3 0). f_equal.
    rewrite (lower_binom_commute 3 1). f_equal.
    apply (lower_binom_commute 3 2).
Qed.
End CommutingFamily.

Section FamilyVandermonde.
Local Open Scope R_scope.
Variable W : nat -> (monomial -> R) -> monomial -> R.
Hypothesis W_linear : forall v, linear (W v).
Hypothesis W_commute : forall v v' J, W v (W v' J) = W v' (W v J).

(** Vandermonde's identity for four commuting operators: the binomial
    coefficient of their sum, as a sum over the lattice *)
Lemma vandermonde_family (N : nat) J (m : monomial) :
  binom (oplus (W 0%nat) (oplus (W 1%nat) (oplus (W 2%nat) (W 3%nat)))) N J m
  = sumR (map (fun '(i, j, k, l) =>
                 binom (W 0%nat) i
                   (binom (W 1%nat) j
                      (binom (W 2%nat) k (binom (W 3%nat) l J))) m)
              (lattice N)).
Proof.
  rewrite vandermonde.
  2:{ apply W_linear. }
  2:{ apply oplus_linear; [ apply W_linear | ].
      apply oplus_linear; apply W_linear. }
  2:{ apply oplus_commute; [ apply W_linear | | ].
      - intros K. apply W_commute.
      - apply oplus_commute; [ apply W_linear | | ];
          intros K; apply W_commute. }
  unfold fsum_upto, lattice.
  rewrite sumR_map_flat_map.
  replace (N + 1)%nat with (S N) by lia.
  apply sumR_map_ext_in. intros i Hi. apply in_seq in Hi.
  rewrite (vandermonde (W 1%nat) (oplus (W 2%nat) (W 3%nat))).
  2:{ apply W_linear. }
  2:{ apply oplus_linear; apply W_linear. }
  2:{ apply oplus_commute; [ apply W_linear | | ];
        intros K; apply W_commute. }
  unfold fsum_upto.
  rewrite (linear_sum (binom (W 0%nat) i))
    by apply binom_linear, W_linear.
  rewrite sumR_map_flat_map.
  replace (S N - i)%nat with (S (N - i)) by lia.
  apply sumR_map_ext_in. intros j Hj. apply in_seq in Hj.
  rewrite (vandermonde (W 2%nat) (W 3%nat)).
  2:{ apply W_linear. }
  2:{ apply W_linear. }
  2:{ intros K. apply W_commute. }
  unfold fsum_upto.
  rewrite (linear_sum (binom (W 1%nat) j))
    by apply binom_linear, W_linear.
  rewrite (linear_sum (binom (W 0%nat) i))
    by apply binom_linear, W_linear.
  rewrite map_map.
  replace (S (N - i) - j)%nat with (S (N - i - j)) by lia.
  reflexivity.
Qed.
End FamilyVandermonde.

Section LatticeSums.
Local Open Scope R_scope.

Ltac pointwise :=
  apply functional_extensionality; intros ?m;
  unfold node, oplus, lower, shift, translate;
  unfold fadd, fsub, fscale; unfold prodR.

Lemma linear_sum_list {A : Type} (V : (monomial -> R) -> monomial -> R)
      (s : A -> R) (g : A -> monomial -> R) (l : list A) :
  linear V ->
  V (fun m => sumR (map (fun x => s x * g x m) l))
  = fun m => sumR (map (fun x => s x * V (g x) m) l).
Proof.
  intros [Hadd Hscale]. induction l as [ | x l IH ].
  - cbn [map sumR fold_right]. apply linear_zero. now split.
  - cbn [map sumR fold_right].
    change (fun m => s x * g x m
                     + fold_right Rplus 0 (map (fun y => s y * g y m) l))
      with (fadd (fscale (s x) (g x))
                 (fun m => sumR (map (fun y => s y * g y m) l))).
    rewrite Hadd, Hscale, IH. reflexivity.
Qed.

Lemma monomial_raise (m : monomial) (k : nat) :
  total_degree m = S k ->
  exists v m1, (v < 4)%nat /\ m = monomial_mul (var v) m1
               /\ total_degree m1 = k.
Proof.
  intro Hdeg.
  assert (Hpos : exists v, (v < 4)%nat /\ (1 <= component v m)%nat).
  { destruct m as [[[m0 m1] m2] m3]. cbn [total_degree] in Hdeg.
    destruct m0 as [ | m0 ]; [ | exists 0%nat; cbn; lia ].
    destruct m1 as [ | m1 ]; [ | exists 1%nat; cbn; lia ].
    destruct m2 as [ | m2 ]; [ | exists 2%nat; cbn; lia ].
    exists 3%nat. cbn. lia. }
  destruct Hpos as [v [Hv Hpos]].
  destruct (monomial_lower v m Hv Hpos) as [m1 ->].
  exists v, m1. split; [ exact Hv | ]. split; [ reflexivity | ].
  rewrite total_degree_mul, total_degree_var in Hdeg. lia.
Qed.

Section LatticeNodes.
Variables (point_fun : nat -> nat -> R) (c d : R) (n : nat).
Hypothesis Hc : c <> 0.
Hypothesis Hpoint : forall k, point_fun k n = (INR k + d) / c.

Lemma node_family_commute (v v' : nat) J :
  node c d v (node c d v' J) = node c d v' (node c d v J).
Proof. apply node_commute. Qed.

Lemma lowered_nodes (a : monomial) J :
  oplus (lower (node c d 0) (component 0 a))
        (oplus (lower (node c d 1) (component 1 a))
               (oplus (lower (node c d 2) (component 2 a))
                      (lower (node c d 3) (component 3 a)))) J
  = lower (all_nodes c d) (total_degree a) J.
Proof.
  destruct a as [[[a0 a1] a2] a3]. unfold all_nodes.
  cbn [component total_degree]. pointwise.
  rewrite !plus_INR. ring.
Qed.

(** The lattice sum of the products of binomial coefficients *)
Lemma binom_product_sum (a : monomial) (f : monomial -> R) (m : monomial) :
  (total_degree a <= n)%nat ->
  all_nodes c d f = fscale (INR n) f ->
  sumR (map (fun mu => binom_product (node c d) a mu f m)
            (lattice (n - total_degree a)))
  = f m.
Proof.
  intros Ha Hf.
  pose proof (vandermonde_family
                (fun v => lower (node c d v) (component v a))
                (fun v => lower_linear _ _ (node_linear c d v))
                (fun v v' J =>
                   lower_family_commute (node c d) (node_linear c d)
                     node_family_commute v v' _ _ J)
                (n - total_degree a) f m) as Hv.
  cbn beta in Hv.
  transitivity
    (binom (oplus (lower (node c d 0) (component 0 a))
              (oplus (lower (node c d 1) (component 1 a))
                 (oplus (lower (node c d 2) (component 2 a))
                    (lower (node c d 3) (component 3 a)))))
           (n - total_degree a) f m).
  { rewrite Hv. f_equal. apply map_ext. now intros [[[i j] k] l]. }
  clear Hv.
  replace (oplus (lower (node c d 0) (component 0 a))
             (oplus (lower (node c d 1) (component 1 a))
                (oplus (lower (node c d 2) (component 2 a))
                   (lower (node c d 3) (component 3 a)))))
    with (lower (all_nodes c d) (total_degree a))
    by (apply functional_extensionality; intro J; symmetry;
        apply lowered_nodes).
  unfold binom.
  rewrite (falling_eigen _ (INR (n - total_degree a))).
  - rewrite prodR_factorial. unfold fscale. field.
    apply not_0_INR, fact_neq_0.
  - apply lower_linear, all_nodes_linear.
  - unfold lower. rewrite Hf. pointwise. rewrite minus_INR by exact Ha. ring.
Qed.
End LatticeNodes.
End LatticeSums.

Section Interpolation.
Local Open Scope R_scope.

Ltac pointwise :=
  apply functional_extensionality; intros ?m;
  unfold node, oplus, lower, shift, translate;
  unfold fadd, fsub, fscale; unfold prodR.

Section InterpolationNodes.
Variables (point_fun : nat -> nat -> R) (c d : R) (n : nat).
Hypothesis Hc : c <> 0.
Hypothesis Hpoint : forall k, point_fun k n = (INR k + d) / c.

Lemma coordinate_lattice_node (v : nat) (nu : monomial) :
  coordinate v (lattice_node point_fun n nu)
  = (INR (component v nu) + d) / c.
Proof.
  destruct nu as [[[i j] k] l].
  destruct v as [ | [ | [ | v ] ] ]; cbn [lattice_node coordinate component];
    apply Hpoint.
Qed.

(** The interpolation identity: the nodes' powers, weighted by the
    products of binomial coefficients, reproduce the monomials up to the
    degree [n]. *)
Lemma lattice_interpolation (k : nat) :
  forall (m a : monomial) (f : monomial -> R),
    total_degree m = k ->
    (total_degree a + k <= n)%nat ->
    all_nodes c d f = fscale (INR n) f ->
    forall m',
      sumR (map (fun mu =>
                   power (lattice_node point_fun n (monomial_mul mu a)) m
                   * binom_product (node c d) a mu f m')
                (lattice (n - total_degree a)))
      = translate m f m'.
Proof.
  induction k as [ | k IH ]; intros m a f Hm Ha Hf m'.
  - assert (m = (0, 0, 0, 0)%nat) as ->.
    { destruct m as [[[m0 m1] m2] m3]. cbn [total_degree] in Hm.
      repeat f_equal; lia. }
    rewrite (map_ext _ (fun mu => binom_product (node c d) a mu f m'))
      by (intro mu; rewrite power_one; ring).
    rewrite (binom_product_sum c d n a f m' ltac:(lia) Hf).
    unfold translate. now rewrite monomial_mul_one_l.
  - destruct (monomial_raise m k Hm) as [v [m1 [Hv [-> Hm1]]]].
    destruct (n - total_degree a)%nat as [ | M ] eqn:HM; [ lia | ].
    set (a' := monomial_mul (var v) a).
    assert (Ha' : total_degree a' = S (total_degree a))
      by (unfold a'; rewrite total_degree_mul, total_degree_var; lia).
    assert (HM' : (n - total_degree a')%nat = M) by lia.
    pose proof (IH m1 a f Hm1 ltac:(lia) Hf) as IHa.
    pose proof (IH m1 a' f Hm1 ltac:(lia) Hf) as IHa'.
    rewrite HM in IHa. rewrite HM' in IHa'.
    (* split the coordinate of the node *)
    rewrite (map_ext _
               (fun mu =>
                  / c * (INR (component v mu)
                         * (power (lattice_node point_fun n (monomial_mul mu a)) m1
                            * binom_product (node c d) a mu f m'))
                  + (INR (component v a) + d) / c
                    * (power (lattice_node point_fun n (monomial_mul mu a)) m1
                       * binom_product (node c d) a mu f m'))).
    2:{ intro mu. rewrite power_mul, power_var, coordinate_lattice_node.
        rewrite component_mul, plus_INR. field. exact Hc. }
    rewrite sumR_map_plus, !sumR_map_scale, IHa.
    rewrite (sumR_lattice_raise v
               (fun mu => power (lattice_node point_fun n (monomial_mul mu a)) m1
                          * binom_product (node c d) a mu f m') M Hv).
    rewrite (map_ext _
               (fun mu =>
                  power (lattice_node point_fun n (monomial_mul mu a')) m1
                  * lower (node c d v) (component v a)
                      (binom_product (node c d) a' mu f) m')).
    2:{ intro mu. unfold a'.
        rewrite <- (binom_product_raise (node c d) (node_linear c d)
                      (node_family_commute c d) v a mu f Hv).
        unfold fscale.
        replace (monomial_mul (monomial_mul (var v) mu) a)
          with (monomial_mul mu (monomial_mul (var v) a))
          by (rewrite monomial_mul_assoc_comm; reflexivity).
        ring. }
    pose proof (linear_sum_list
                  (lower (node c d v) (component v a))
                  (fun mu => power (lattice_node point_fun n (monomial_mul mu a')) m1)
                  (fun mu => binom_product (node c d) a' mu f)
                  (lattice M)
                  (lower_linear _ _ (node_linear c d v))) as Hlin.
    apply (f_equal (fun g => g m')) in Hlin. cbn beta in Hlin.
    rewrite <- Hlin. clear Hlin.
    replace (fun m0 =>
               sumR (map (fun x =>
                            power (lattice_node point_fun n (monomial_mul x a')) m1
                            * binom_product (node c d) a' x f m0)
                         (lattice M)))
      with (translate m1 f)
      by (apply functional_extensionality; intro m0; symmetry; apply IHa').
    unfold lower, node, fsub, fscale, shift, translate.
    rewrite (monomial_mul_assoc_comm (var v) m1 m').
    field. exact Hc.
Qed.
End InterpolationNodes.
End Interpolation.

Section NewtonCotesDegree.
Local Open Scope R_scope.

Section DegreeNodes.
Variables (point_fun : nat -> nat -> R) (c d : R) (n : nat).
Hypothesis Hc : c <> 0.
Hypothesis Hpoint : forall k, point_fun k n = (INR k + d) / c.
Hypothesis Hdegree : c - 4 * d = INR n.

Lemma binom_lower_0 (V : (monomial -> R) -> monomial -> R) (k : nat) J :
  binom (lower V 0) k J = binom V k J.
Proof.
  replace (lower V 0) with V; [ reflexivity | ].
  apply functional_extensionality. intro K. symmetry. apply lower_0.
Qed.

Lemma newton_cotes_moment (m : monomial) :
  (total_degree m <= n)%nat ->
  sumR (map (fun nu =>
               total (map monomial_integral (basis_poly point_fun n nu))
               * power (lattice_node point_fun n nu) m)
            (lattice n))
  = simplex_moment m.
Proof.
  intro Hm.
  pose proof (lattice_interpolation point_fun c d n Hc Hpoint
                (total_degree m) m (0, 0, 0, 0)%nat simplex_moment
                eq_refl ltac:(cbn [total_degree]; lia)
                (all_nodes_moment c d n Hdegree) (0, 0, 0, 0)%nat) as H.
  cbn [total_degree Nat.add] in H. rewrite Nat.sub_0_r in H.
  unfold translate in H. rewrite monomial_mul_one_r in H.
  rewrite <- H. f_equal. apply map_ext. intros [[[i j] k] l].
  rewrite monomial_mul_one_r.
  unfold basis_poly.
  rewrite (weight_binom point_fun c d n Hc Hpoint).
  unfold binom_product. cbn [component].
  rewrite !binom_lower_0. ring.
Qed.

Lemma first_coordinate (i j k l : nat) :
  (i + j + k + l = n)%nat ->
  point_fun i n = 1 - point_fun j n - point_fun k n - point_fun l n.
Proof.
  intro Hsum. rewrite !Hpoint.
  assert (Hn : INR i + INR j + INR k + INR l = INR n)
    by (rewrite <- !plus_INR; now f_equal).
  field_simplify_eq; [ | exact Hc ]. lra.
Qed.
End DegreeNodes.

Lemma newton_cotes_scheme_moment (point_fun : nat -> nat -> R) (c d : R)
      (n : nat) (m : monomial) :
  c <> 0 -> (forall k, point_fun k n = (INR k + d) / c) ->
  c - 4 * d = INR n ->
  (1 <= n)%nat -> (total_degree m <= n)%nat ->
  exists pts w deg,
    _newton_cotes point_fun n = Return (pts, w, deg)
    /\ barycentric_moment (mkScheme w pts deg) m = simplex_moment m.
Proof.
  intros Hc Hpoint Hdegree Hn Hm.
  unfold _newton_cotes. rewrite columns_123. cbn [bind].
  destruct (Nat.eqb_spec n 0) as [ -> | _ ]; [ lia | ].
  do 3 eexists. split; [ reflexivity | ].
  unfold barycentric_moment. cbn [weights points].
  rewrite <- (newton_cotes_moment point_fun c d n Hc Hpoint Hdegree m Hm).
  rewrite combine_map_map, map_map.
  apply sumR_map_ext_in. intros [[[i j] k] l] Hin.
  apply lattice_In in Hin. cbn [fst snd].
  unfold basis_poly, lattice_node.
  now rewrite (first_coordinate point_fun c d n Hc Hpoint Hdegree i j k l Hin).
Qed.

End NewtonCotesDegree.

